(** * SchemaForgeAI: the DDL parser and the dialect-aware SQL generator

  A shallow embedding of [SchemaParser] (schemaParser.ts),
  [SQLSyntaxMapper] (sqlSyntaxMapper.ts) and of the schema part of
  [DiagramService] (diagramService.ts), followed by the properties of the
  specification that concern them.

  Conventions of the embedding.
  - A JavaScript string is a list of code units, [str := list ascii].  The
    embedding covers 7-bit ASCII text: this is all the generator prints and
    all the keywords, separators and identifiers the parser looks for.  The
    case conversions below act on the ASCII letters and the white-space class
    is the ASCII part of the class [\s].
  - A JavaScript exception is an explicit outcome: functions that can raise
    return a [result].  Reading a property of [undefined] is [TypeError].
  - An array that is filled by [push] is a list that grows at its end; a
    [Map] is an association list in insertion order.
  - A regular expression of the source is a value of [Regex.t], item for
    item, run by a backtracking matcher ([Regex.matchAt]) that tries the
    alternatives in the order of the JavaScript engine: a greedy quantifier
    the longest run first, a lazy one the shortest first. *)

From Stdlib Require Import List Ascii String Bool Arith ZArith Lia Permutation.
From Stdlib Require Import DecimalString DecimalN.
Import ListNotations.

Local Open Scope list_scope.
Local Open Scope bool_scope.

(** ** Outcomes *)

(** [TypeError] is the exception of JavaScript.  [NotAString] marks the
    point where a built-in object would go on as the value of a string
    variable, which the embedding does not follow; the parser never reaches
    it ([normalizeType_total]). *)
Inductive JsError : Type :=
  | TypeError   (* a property of [undefined] was read *)
  | NotAString. (* a built-in object where a string is expected *)

Inductive result (A : Type) : Type :=
  | Ok (a : A)
  | Throw (e : JsError).

Arguments Ok {A} a.
Arguments Throw {A} e.

Definition bind {A B : Type} (c : result A) (k : A -> result B) : result B :=
  match c with
  | Ok a => k a
  | Throw e => Throw e
  end.

Notation "x <- c ;; k" := (bind c (fun x => k))
  (at level 61, c at next level, right associativity).

Fixpoint mapM {A B : Type} (f : A -> result B) (l : list A) : result (list B) :=
  match l with
  | [] => Ok []
  | a :: l' => b <- f a ;; bs <- mapM f l' ;; Ok (b :: bs)
  end.

(** ** Strings *)

Definition str : Type := list ascii.

Definition lit (x : string) : str := list_ascii_of_string x.

Module JS.

Definition code (c : ascii) : nat := nat_of_ascii c.

Definition between (lo hi : nat) (c : ascii) : bool :=
  (lo <=? code c) && (code c <=? hi).

(** [\s], ASCII part: TAB, LF, VT, FF, CR, SPACE. *)
Definition isSpace (c : ascii) : bool :=
  between 9 13 c || (code c =? 32).

(** The characters that [.] does not match and at which [$] holds with the
    flag [m]: LF and CR. *)
Definition isLineTerminator (c : ascii) : bool :=
  (code c =? 10) || (code c =? 13).

Definition isDigit (c : ascii) : bool := between 48 57 c.
Definition isUpper (c : ascii) : bool := between 65 90 c.
Definition isLower (c : ascii) : bool := between 97 122 c.

(** [\w] is [A-Za-z0-9_]. *)
Definition isWord (c : ascii) : bool :=
  isUpper c || isLower c || isDigit c || (code c =? 95).

Definition upper (c : ascii) : ascii :=
  if isLower c then ascii_of_nat (code c - 32) else c.

Definition lower (c : ascii) : ascii :=
  if isUpper c then ascii_of_nat (code c + 32) else c.

Definition toUpperCase (s : str) : str := map upper s.
Definition toLowerCase (s : str) : str := map lower s.

Fixpoint eqb (a b : str) : bool :=
  match a, b with
  | [], [] => true
  | x :: a', y :: b' => Ascii.eqb x y && eqb a' b'
  | _, _ => false
  end.

(** A string is truthy when it is not empty. *)
Definition truthy (s : str) : bool :=
  match s with [] => false | _ :: _ => true end.

Fixpoint dropWhile (p : ascii -> bool) (s : str) : str :=
  match s with
  | [] => []
  | c :: r => if p c then dropWhile p r else s
  end.

Fixpoint takeWhile (p : ascii -> bool) (s : str) : str :=
  match s with
  | [] => []
  | c :: r => if p c then c :: takeWhile p r else []
  end.

Definition trim (s : str) : str :=
  rev (dropWhile isSpace (rev (dropWhile isSpace s))).

(** [stripPrefix p s] is the rest of [s] after the prefix [p], if any. *)
Fixpoint stripPrefix (p s : str) : option str :=
  match p, s with
  | [], _ => Some s
  | x :: p', y :: s' => if Ascii.eqb x y then stripPrefix p' s' else None
  | _ :: _, [] => None
  end.

(** The same, letters compared without case (the flag [i]). *)
Fixpoint stripPrefixCI (p s : str) : option str :=
  match p, s with
  | [], _ => Some s
  | x :: p', y :: s' =>
      if Ascii.eqb (upper x) (upper y) then stripPrefixCI p' s' else None
  | _ :: _, [] => None
  end.

Definition startsWith (p s : str) : bool :=
  match stripPrefix p s with Some _ => true | None => false end.

Definition endsWith (p s : str) : bool :=
  startsWith (rev p) (rev s).

Fixpoint includes (p s : str) : bool :=
  startsWith p s ||
  match s with
  | [] => false
  | _ :: r => includes p r
  end.

(** [s.replace(p, r)] with a string pattern: the first occurrence only. *)
Fixpoint replaceFirst (p r s : str) : str :=
  match stripPrefix p s with
  | Some rest => r ++ rest
  | None =>
      match s with
      | [] => []
      | c :: s' => c :: replaceFirst p r s'
      end
  end.

(** [s.slice(0, -1)]. *)
Definition sliceInit (s : str) : str := removelast s.

(** [s.split('(')[0]]: the text before the first occurrence of [c]. *)
Definition beforeFirst (c : ascii) (s : str) : str :=
  takeWhile (fun x => negb (Ascii.eqb x c)) s.

(** [l.join(sep)]. *)
Fixpoint join (sep : str) (l : list str) : str :=
  match l with
  | [] => []
  | [x] => x
  | x :: l' => x ++ sep ++ join sep l'
  end.

(** The rest of [s] after a non-empty run of white space. *)
Definition spaces1 (s : str) : option str :=
  match s with
  | c :: r => if isSpace c then Some (dropWhile isSpace r) else None
  | [] => None
  end.

(** The leftmost suffix of [s] at which [m] succeeds
    ([String.prototype.match] and [RegExp.prototype.exec] try the start
    positions from left to right). *)
Fixpoint firstMatch {A : Type} (m : str -> option A) (s : str) : option A :=
  match m s with
  | Some a => Some a
  | None =>
      match s with
      | [] => None
      | _ :: r => firstMatch m r
      end
  end.

(** The numbers that occur: integers, and [NaN]. *)
Inductive number : Type :=
  | Int (z : Z)
  | NaN.

Definition digitsValue (digits : str) : Z :=
  fold_left (fun acc c => (10 * acc + Z.of_nat (code c - 48))%Z) digits 0%Z.

(** [parseInt(x)] where [x] is [undefined] or a string that is empty or
    starts with decimal digits (what a capture of [\d+] holds).  The integer
    is exact here; the JavaScript number is exact up to 15 digits. *)
Definition parseInt (x : option str) : number :=
  match x with
  | None => NaN
  | Some text =>
      match takeWhile isDigit text with
      | [] => NaN
      | digits => Int (digitsValue digits)
      end
  end.

(** A number in a template literal. *)
Definition numberToString (n : number) : str :=
  match n with
  | Int z => lit (NilEmpty.string_of_int (Z.to_int z))
  | NaN => lit "NaN"
  end.

End JS.

(** ** Regular expressions

    The fragment that the source uses: single characters and character
    classes, a class under [*], [+] or [*?], the assertion [$] of the flag
    [m], and capturing groups around one such item.  No pattern of the source
    matches the empty string. *)

Module Regex.

Inductive item : Type :=
  | One (p : ascii -> bool)
  | Many (atLeastOne greedy : bool) (p : ascii -> bool)
  | EndOfLine
  | Group (i : item).

Definition t : Type := list item.

(** A literal character, and the same under the flag [i]. *)
Definition chr (c : ascii) : item := One (Ascii.eqb c).
Definition chrI (c : ascii) : item :=
  One (fun x => Ascii.eqb (JS.upper c) (JS.upper x)).

Definition text (s : string) : t := map chr (lit s).
Definition textI (s : string) : t := map chrI (lit s).

(** [.] *)
Definition dot (c : ascii) : bool := negb (JS.isLineTerminator c).

Definition plus (p : ascii -> bool) : item := Many true true p.
Definition star (p : ascii -> bool) : item := Many false true p.
Definition starLazy (p : ascii -> bool) : item := Many false false p.

Definition isGroup (i : item) : bool :=
  match i with Group _ => true | _ => false end.

(** The number of capturing groups of a pattern. *)
Definition groups (r : t) : nat := List.length (filter isGroup r).

Section Matcher.

Context {A : Type}.

(** The continuation [k] receives the text the item has taken and the rest
    of the input; it answers [None] when the rest of the pattern fails, and
    the item then tries its next alternative. *)
Fixpoint greedy (p : ascii -> bool) (k : str -> str -> option A)
         (taken s : str) : option A :=
  match s with
  | c :: r =>
      if p c then
        match greedy p k (taken ++ [c]) r with
        | Some a => Some a
        | None => k taken s
        end
      else k taken s
  | [] => k taken []
  end.

Fixpoint reluctant (p : ascii -> bool) (k : str -> str -> option A)
         (taken s : str) : option A :=
  match k taken s with
  | Some a => Some a
  | None =>
      match s with
      | c :: r => if p c then reluctant p k (taken ++ [c]) r else None
      | [] => None
      end
  end.

Fixpoint matchItem (i : item) (k : str -> str -> option A) (s : str)
  : option A :=
  match i with
  | One p =>
      match s with
      | c :: r => if p c then k [c] r else None
      | [] => None
      end
  | Many atLeastOne isGreedy p =>
      let loop := if isGreedy then greedy p k else reluctant p k in
      if atLeastOne then
        match s with
        | c :: r => if p c then loop [c] r else None
        | [] => None
        end
      else loop [] s
  | EndOfLine =>
      match s with
      | [] => k [] []
      | c :: _ => if JS.isLineTerminator c then k [] s else None
      end
  | Group i' => matchItem i' k s
  end.


Fixpoint matchItems (r : t) (captures : list str)
         (k : list str -> str -> option A) (s : str) : option A :=
  match r with
  | [] => k captures s
  | i :: r' =>
      matchItem i
        (fun taken rest =>
           matchItems r'
             (if isGroup i then captures ++ [taken] else captures) k rest)
        s
  end.

End Matcher.

(** A match that starts at the first character of [s]: the captures
    ([match[1]], [match[2]], ...) and the input after the match. *)
Definition matchAt (r : t) (s : str) : option (list str * str) :=
  matchItems r [] (fun captures rest => Some (captures, rest)) s.

(** [s.match(r)] and [r.exec(s)] without the flag [g]: the captures of the
    leftmost match. *)
Definition exec (r : t) (s : str) : option (list str) :=
  option_map fst (JS.firstMatch (matchAt r) s).

(** [match[i]] for [i >= 1], [undefined] when absent. *)
Definition capture (captures : list str) (i : nat) : option str :=
  nth_error captures (i - 1).

(** The loop [while ((match = r.exec(s)) !== null)] with the flag [g]: the
    captures of all the matches, from left to right, each search starting
    where the previous match ended ([lastIndex]).  [skip] counts the
    characters still to pass before [lastIndex] is reached. *)
Fixpoint execAll (r : t) (skip : nat) (s : str) : list (list str) :=
  match s with
  | [] => []
  | c :: s' =>
      match skip with
      | S n => execAll r n s'
      | O =>
          match matchAt r (c :: s') with
          | Some (captures, rest) =>
              captures :: execAll r (List.length s' - List.length rest) s'
          | None => execAll r 0 s'
          end
      end
  end.

(** [s.replace(r, replacement)] with the flag [g] and a replacement without
    [$]. *)
Fixpoint replaceAll (r : t) (replacement : str) (skip : nat) (s : str) : str :=
  match s with
  | [] => []
  | c :: s' =>
      match skip with
      | S n => replaceAll r replacement n s'
      | O =>
          match matchAt r (c :: s') with
          | Some (_, rest) =>
              replacement ++
              replaceAll r replacement (List.length s' - List.length rest) s'
          | None => c :: replaceAll r replacement 0 s'
          end
      end
  end.

(** [s.split(r)] for a pattern without groups: [current] is the piece being
    read. *)
Fixpoint splitFrom (r : t) (current : str) (skip : nat) (s : str) : list str :=
  match s with
  | [] => [current]
  | c :: s' =>
      match skip with
      | S n => splitFrom r current n s'
      | O =>
          match matchAt r (c :: s') with
          | Some (_, rest) =>
              current :: splitFrom r [] (List.length s' - List.length rest) s'
          | None => splitFrom r (current ++ [c]) 0 s'
          end
      end
  end.

Definition split (r : t) (s : str) : list str := splitFrom r [] 0 s.

End Regex.

(** ** Objects used as lookup tables

  [DATABASE_SYNTAX] and the two [typeMap]s are object literals read with
  [table[key]].  Such a read finds the own properties of the literal first
  and then the properties every object inherits from [Object.prototype],
  whose values are built-in functions (and, for [__proto__], an object):
  all of them are truthy and none of them is a string. *)

Inductive lookup (A : Type) : Type :=
  | Own (a : A)   (* a property of the literal *)
  | Inherited     (* a built-in inherited from [Object.prototype] *)
  | Missing.      (* [undefined] *)

Arguments Own {A} a.
Arguments Inherited {A}.
Arguments Missing {A}.

Definition objectPrototypeKeys : list str :=
  map lit
    [ "constructor"; "__defineGetter__"; "__defineSetter__"; "hasOwnProperty";
      "__lookupGetter__"; "__lookupSetter__"; "isPrototypeOf";
      "propertyIsEnumerable"; "toString"; "valueOf"; "__proto__";
      "toLocaleString" ]%string.

Fixpoint assoc {A : Type} (k : str) (l : list (str * A)) : option A :=
  match l with
  | [] => None
  | (k', a) :: l' => if JS.eqb k' k then Some a else assoc k l'
  end.

Definition getProp {A : Type} (o : list (str * A)) (k : str) : lookup A :=
  match assoc k o with
  | Some a => Own a
  | None => if existsb (JS.eqb k) objectPrototypeKeys then Inherited else Missing
  end.

(** [Map.prototype.set]: a known key keeps its place, a new key goes last. *)
Fixpoint mapSet {A : Type} (k : str) (a : A) (m : list (str * A))
  : list (str * A) :=
  match m with
  | [] => [(k, a)]
  | (k', a') :: m' =>
      if JS.eqb k' k then (k', a) :: m' else (k', a') :: mapSet k a m'
  end.

Definition mapGet {A : Type} (k : str) (m : list (str * A)) : option A :=
  assoc k m.

(** ** sqlSyntaxMapper.ts *)

Module SQLSyntaxMapper.

Record AutoIncrement : Type := {
    integerType : str;
    syntax : str
  }.

Record DataTypes : Type := {
    serial : str;
    text : str;
    integer : str;
    boolean : str;
    timestamp : str;
    decimal : str;
    varchar : option JS.number -> str
  }.

Record Constraints : Type := {
    primaryKey : str;
    notNull : str;
    unique : str;
    foreignKey : str -> str -> str
  }.

Record Functions : Type := {
    now : str;
    uuid : str
  }.

Record DatabaseSyntaxConfig : Type := {
    autoIncrement : AutoIncrement;
    dataTypes : DataTypes;
    constraints : Constraints;
    functions : Functions
  }.

(** [(length = 255) => `VARCHAR(${length})`] *)
Definition varcharN (length : option JS.number) : str :=
  let length := match length with Some n => n | None => JS.Int 255 end in
  lit "VARCHAR(" ++ JS.numberToString length ++ lit ")".

(** [(referencedTable, referencedColumn) =>
     `REFERENCES ${referencedTable}(${referencedColumn})`] *)
Definition references (referencedTable referencedColumn : str) : str :=
  lit "REFERENCES " ++ referencedTable ++ lit "(" ++ referencedColumn ++ lit ")".

Definition standardConstraints : Constraints :=
  {| primaryKey := lit "PRIMARY KEY";
     notNull := lit "NOT NULL";
     unique := lit "UNIQUE";
     foreignKey := references |}.

Definition postgresql : DatabaseSyntaxConfig :=
  {| autoIncrement :=
       {| integerType := lit "INTEGER"; syntax := lit "SERIAL PRIMARY KEY" |};
     dataTypes :=
       {| serial := lit "SERIAL";
          text := lit "TEXT";
          integer := lit "INTEGER";
          boolean := lit "BOOLEAN";
          timestamp := lit "TIMESTAMP";
          decimal := lit "DECIMAL";
          varchar := varcharN |};
     constraints := standardConstraints;
     functions := {| now := lit "NOW()"; uuid := lit "gen_random_uuid()" |} |}.

Definition mysql : DatabaseSyntaxConfig :=
  {| autoIncrement :=
       {| integerType := lit "INT";
          syntax := lit "INT AUTO_INCREMENT PRIMARY KEY" |};
     dataTypes :=
       {| serial := lit "INT AUTO_INCREMENT";
          text := lit "TEXT";
          integer := lit "INT";
          boolean := lit "BOOLEAN";
          timestamp := lit "TIMESTAMP";
          decimal := lit "DECIMAL";
          varchar := varcharN |};
     constraints := standardConstraints;
     functions := {| now := lit "NOW()"; uuid := lit "UUID()" |} |}.

Definition sqlite : DatabaseSyntaxConfig :=
  {| autoIncrement :=
       {| integerType := lit "INTEGER";
          syntax := lit "INTEGER PRIMARY KEY AUTOINCREMENT" |};
     dataTypes :=
       {| serial := lit "INTEGER PRIMARY KEY AUTOINCREMENT";
          text := lit "TEXT";
          integer := lit "INTEGER";
          boolean := lit "INTEGER";
          timestamp := lit "TEXT";
          decimal := lit "REAL";
          varchar := fun _ => lit "TEXT" |};
     constraints := standardConstraints;
     functions :=
       {| now := lit "datetime('now')";
          uuid := lit "lower(hex(randomblob(16)))" |} |}.

Definition supabase : DatabaseSyntaxConfig :=
  {| autoIncrement :=
       {| integerType := lit "INTEGER"; syntax := lit "SERIAL PRIMARY KEY" |};
     dataTypes :=
       {| serial := lit "SERIAL";
          text := lit "TEXT";
          integer := lit "INTEGER";
          boolean := lit "BOOLEAN";
          timestamp := lit "TIMESTAMP WITH TIME ZONE";
          decimal := lit "DECIMAL";
          varchar := varcharN |};
     constraints := standardConstraints;
     functions := {| now := lit "NOW()"; uuid := lit "gen_random_uuid()" |} |}.

(** The entries [planetscale] and [mysql-local] repeat [mysql] and the
    entry [postgres-local] repeats [postgresql], value for value. *)
Definition DATABASE_SYNTAX : list (str * DatabaseSyntaxConfig) :=
  [ (lit "postgresql", postgresql);
    (lit "mysql", mysql);
    (lit "sqlite", sqlite);
    (lit "supabase", supabase);
    (lit "planetscale", mysql);
    (lit "postgres-local", postgresql);
    (lit "mysql-local", mysql) ].

(** What [getSyntaxConfig] hands out: a configuration of the table, or a
    built-in that the table inherits, on which [autoIncrement], [dataTypes]
    and [constraints] are [undefined]. *)
Inductive ConfigValue : Type :=
  | IsConfig (c : DatabaseSyntaxConfig)
  | BuiltIn.

(** [config.group.leaf]: reading [leaf] of [undefined] raises. *)
Definition read {A : Type} (config : ConfigValue)
           (path : DatabaseSyntaxConfig -> A) : result A :=
  match config with
  | IsConfig c => Ok (path c)
  | BuiltIn => Throw TypeError
  end.

Definition getSyntaxConfig (provider : str) : ConfigValue :=
  match getProp DATABASE_SYNTAX provider with
  | Own config => IsConfig config
  | Inherited => BuiltIn
  | Missing => IsConfig postgresql   (* [if (!config)], after the warning *)
  end.

(** [keyof DatabaseSyntaxConfig['dataTypes']] *)
Inductive DataTypeKey : Type :=
  | KSerial | KText | KInteger | KBoolean | KTimestamp | KDecimal | KVarchar.

(** [config.dataTypes[key]] when [typeof] of it is ['string']. *)
Definition dataTypeString (d : DataTypes) (k : DataTypeKey) : option str :=
  match k with
  | KSerial => Some (serial d)
  | KText => Some (text d)
  | KInteger => Some (integer d)
  | KBoolean => Some (boolean d)
  | KTimestamp => Some (timestamp d)
  | KDecimal => Some (decimal d)
  | KVarchar => None
  end.

Definition typeMap : list (str * DataTypeKey) :=
  [ (lit "text", KText);
    (lit "string", KText);
    (lit "int", KInteger);
    (lit "int8", KInteger);
    (lit "integer", KInteger);
    (lit "bool", KBoolean);
    (lit "boolean", KBoolean);
    (lit "timestamp", KTimestamp);
    (lit "datetime", KTimestamp);
    (lit "decimal", KDecimal);
    (lit "numeric", KDecimal) ].

(** [/varchar\((\d+)\)/] *)
Definition varcharRegex : Regex.t :=
  Regex.text "varchar" ++
  [ Regex.chr "("; Regex.Group (Regex.plus JS.isDigit); Regex.chr ")" ].

(** [mapDataType(genericType, provider, options)]; [length] is
    [options?.length]. *)
Definition mapDataType (genericType provider : str)
           (length : option JS.number) : result str :=
  let config := getSyntaxConfig provider in
  let lowerType := JS.toLowerCase genericType in
  if JS.eqb lowerType (lit "serial")
     || (JS.eqb lowerType (lit "integer")
         && match length with
            | Some (JS.Int n) => (n =? -1)%Z
            | _ => false
            end)
  then read config (fun c => serial (dataTypes c))
  else if JS.startsWith (lit "varchar") lowerType then
    let lengthMatch := Regex.exec varcharRegex lowerType in
    let length :=
      match lengthMatch with
      | Some lengthMatch => Some (JS.parseInt (Regex.capture lengthMatch 1))
      | None => length
      end in
    read config (fun c => varchar (dataTypes c) length)
  else
    match getProp typeMap lowerType with
    | Own mappedType =>
        d <- read config dataTypes ;;
        match dataTypeString d mappedType with
        | Some s => Ok s
        | None => Ok (JS.toUpperCase genericType)
        end
    | Inherited =>
        (* [config.dataTypes[mappedType]] is read and is [undefined] *)
        _ <- read config dataTypes ;;
        Ok (JS.toUpperCase genericType)
    | Missing => Ok (JS.toUpperCase genericType)
    end.

End SQLSyntaxMapper.

(** ** schemaParser.ts: the data model *)

Module ForeignKey.
Record t : Type := { table : str; column : str }.
  End ForeignKey.

Module TableField.
Record t : Type := {
    name : str;
    type : str;
    nullable : bool;
    primaryKey : bool;
    foreignKey : option ForeignKey.t;
    defaultValue : option str
  }.

(** [field.foreignKey = fk], the one assignment to a field after it is
    built. *)
Definition setForeignKey (fk : ForeignKey.t) (f : t) : t :=
    {| name := name f;
       type := type f;
       nullable := nullable f;
       primaryKey := primaryKey f;
       foreignKey := Some fk;
       defaultValue := defaultValue f |}.
  End TableField.

Module TableSchema.
Record t : Type := { name : str; fields : list TableField.t }.
  End TableSchema.

Module SchemaRelationship.
Record t : Type := {
    fromTable : str;
    fromField : str;
    toTable : str;
    toField : str
  }.
  End SchemaRelationship.

Module ParsedSchema.
Record t : Type := {
    tables : list TableSchema.t;
    relationships : list SchemaRelationship.t
  }.
  End ParsedSchema.

(** ** schemaParser.ts: [SchemaParser] *)

Module SchemaParser.

(** [/--.*$/gm] *)
Definition commentRegex : Regex.t :=
  Regex.text "--" ++ [ Regex.star Regex.dot; Regex.EndOfLine ].

(** [/\s+/g] and [/\s+/] *)
Definition spacesRegex : Regex.t := [ Regex.plus JS.isSpace ].

(** [sql.replace(/--.*$/gm, '').replace(/\s+/g, ' ').trim()] *)
Definition cleanSQL (sql : str) : str :=
  JS.trim
    (Regex.replaceAll spacesRegex (lit " ") 0
       (Regex.replaceAll commentRegex [] 0 sql)).

(** [/CREATE\s+TABLE\s+(\w+)\s*\((.*?)\);/gi] *)
Definition createTableRegex : Regex.t :=
  Regex.textI "CREATE" ++
  [ Regex.plus JS.isSpace ] ++
  Regex.textI "TABLE" ++
  [ Regex.plus JS.isSpace;
    Regex.Group (Regex.plus JS.isWord);
    Regex.star JS.isSpace;
    Regex.chr "(";
    Regex.Group (Regex.starLazy Regex.dot);
    Regex.chr ")";
    Regex.chr ";" ].

Definition typeMap : list (str * str) :=
  [ (lit "SERIAL", lit "int8");
    (lit "BIGSERIAL", lit "int8");
    (lit "INTEGER", lit "int8");
    (lit "INT", lit "int8");
    (lit "BIGINT", lit "int8");
    (lit "VARCHAR", lit "text");
    (lit "CHAR", lit "text");
    (lit "TEXT", lit "text");
    (lit "BOOLEAN", lit "boolean");
    (lit "BOOL", lit "boolean");
    (lit "TIMESTAMP", lit "timestamp");
    (lit "TIMESTAMPTZ", lit "timestamp");
    (lit "DATE", lit "timestamp");
    (lit "TIME", lit "timestamp");
    (lit "DECIMAL", lit "numeric");
    (lit "NUMERIC", lit "numeric");
    (lit "REAL", lit "numeric");
    (lit "DOUBLE", lit "numeric");
    (lit "FLOAT", lit "numeric");
    (lit "UUID", lit "uuid");
    (lit "JSON", lit "json");
    (lit "JSONB", lit "json") ].

(** [typeMap[baseType] || 'text'].  An inherited built-in would be returned
    as it is, and is not a string. *)
Definition normalizeType (type : str) : result str :=
  let baseType := JS.beforeFirst "("%char type in
  match getProp typeMap baseType with
  | Own t => if JS.truthy t then Ok t else Ok (lit "text")
  | Inherited => Throw NotAString
  | Missing => Ok (lit "text")
  end.

(** [/REFERENCES\s+(\w+)\s*\(\s*(\w+)\s*\)/] *)
Definition referencesRegex : Regex.t :=
  Regex.text "REFERENCES" ++
  [ Regex.plus JS.isSpace;
    Regex.Group (Regex.plus JS.isWord);
    Regex.star JS.isSpace;
    Regex.chr "(";
    Regex.star JS.isSpace;
    Regex.Group (Regex.plus JS.isWord);
    Regex.star JS.isSpace;
    Regex.chr ")" ].

(** [[^,\s]] *)
Definition isDefaultTokenChar (c : ascii) : bool :=
  negb (Ascii.eqb c ","%char) && negb (JS.isSpace c).

(** [/DEFAULT\s+([^,\s]+)/] *)
Definition defaultRegex : Regex.t :=
  Regex.text "DEFAULT" ++
  [ Regex.plus JS.isSpace; Regex.Group (Regex.plus isDefaultTokenChar) ].

(** [x.toUpperCase()] and the like: a method of [undefined] raises. *)
Definition defined (x : option str) : result str :=
  match x with
  | Some p => Ok p
  | None => Throw TypeError
  end.

(** The block "Check for foreign key references". *)
Definition referencesOf (upperDef : str) : result (option ForeignKey.t) :=
  match Regex.exec referencesRegex upperDef with
  | Some referencesMatch =>
      table <- defined (Regex.capture referencesMatch 1) ;;
      column <- defined (Regex.capture referencesMatch 2) ;;
      Ok (Some {| ForeignKey.table := JS.toLowerCase table;
                  ForeignKey.column := JS.toLowerCase column |})
  | None => Ok None
  end.

(** The block "Check for default values". *)
Definition defaultOf (upperDef : str) : option str :=
  match Regex.exec defaultRegex upperDef with
  | Some defaultMatch => Regex.capture defaultMatch 1
  | None => None
  end.

Definition parseColumnDefinition (columnDef : str)
  : result (option TableField.t) :=
  if JS.startsWith (lit "CONSTRAINT") (JS.toUpperCase columnDef)
     || JS.startsWith (lit "PRIMARY KEY") (JS.toUpperCase columnDef)
     || JS.startsWith (lit "FOREIGN KEY") (JS.toUpperCase columnDef)
  then Ok None
  else
    let parts := Regex.split spacesRegex columnDef in
    if List.length parts <? 2 then Ok None
    else
      p0 <- defined (nth_error parts 0) ;;
      let name := JS.toLowerCase p0 in
      p1 <- defined (nth_error parts 1) ;;
      type <- normalizeType (JS.toUpperCase p1) ;;
      let upperDef := JS.toUpperCase columnDef in
      let nullable :=
        if JS.includes (lit "NOT NULL") upperDef then false else true in
      let primaryKey :=
        if JS.includes (lit "PRIMARY KEY") upperDef then true else false in
      let serial :=
        JS.eqb type (lit "SERIAL") || JS.eqb type (lit "BIGSERIAL") in
      let primaryKey := if serial then true else primaryKey in
      let nullable := if serial then false else nullable in
      foreignKey <- referencesOf upperDef ;;
      let defaultValue := defaultOf upperDef in
      Ok (Some {| TableField.name := name;
                  TableField.type := type;
                  TableField.nullable := nullable;
                  TableField.primaryKey := primaryKey;
                  TableField.foreignKey := foreignKey;
                  TableField.defaultValue := defaultValue |}).

(** The loop of [splitColumnDefinitions] over the characters that remain. *)
Fixpoint splitLoop (rest current : str) (parenCount : Z) (columns : list str)
  : list str :=
  match rest with
  | [] =>
      if JS.truthy (JS.trim current) then columns ++ [JS.trim current]
      else columns
  | char :: rest' =>
      if Ascii.eqb char "("%char then
        splitLoop rest' (current ++ [char]) (parenCount + 1)%Z columns
      else if Ascii.eqb char ")"%char then
        splitLoop rest' (current ++ [char]) (parenCount - 1)%Z columns
      else if Ascii.eqb char ","%char && (parenCount =? 0)%Z then
        if JS.truthy (JS.trim current) then
          splitLoop rest' [] parenCount (columns ++ [JS.trim current])
        else splitLoop rest' (current ++ [char]) parenCount columns
      else splitLoop rest' (current ++ [char]) parenCount columns
  end.

Definition splitColumnDefinitions (columnDefs : str) : list str :=
  splitLoop columnDefs [] 0%Z [].

(** An element of the [relationships] array of [parseColumnDefinitions]. *)
Record ColumnRelationship : Type := {
    fromField : str;
    toTable : str;
    toField : str
  }.

(** The loop [for (const column of columns)]. *)
Fixpoint columnsLoop (columns : list str) (fields : list TableField.t)
         (relationships : list ColumnRelationship)
  : result (list TableField.t * list ColumnRelationship) :=
  match columns with
  | [] => Ok (fields, relationships)
  | column :: columns' =>
      field <- parseColumnDefinition (JS.trim column) ;;
      match field with
      | Some field =>
          let relationships :=
            match TableField.foreignKey field with
            | Some fk =>
                relationships ++
                [ {| fromField := TableField.name field;
                     toTable := ForeignKey.table fk;
                     toField := ForeignKey.column fk |} ]
            | None => relationships
            end in
          columnsLoop columns' (fields ++ [field]) relationships
      | None => columnsLoop columns' fields relationships
      end
  end.

Definition parseColumnDefinitions (columnDefs : str)
  : result (list TableField.t * list ColumnRelationship) :=
  columnsLoop (splitColumnDefinitions columnDefs) [] [].

End SchemaParser.

(** ** schemaParser.ts: relationship inference and [parseSQL] *)

Module Inference.

Import SchemaParser.

Definition mkRelationship (fromTable fromField toTable toField : str)
  : SchemaRelationship.t :=
  {| SchemaRelationship.fromTable := fromTable;
     SchemaRelationship.fromField := fromField;
     SchemaRelationship.toTable := toTable;
     SchemaRelationship.toField := toField |}.

(** The two maps built by the first [tables.forEach]. *)
Record Maps : Type := {
    tableMap : list (str * str);
    tableNameVariations : list (str * list str)
  }.

Definition variationsOf (name : str) : list str :=
  [ name;
    JS.sliceInit name;
    name ++ lit "_id";
    JS.sliceInit name ++ lit "_id" ].

Definition registerTable (m : Maps) (table : TableSchema.t) : Maps :=
  match find TableField.primaryKey (TableSchema.fields table) with
  | Some pkField =>
      {| tableMap :=
           mapSet (TableSchema.name table) (TableField.name pkField)
                  (tableMap m);
         tableNameVariations :=
           mapSet (TableSchema.name table)
                  (variationsOf (TableSchema.name table))
                  (tableNameVariations m) |}
  | None => m
  end.

Definition buildMaps (tables : list TableSchema.t) : Maps :=
  fold_left registerTable tables
            {| tableMap := []; tableNameVariations := [] |}.

Definition sameEdge (fromTable fromField toTable : str)
           (rel : SchemaRelationship.t) : bool :=
  JS.eqb (SchemaRelationship.fromTable rel) fromTable
  && JS.eqb (SchemaRelationship.fromField rel) fromField
  && JS.eqb (SchemaRelationship.toTable rel) toTable.

(** The loop [for (const [tableName, variations] of tableNameVariations)]
    with its [break]: the field as it is left, and the relationships. *)
Fixpoint findTarget (entries : list (str * list str)) (tableMap : list (str * str))
         (fromTable : str) (field : TableField.t) (potentialTableName : str)
         (relationships : list SchemaRelationship.t)
  : TableField.t * list SchemaRelationship.t :=
  match entries with
  | [] => (field, relationships)
  | (tableName, variations) :: entries' =>
      if existsb
           (fun variation =>
              JS.eqb variation potentialTableName
              || JS.eqb variation (potentialTableName ++ lit "s")
              || JS.eqb variation (TableField.name field))
           variations
      then
        match mapGet tableName tableMap with
        | Some pkField =>
            if JS.truthy pkField then
              match find (sameEdge fromTable (TableField.name field) tableName)
                         relationships with
              | Some _ => (field, relationships)
              | None =>
                  (TableField.setForeignKey
                     {| ForeignKey.table := tableName;
                        ForeignKey.column := pkField |} field,
                   relationships ++
                   [mkRelationship fromTable (TableField.name field)
                                   tableName pkField])
              end
            else
              findTarget entries' tableMap fromTable field
                         potentialTableName relationships
        | None =>
            findTarget entries' tableMap fromTable field
                       potentialTableName relationships
        end
      else
        findTarget entries' tableMap fromTable field
                   potentialTableName relationships
  end.

(** The body of [fromTable.fields.forEach(field => ...)]. *)
Definition visitField (m : Maps) (fromTable : str) (field : TableField.t)
           (relationships : list SchemaRelationship.t)
  : TableField.t * list SchemaRelationship.t :=
  match TableField.foreignKey field with
  | Some _ => (field, relationships)
  | None =>
      if JS.endsWith (lit "_id") (TableField.name field)
         && negb (TableField.primaryKey field)
      then
        let potentialTableName :=
          JS.replaceFirst (lit "_id") [] (TableField.name field) in
        findTarget (tableNameVariations m) (tableMap m) fromTable field
                   potentialTableName relationships
      else (field, relationships)
  end.

Fixpoint visitFields (m : Maps) (fromTable : str) (fields : list TableField.t)
         (relationships : list SchemaRelationship.t)
  : list TableField.t * list SchemaRelationship.t :=
  match fields with
  | [] => ([], relationships)
  | field :: fields' =>
      let '(field1, relationships1) :=
        visitField m fromTable field relationships in
      let '(fields1, relationships2) :=
        visitFields m fromTable fields' relationships1 in
      (field1 :: fields1, relationships2)
  end.

Fixpoint visitTables (m : Maps) (tables : list TableSchema.t)
         (relationships : list SchemaRelationship.t)
  : list TableSchema.t * list SchemaRelationship.t :=
  match tables with
  | [] => ([], relationships)
  | table :: tables' =>
      let '(fields1, relationships1) :=
        visitFields m (TableSchema.name table) (TableSchema.fields table)
                    relationships in
      let '(tables1, relationships2) :=
        visitTables m tables' relationships1 in
      ({| TableSchema.name := TableSchema.name table;
          TableSchema.fields := fields1 |} :: tables1,
       relationships2)
  end.

(** [detectImplicitRelationships(tables, relationships)] works in place on
    the two arrays; here it returns them as it leaves them.  The maps are
    built from names and [primaryKey] flags, which the second pass never
    writes. *)
Definition detectImplicitRelationships (tables : list TableSchema.t)
           (relationships : list SchemaRelationship.t)
  : list TableSchema.t * list SchemaRelationship.t :=
  visitTables (buildMaps tables) tables relationships.

(** The body of the [while] loop of [parseSQL], over the matches.
    [splitColumnDefinitions] reads [columnDefs.length] first, which raises on
    [undefined]. *)
Fixpoint statementsLoop (matches : list (list str))
         (tables : list TableSchema.t)
         (relationships : list SchemaRelationship.t)
  : result (list TableSchema.t * list SchemaRelationship.t) :=
  match matches with
  | [] => Ok (tables, relationships)
  | match_ :: matches' =>
      m1 <- defined (Regex.capture match_ 1) ;;
      let tableName := JS.toLowerCase m1 in
      columnDefinitions <- defined (Regex.capture match_ 2) ;;
      columns <- parseColumnDefinitions columnDefinitions ;;
      let table :=
        {| TableSchema.name := tableName; TableSchema.fields := fst columns |} in
      let relationships :=
        relationships ++
        map (fun rel => mkRelationship tableName (fromField rel)
                                       (toTable rel) (toField rel))
            (snd columns) in
      statementsLoop matches' (tables ++ [table]) relationships
  end.

(** [parseSQL] once the text is cleaned. *)
Definition parseClean (cleanSQL : str) : result ParsedSchema.t :=
  parsed <- statementsLoop (Regex.execAll createTableRegex 0 cleanSQL) [] [] ;;
  let '(tables, relationships) :=
    detectImplicitRelationships (fst parsed) (snd parsed) in
  Ok {| ParsedSchema.tables := tables;
        ParsedSchema.relationships := relationships |}.

Definition parseSQL (sql : str) : result ParsedSchema.t :=
  parseClean (cleanSQL sql).

End Inference.

(** ** diagramService.ts: [DiagramService] *)

Module DiagramField.
Record t : Type := {
    name : str;
    type : str;
    isPrimaryKey : bool;
    isForeignKey : bool;
    nullable : bool
  }.
  End DiagramField.

Module DiagramTable.
Record t : Type := {
    id : str;
    name : str;
    fields : list DiagramField.t;
    position : Z * Z;
    incoming : nat;
    outgoing : nat
  }.
  End DiagramTable.

Module DiagramRelationship.
Record t : Type := {
    id : str;
    fromTable : str;
    fromField : str;
    toTable : str;
    toField : str
  }.
  End DiagramRelationship.

Module DiagramData.
Record t : Type := {
    tables : list DiagramTable.t;
    relationships : list DiagramRelationship.t
  }.
  End DiagramData.

Module DiagramService.

Definition nl : ascii := "010"%char.

(** [Math.ceil(Math.sqrt(n))] on a count. *)
Definition ceilSqrt (n : Z) : Z :=
  if (Z.sqrt n * Z.sqrt n =? n)%Z then Z.sqrt n else (Z.sqrt n + 1)%Z.

(** [calculateTablePosition(index, totalTables)]; it is only called with
    [totalTables >= 1]. *)
Definition calculateTablePosition (index totalTables : Z) : Z * Z :=
  let spacing := 400%Z in
  let maxCols := Z.min 4 totalTables in
  let cols := ceilSqrt totalTables in
  let actualCols := Z.min maxCols cols in
  let col := (index mod actualCols)%Z in
  let row := (index / actualCols)%Z in
  ((150 + col * spacing)%Z, (150 + row * spacing)%Z).

Definition convertField (field : TableField.t) : DiagramField.t :=
  {| DiagramField.name := TableField.name field;
     DiagramField.type := TableField.type field;
     DiagramField.isPrimaryKey := TableField.primaryKey field;
     DiagramField.isForeignKey :=
       match TableField.foreignKey field with Some _ => true | None => false end;
     DiagramField.nullable := TableField.nullable field |}.

Definition convertRelationship (rel : SchemaRelationship.t)
  : DiagramRelationship.t :=
  {| DiagramRelationship.id :=
       SchemaRelationship.fromTable rel ++ lit "_" ++
       SchemaRelationship.fromField rel ++ lit "_" ++
       SchemaRelationship.toTable rel ++ lit "_" ++
       SchemaRelationship.toField rel;
     DiagramRelationship.fromTable := SchemaRelationship.fromTable rel;
     DiagramRelationship.fromField := SchemaRelationship.fromField rel;
     DiagramRelationship.toTable := SchemaRelationship.toTable rel;
     DiagramRelationship.toField := SchemaRelationship.toField rel |}.

Fixpoint convertTables (current : DiagramData.t) (preservePositions : bool)
         (relationships : list SchemaRelationship.t) (total : nat)
         (index : nat) (tables : list TableSchema.t) : list DiagramTable.t :=
  match tables with
  | [] => []
  | table :: tables' =>
      let existingTable :=
        find (fun t => JS.eqb (DiagramTable.name t) (TableSchema.name table))
             (DiagramData.tables current) in
      {| DiagramTable.id := TableSchema.name table;
         DiagramTable.name := TableSchema.name table;
         DiagramTable.fields := map convertField (TableSchema.fields table);
         DiagramTable.position :=
           match preservePositions, existingTable with
           | true, Some t => DiagramTable.position t
           | _, _ => calculateTablePosition (Z.of_nat index) (Z.of_nat total)
           end;
         DiagramTable.incoming :=
           List.length
             (filter (fun rel => JS.eqb (SchemaRelationship.toTable rel)
                                        (TableSchema.name table))
                     relationships);
         DiagramTable.outgoing :=
           List.length
             (filter (fun rel => JS.eqb (SchemaRelationship.fromTable rel)
                                        (TableSchema.name table))
                     relationships) |}
      :: convertTables current preservePositions relationships total
                       (S index) tables'
  end.

(** [updateFromSchema(tables, relationships, preservePositions)]: the new
    value of [this.diagramData], from its current value. *)
Definition updateFromSchema (current : DiagramData.t)
           (tables : list TableSchema.t)
           (relationships : list SchemaRelationship.t)
           (preservePositions : bool) : DiagramData.t :=
  {| DiagramData.tables :=
       convertTables current preservePositions relationships
                     (List.length tables) 0 tables;
     DiagramData.relationships := map convertRelationship relationships |}.

Definition empty : DiagramData.t :=
  {| DiagramData.tables := []; DiagramData.relationships := [] |}.

Definition isIntegerLike (type : str) : bool :=
  JS.eqb (JS.toLowerCase type) (lit "int8")
  || JS.eqb (JS.toLowerCase type) (lit "integer")
  || JS.eqb (JS.toLowerCase type) (lit "serial").

(** The function mapped over [table.fields] in [exportSchemaAsSQL]. *)
Definition fieldDefinition (diagramData : DiagramData.t) (provider : str)
           (syntaxConfig : SQLSyntaxMapper.ConfigValue)
           (table : DiagramTable.t) (field : DiagramField.t) : result str :=
  let fieldDefinition := lit "    " ++ DiagramField.name field in
  fieldDefinition <-
    (if DiagramField.isPrimaryKey field then
       if isIntegerLike (DiagramField.type field) then
         s <- SQLSyntaxMapper.read syntaxConfig
                (fun c => SQLSyntaxMapper.syntax (SQLSyntaxMapper.autoIncrement c)) ;;
         Ok (fieldDefinition ++ lit " " ++ s)
       else
         mappedType <- SQLSyntaxMapper.mapDataType
                         (DiagramField.type field) provider None ;;
         pk <- SQLSyntaxMapper.read syntaxConfig
                 (fun c => SQLSyntaxMapper.primaryKey (SQLSyntaxMapper.constraints c)) ;;
         Ok (fieldDefinition ++ lit " " ++ mappedType ++ lit " " ++ pk)
     else
       mappedType <- SQLSyntaxMapper.mapDataType
                       (DiagramField.type field) provider None ;;
       Ok (fieldDefinition ++ lit " " ++ mappedType)) ;;
  fieldDefinition <-
    (if negb (DiagramField.nullable field)
        && negb (DiagramField.isPrimaryKey field)
     then
       nn <- SQLSyntaxMapper.read syntaxConfig
               (fun c => SQLSyntaxMapper.notNull (SQLSyntaxMapper.constraints c)) ;;
       Ok (fieldDefinition ++ lit " " ++ nn)
     else Ok fieldDefinition) ;;
  let relationship :=
    find (fun rel =>
            JS.eqb (DiagramRelationship.fromTable rel) (DiagramTable.name table)
            && JS.eqb (DiagramRelationship.fromField rel) (DiagramField.name field))
         (DiagramData.relationships diagramData) in
  match relationship with
  | Some relationship =>
      fk <- SQLSyntaxMapper.read syntaxConfig
              (fun c => SQLSyntaxMapper.foreignKey (SQLSyntaxMapper.constraints c)) ;;
      Ok (fieldDefinition ++ lit " " ++
          fk (DiagramRelationship.toTable relationship)
             (DiagramRelationship.toField relationship))
  | None => Ok fieldDefinition
  end.

Definition createStatement (diagramData : DiagramData.t) (provider : str)
           (syntaxConfig : SQLSyntaxMapper.ConfigValue)
           (table : DiagramTable.t) : result str :=
  fields <- mapM (fieldDefinition diagramData provider syntaxConfig table)
                 (DiagramTable.fields table) ;;
  Ok (lit "CREATE TABLE IF NOT EXISTS " ++ DiagramTable.name table ++
      lit " (" ++ [nl] ++ JS.join (lit "," ++ [nl]) fields ++ [nl] ++ lit ");").

Definition exportSchemaAsSQL (diagramData : DiagramData.t) (provider : str)
  : result str :=
  if List.length (DiagramData.tables diagramData) =? 0 then Ok []
  else
    let syntaxConfig := SQLSyntaxMapper.getSyntaxConfig provider in
    sqlStatements <- mapM (createStatement diagramData provider syntaxConfig)
                          (DiagramData.tables diagramData) ;;
    Ok (JS.join [nl; nl] sqlStatements).

(** *** The methods that edit and read the diagram

    Each takes the current value of [this.diagramData] and, when it writes,
    returns the new one. *)

(** [getTableData(tableName)]; [null] is [None]. *)
Definition getTableData (diagramData : DiagramData.t) (tableName : str)
  : option DiagramTable.t :=
  find (fun table => JS.eqb (DiagramTable.name table) tableName)
       (DiagramData.tables diagramData).

Definition getTableCount (diagramData : DiagramData.t) : nat :=
  List.length (DiagramData.tables diagramData).

Definition getRelationshipCount (diagramData : DiagramData.t) : nat :=
  List.length (DiagramData.relationships diagramData).

(** [tables.reduce((total, table) => total + table.fields.length, 0)] *)
Definition getFieldCount (diagramData : DiagramData.t) : nat :=
  fold_left (fun total table => total + List.length (DiagramTable.fields table))
            (DiagramData.tables diagramData) 0.

(** [array.findIndex(p)]; [-1] is [None]. *)
Fixpoint findIndex {A : Type} (p : A -> bool) (l : list A) : option nat :=
  match l with
  | [] => None
  | x :: l' => if p x then Some 0 else option_map S (findIndex p l')
  end.

(** [array[i] = x] at an index of the array. *)
Fixpoint setAt {A : Type} (i : nat) (x : A) (l : list A) : list A :=
  match l, i with
  | [], _ => []
  | _ :: l', O => x :: l'
  | y :: l', S i' => y :: setAt i' x l'
  end.

(** [addTable(table)].  In the branch that replaces a table, the position
    is read from [tables[existingIndex]], which raises when there is no such
    element. *)
Definition addTable (diagramData : DiagramData.t) (table : TableSchema.t)
  : result DiagramData.t :=
  let tables := DiagramData.tables diagramData in
  let existingIndex :=
    findIndex (fun t => JS.eqb (DiagramTable.name t) (TableSchema.name table))
              tables in
  let newTable (position : Z * Z) : DiagramTable.t :=
    {| DiagramTable.id := TableSchema.name table;
       DiagramTable.name := TableSchema.name table;
       DiagramTable.fields := map convertField (TableSchema.fields table);
       DiagramTable.position := position;
       DiagramTable.incoming := 0;
       DiagramTable.outgoing := 0 |} in
  match existingIndex with
  | Some existingIndex =>
      match nth_error tables existingIndex with
      | Some existing =>
          Ok {| DiagramData.tables :=
                  setAt existingIndex
                        (newTable (DiagramTable.position existing)) tables;
                DiagramData.relationships :=
                  DiagramData.relationships diagramData |}
      | None => Throw TypeError
      end
  | None =>
      Ok {| DiagramData.tables :=
              tables ++
              [ newTable
                  (calculateTablePosition
                     (Z.of_nat (List.length tables))
                     (Z.of_nat (List.length tables) + 1)%Z) ];
            DiagramData.relationships :=
              DiagramData.relationships diagramData |}
  end.

(** [removeTable(tableName)] *)
Definition removeTable (diagramData : DiagramData.t) (tableName : str)
  : DiagramData.t :=
  {| DiagramData.tables :=
       filter (fun table => negb (JS.eqb (DiagramTable.name table) tableName))
              (DiagramData.tables diagramData);
     DiagramData.relationships :=
       filter (fun rel =>
                 negb (JS.eqb (DiagramRelationship.fromTable rel) tableName)
                 && negb (JS.eqb (DiagramRelationship.toTable rel) tableName))
              (DiagramData.relationships diagramData) |}.

(** [table.position = position] on the table that [find] returns, which is
    an element of the array: the first one with that name. *)
Fixpoint moveFirst (tableName : str) (position : Z * Z)
         (tables : list DiagramTable.t) : list DiagramTable.t :=
  match tables with
  | [] => []
  | table :: tables' =>
      if JS.eqb (DiagramTable.name table) tableName then
        {| DiagramTable.id := DiagramTable.id table;
           DiagramTable.name := DiagramTable.name table;
           DiagramTable.fields := DiagramTable.fields table;
           DiagramTable.position := position;
           DiagramTable.incoming := DiagramTable.incoming table;
           DiagramTable.outgoing := DiagramTable.outgoing table |} :: tables'
      else table :: moveFirst tableName position tables'
  end.

(** [updateTablePosition(tableName, position)] *)
Definition updateTablePosition (diagramData : DiagramData.t) (tableName : str)
           (position : Z * Z) : DiagramData.t :=
  {| DiagramData.tables :=
       moveFirst tableName position (DiagramData.tables diagramData);
     DiagramData.relationships := DiagramData.relationships diagramData |}.

(** [clearDiagram()] *)
Definition clearDiagram (diagramData : DiagramData.t) : DiagramData.t :=
  {| DiagramData.tables := []; DiagramData.relationships := [] |}.

End DiagramService.

(** ** Inspector.tsx: saving an edited table *)

(** The fields of [EditField] that [handleSaveEdit] reads. *)
Module EditField.
Record t : Type := {
    name : str;
    type : str;
    isPrimaryKey : bool;
    nullable : bool
  }.
  End EditField.

(** The state [editingTable]. *)
Module EditingTable.
Record t : Type := { name : str; fields : list EditField.t }.
  End EditingTable.

Module Inspector.

Definition typeMap : list (str * str) :=
  [ (lit "int8", lit "SERIAL");
    (lit "text", lit "TEXT");
    (lit "boolean", lit "BOOLEAN");
    (lit "numeric", lit "NUMERIC");
    (lit "timestamp", lit "TIMESTAMP");
    (lit "uuid", lit "UUID");
    (lit "json", lit "JSON") ].

(** The function mapped over [editingTable.fields] in [handleSaveEdit].
    With an inherited built-in for [typeMap[field.type]] the text goes on
    with the source text of that built-in, which the embedding does not
    follow. *)
Definition fieldSQL (field : EditField.t) : result str :=
  let sql := lit "    " ++ EditField.name field ++ lit " " in
  sql <-
    match getProp typeMap (EditField.type field) with
    | Own t => Ok (sql ++ (if JS.truthy t then t else lit "TEXT"))
    | Inherited => Throw NotAString
    | Missing => Ok (sql ++ lit "TEXT")
    end ;;
  let sql :=
    if EditField.isPrimaryKey field then sql ++ lit " PRIMARY KEY" else sql in
  let sql :=
    if negb (EditField.nullable field) && negb (EditField.isPrimaryKey field)
    then sql ++ lit " NOT NULL" else sql in
  Ok sql.

(** The text [newSQL] of [handleSaveEdit]. *)
Definition newSQL (editingTable : EditingTable.t) : result str :=
  sqlFields <- mapM fieldSQL (EditingTable.fields editingTable) ;;
  Ok (lit "CREATE TABLE " ++ EditingTable.name editingTable ++ lit " (" ++
      [DiagramService.nl] ++
      JS.join (lit "," ++ [DiagramService.nl]) sqlFields ++
      [DiagramService.nl] ++ lit ");").

(** [handleSaveEdit], when a table is selected and being edited: the new
    value of the diagram.  [selectedTable] is [selectedTable.name]. *)
Definition handleSaveEdit (diagramData : DiagramData.t) (selectedTable : str)
           (editingTable : EditingTable.t) : result DiagramData.t :=
  newSQL <- newSQL editingTable ;;
  parsedSchema <- Inference.parseSQL newSQL ;;
  if 0 <? List.length (ParsedSchema.tables parsedSchema) then
    Ok (DiagramService.updateFromSchema
          (DiagramService.removeTable diagramData selectedTable)
          (ParsedSchema.tables parsedSchema)
          (ParsedSchema.relationships parsedSchema) false)
  else Ok diagramData.

End Inspector.

(** ** AdvancedBuilder.tsx: adding a table *)

(** The fields of [Field] that [generateSQL] reads; [nullable] and
    [primaryKey] are optional and [undefined] counts as [false]. *)
Module BuilderField.
Record t : Type := {
    name : str;
    type : str;
    nullable : bool;
    primaryKey : bool
  }.
  End BuilderField.

Module AdvancedBuilder.

(** The object [typeMap] of [generateSQL], built for each field. *)
Definition typeMap (field : BuilderField.t) : list (str * str) :=
  [ (lit "int8",
     if BuilderField.primaryKey field then lit "SERIAL" else lit "INTEGER");
    (lit "text", lit "TEXT");
    (lit "boolean", lit "BOOLEAN");
    (lit "numeric", lit "NUMERIC");
    (lit "timestamp",
     if JS.includes (lit "_at") (BuilderField.name field)
     then lit "TIMESTAMP DEFAULT NOW()" else lit "TIMESTAMP");
    (lit "uuid", lit "UUID") ].

(** The function mapped over [fields] in [generateSQL]. *)
Definition fieldSQL (field : BuilderField.t) : result str :=
  let sql := lit "    " ++ BuilderField.name field ++ lit " " in
  sql <-
    match getProp (typeMap field) (BuilderField.type field) with
    | Own t => Ok (sql ++ (if JS.truthy t then t else lit "TEXT"))
    | Inherited => Throw NotAString
    | Missing => Ok (sql ++ lit "TEXT")
    end ;;
  let sql :=
    if BuilderField.primaryKey field
       && negb (JS.eqb (BuilderField.type field) (lit "int8"))
    then sql ++ lit " PRIMARY KEY" else sql in
  let sql :=
    if negb (BuilderField.nullable field)
       && negb (BuilderField.primaryKey field)
       && negb (JS.includes (lit "_at") (BuilderField.name field))
    then sql ++ lit " NOT NULL" else sql in
  Ok sql.

(** [generateSQL()], from the state [tableName] and [fields]. *)
Definition generateSQL (tableName : str) (fields : list BuilderField.t)
  : result str :=
  if negb (JS.truthy tableName) || (List.length fields =? 0) then Ok []
  else
    sqlFields <- mapM fieldSQL fields ;;
    Ok (lit "CREATE TABLE " ++ tableName ++ lit " (" ++
        [DiagramService.nl] ++
        JS.join (lit "," ++ [DiagramService.nl]) sqlFields ++
        [DiagramService.nl] ++ lit ");").

(** [addToSchema()]: the new value of the diagram. *)
Definition addToSchema (diagramData : DiagramData.t) (tableName : str)
           (fields : list BuilderField.t) : result DiagramData.t :=
  if negb (JS.truthy tableName) || (List.length fields =? 0) then
    Ok diagramData
  else
    sql <- generateSQL tableName fields ;;
    parsedSchema <- Inference.parseSQL sql ;;
    match ParsedSchema.tables parsedSchema with
    | newTable :: _ => DiagramService.addTable diagramData newTable
    | [] => Ok diagramData
    end.

End AdvancedBuilder.

(** ** Notions used in the statements *)

Module Spec.

Import SchemaParser Inference.

(** The generator applied to a schema: the schema is loaded into an empty
    diagram with [updateFromSchema] and exported. *)
Definition generate (schema : ParsedSchema.t) (dialect : str) : result str :=
  DiagramService.exportSchemaAsSQL
    (DiagramService.updateFromSchema DiagramService.empty
       (ParsedSchema.tables schema) (ParsedSchema.relationships schema) false)
    dialect.

(** [generate(parse(generate(schema, dialect)), dialect)] *)
Definition roundTrip (schema : ParsedSchema.t) (dialect : str) : result str :=
  sql <- generate schema dialect ;;
  parsed <- parseSQL sql ;;
  generate parsed dialect.

Definition tableNames (schema : ParsedSchema.t) : list str :=
  map TableSchema.name (ParsedSchema.tables schema).

Definition allFields (schema : ParsedSchema.t) : list TableField.t :=
  flat_map TableSchema.fields (ParsedSchema.tables schema).

(** The relationship that a field with a [foreignKey] stands for. *)
Definition fkTuple (table : str) (f : TableField.t)
  : list SchemaRelationship.t :=
  match TableField.foreignKey f with
  | Some fk =>
      [mkRelationship table (TableField.name f)
                      (ForeignKey.table fk) (ForeignKey.column fk)]
  | None => []
  end.

Definition fkTuplesOf (table : str) (fields : list TableField.t)
  : list SchemaRelationship.t :=
  flat_map (fkTuple table) fields.

Definition fkTuples (tables : list TableSchema.t)
  : list SchemaRelationship.t :=
  flat_map (fun t => fkTuplesOf (TableSchema.name t) (TableSchema.fields t))
           tables.

(** The columns of a schema, each with the name of its table. *)
Definition columns (tables : list TableSchema.t)
  : list (str * TableField.t) :=
  flat_map (fun t => map (pair (TableSchema.name t)) (TableSchema.fields t))
           tables.

(** The columns of a schema, each as (table name, field name). *)
Definition columnKeys (tables : list TableSchema.t) : list (str * str) :=
  flat_map (fun t => map (fun f => (TableSchema.name t, TableField.name f))
                         (TableSchema.fields t))
           tables.

Definition relationship_eq_dec (a b : SchemaRelationship.t)
  : {a = b} + {a <> b}.
Proof.
  decide equality; apply (list_eq_dec ascii_dec).
Defined.

Definition occurrences (r : SchemaRelationship.t)
           (l : list SchemaRelationship.t) : nat :=
  count_occ relationship_eq_dec l r.

(** Every relationship is the foreign key of exactly one field, and every
    field with a foreign key is recorded by exactly one relationship. *)
Definition Consistent (schema : ParsedSchema.t) : Prop :=
  (forall r, In r (ParsedSchema.relationships schema) ->
             occurrences r (fkTuples (ParsedSchema.tables schema)) = 1)
  /\ (forall r, In r (fkTuples (ParsedSchema.tables schema)) ->
                occurrences r (ParsedSchema.relationships schema) = 1).

(** The raw type token of a column clause, upper-cased and without its
    parenthesised argument. *)
Definition rawBaseType (columnDef : str) : option str :=
  match nth_error (Regex.split spacesRegex columnDef) 1 with
  | Some p1 => Some (JS.beforeFirst "("%char (JS.toUpperCase p1))
  | None => None
  end.

Definition isSerialToken (columnDef : str) : bool :=
  match rawBaseType columnDef with
  | Some t => JS.eqb t (lit "SERIAL") || JS.eqb t (lit "BIGSERIAL")
  | None => false
  end.

(** The token that follows the letters [DEFAULT] at the start of [s]: the
    letters (read by [keyword]), white space, then the characters up to the
    next comma or white space. *)
Definition tokenAfterDefault (keyword : str -> str -> option str) (s : str)
  : option str :=
  match keyword (lit "DEFAULT") s with
  | None => None
  | Some r1 =>
  match JS.spaces1 r1 with
  | None => None
  | Some r2 =>
      match JS.takeWhile isDefaultTokenChar r2 with
      | [] => None
      | token => Some token
      end
  end end.

(** The token, as it is written in the clause, at the first place of the
    clause where the letters [DEFAULT] (in any case) are followed by white
    space and a token.  The letters need not be a word of their own: in
    [is_default INT DEFAULT 0] the first such place is the end of the name
    [is_default], and the token is [INT]. *)
Definition firstDefaultToken (columnDef : str) : option str :=
  JS.firstMatch (tokenAfterDefault JS.stripPrefixCI) columnDef.

(** The counter [parenCount] after the text [s], from the value [d]. *)
Fixpoint depthAfter (d : Z) (s : str) : Z :=
  match s with
  | [] => d
  | c :: r =>
      if Ascii.eqb c "("%char then depthAfter (d + 1)%Z r
      else if Ascii.eqb c ")"%char then depthAfter (d - 1)%Z r
      else depthAfter d r
  end.

(** No comma of [s] is met while the counter is 0. *)
Fixpoint commasInside (d : Z) (s : str) : bool :=
  match s with
  | [] => true
  | c :: r =>
      if Ascii.eqb c "("%char then commasInside (d + 1)%Z r
      else if Ascii.eqb c ")"%char then commasInside (d - 1)%Z r
      else if Ascii.eqb c ","%char then negb (d =? 0)%Z && commasInside d r
      else commasInside d r
  end.

(** One column or constraint definition of a body: not blank, its commas
    inside parentheses, its parentheses closed at its end. *)
Definition isDefinition (s : str) : bool :=
  JS.truthy (JS.trim s) && commasInside 0%Z s && (depthAfter 0%Z s =? 0)%Z.

(** The pattern of [parseSQL] matches at no position of [pre] in the text
    [pre ++ rest]. *)
Fixpoint noMatchStartsIn (pre rest : str) : bool :=
  match pre with
  | [] => true
  | _ :: pre' =>
      match Regex.matchAt createTableRegex (pre ++ rest) with
      | Some _ => false
      | None => noMatchStartsIn pre' rest
      end
  end.

Definition hasLower (s : str) : bool := existsb JS.isLower s.

(** The relationships that [parseColumnDefinitions] records for fields. *)
Definition columnRelationships (fields : list TableField.t)
  : list ColumnRelationship :=
  flat_map
    (fun f =>
       match TableField.foreignKey f with
       | Some fk =>
           [ {| fromField := TableField.name f;
                toTable := ForeignKey.table fk;
                toField := ForeignKey.column fk |} ]
       | None => []
       end)
    fields.

(** The field is what [parseColumnDefinition] builds from some clause. *)
Definition FromClause (f : TableField.t) : Prop :=
  exists columnDef, parseColumnDefinition columnDef = Ok (Some f).

(** A field of a parsed schema and the field first built from its clause
    differ at most by an inferred [foreignKey]. *)
Definition sameColumn (f0 f : TableField.t) : Prop :=
  TableField.name f = TableField.name f0
  /\ TableField.type f = TableField.type f0
  /\ TableField.nullable f = TableField.nullable f0
  /\ TableField.primaryKey f = TableField.primaryKey f0
  /\ TableField.defaultValue f = TableField.defaultValue f0.

(** The tables correspond, name for name and column for column. *)
Definition sameTable (t t' : TableSchema.t) : Prop :=
  TableSchema.name t' = TableSchema.name t
  /\ Forall2 sameColumn (TableSchema.fields t) (TableSchema.fields t').

(** What the pass does to one field: nothing, or a foreign key on a field
    that had none together with the relationship that records it. *)
Definition Inferred (fromTable : str) (f f' : TableField.t)
           (added : list SchemaRelationship.t) : Prop :=
  (f' = f /\ added = [])
  \/ (TableField.foreignKey f = None
      /\ exists tableName pkField,
          f' = TableField.setForeignKey
                 {| ForeignKey.table := tableName;
                    ForeignKey.column := pkField |} f
          /\ added = [mkRelationship fromTable (TableField.name f)
                                     tableName pkField]).

(** *** Notions of the further properties *)

(** The table named [tableName] has a primary key, and [pkField] is the name
    of its first primary-key field. *)
Definition PrimaryKeyOf (tables : list TableSchema.t) (tableName pkField : str)
  : Prop :=
  exists t pk,
    In t tables
    /\ TableSchema.name t = tableName
    /\ find TableField.primaryKey (TableSchema.fields t) = Some pk
    /\ TableField.name pk = pkField.

(** The column [fromTable.fromField] is one the inference pass looks at: it
    has no foreign key, is not a primary key and its name ends in [_id]. *)
Definition Candidate (tables : list TableSchema.t) (fromTable fromField : str)
  : Prop :=
  exists t f,
    In t tables
    /\ TableSchema.name t = fromTable
    /\ In f (TableSchema.fields t)
    /\ TableField.name f = fromField
    /\ TableField.foreignKey f = None
    /\ TableField.primaryKey f = false
    /\ JS.endsWith (lit "_id") (TableField.name f) = true.

Definition InferredLink (tables : list TableSchema.t)
           (r : SchemaRelationship.t) : Prop :=
  Candidate tables (SchemaRelationship.fromTable r)
            (SchemaRelationship.fromField r)
  /\ PrimaryKeyOf tables (SchemaRelationship.toTable r)
                  (SchemaRelationship.toField r).

(** The field [f'] is [f], or [f] with a foreign key it did not have, which
    one of the relationships [added] records. *)
Definition Completed (added : list SchemaRelationship.t) (fromTable : str)
           (f f' : TableField.t) : Prop :=
  f' = f
  \/ (TableField.foreignKey f = None
      /\ exists fk,
          f' = TableField.setForeignKey fk f
          /\ In (mkRelationship fromTable (TableField.name f)
                                (ForeignKey.table fk) (ForeignKey.column fk))
                added).

(** A natural number in decimal digits, as [String(n)] prints it. *)
Definition decimal (n : N) : str :=
  lit (NilEmpty.string_of_uint (N.to_uint n)).

(** One relationship added for a column of the table [fromTable] whose
    fields are [fields]. *)
Definition linkOf (m : Maps) (fromTable : str) (fields : list TableField.t)
           (r : SchemaRelationship.t) : Prop :=
  SchemaRelationship.fromTable r = fromTable
  /\ (exists f,
         In f fields
         /\ TableField.name f = SchemaRelationship.fromField r
         /\ TableField.foreignKey f = None
         /\ TableField.primaryKey f = false
         /\ JS.endsWith (lit "_id") (TableField.name f) = true)
  /\ mapGet (SchemaRelationship.toTable r) (tableMap m)
     = Some (SchemaRelationship.toField r).

(** The same, for the tables [tables]. *)
Definition linkIn (m : Maps) (tables : list TableSchema.t)
           (r : SchemaRelationship.t) : Prop :=
  Candidate tables (SchemaRelationship.fromTable r)
                 (SchemaRelationship.fromField r)
  /\ mapGet (SchemaRelationship.toTable r) (tableMap m)
     = Some (SchemaRelationship.toField r).

Definition completedTable (added : list SchemaRelationship.t)
           (t t' : TableSchema.t) : Prop :=
  TableSchema.name t' = TableSchema.name t
  /\ Forall2 (Completed added (TableSchema.name t))
             (TableSchema.fields t) (TableSchema.fields t').

(** A statement [CREATE TABLE name (body);]: the two keywords as they are
    written, the white space after each, the name, the white space before
    the parenthesis and the body. *)
Definition createTableStatement (create ws1 table ws2 name ws3 body : str)
  : str :=
  create ++ ws1 ++ table ++ ws2 ++ name ++ ws3 ++ lit "(" ++ body ++ lit ");".

(** No upper-case letter. *)
Definition isLowerCase (s : str) : bool :=
  forallb (fun c => negb (JS.isUpper c)) s.

(** The logical types of a parsed field. *)
Definition logicalTypes : list str :=
  map lit ["int8"; "text"; "boolean"; "timestamp"; "numeric"; "uuid";
           "json"]%string.

(** White space is made of single spaces: every white-space character of
    [s] is a space and no two of them are adjacent.  [afterSpace] tells that
    the character before [s] is a space. *)
Fixpoint singleSpaced (afterSpace : bool) (s : str) : bool :=
  match s with
  | [] => true
  | c :: r =>
      if JS.isSpace c then
        Ascii.eqb c " "%char && negb afterSpace && singleSpaced true r
      else singleSpaced false r
  end.

(** Every run of white space of [s] as one space, read character by
    character; [inSpaces] tells that a run is being read. *)
Fixpoint collapse (inSpaces : bool) (s : str) : str :=
  match s with
  | [] => []
  | c :: r =>
      if JS.isSpace c then
        if inSpaces then collapse true r else " "%char :: collapse true r
      else c :: collapse false r
  end.

(** A non-empty name of letters, digits and underscores. *)
Definition isIdentifier (s : str) : bool :=
  JS.truthy s && forallb JS.isWord s.

Definition noChar (c : ascii) (s : str) : bool :=
  forallb (fun x => negb (Ascii.eqb c x)) s.

(** The statement that the editors of the application build for a table: a
    column is given by its name and by the text that follows the name. *)
Definition columnLine (column : str * str) : str :=
  lit "    " ++ fst column ++ lit " " ++ snd column.

Definition tableText (name : str) (columns : list (str * str)) : str :=
  lit "CREATE TABLE " ++ name ++ lit " (" ++ [DiagramService.nl] ++
  JS.join (lit "," ++ [DiagramService.nl]) (map columnLine columns) ++
  [DiagramService.nl] ++ lit ");".

(** The clause of the column in the cleaned text. *)
Definition columnClause (column : str * str) : str :=
  fst column ++ lit " " ++ snd column.

(** The text after a column name is plain: not empty, white space made of
    single spaces with none at its ends, no [-] and no [;], commas inside
    closed parentheses only; it does not start with [KEY] or [NULL], and no
    [REFERENCES] clause can be read in it, also after a column called
    [references]. *)
Definition plainTail (tail : str) : bool :=
  let upperTail := JS.toUpperCase tail in
  JS.truthy tail
  && singleSpaced true tail
  && match rev tail with c :: _ => negb (JS.isSpace c) | [] => false end
  && noChar "-" tail
  && noChar ";" tail
  && commasInside 0%Z tail
  && (depthAfter 0%Z tail =? 0)%Z
  && negb (JS.startsWith (lit "KEY") upperTail)
  && negb (JS.startsWith (lit "NULL") upperTail)
  && match Regex.matchAt referencesRegex (lit "REFERENCES " ++ upperTail) with
     | None => true
     | Some _ => false
     end
  && match Regex.exec referencesRegex (lit " " ++ upperTail) with
     | None => true
     | Some _ => false
     end.

(** The field of the diagram for a field of the editor. *)
Definition ShownAs (e : EditField.t) (f : DiagramField.t) : Prop :=
  DiagramField.name f = JS.toLowerCase (EditField.name e)
  /\ DiagramField.type f = EditField.type e
  /\ DiagramField.isPrimaryKey f = EditField.isPrimaryKey e
  /\ DiagramField.nullable f
     = (EditField.nullable e || EditField.isPrimaryKey e).

(** A field that the editor can hold: its name is an identifier that does
    not start with [CONSTRAINT], in any letter case, and its type is a
    logical type. *)
Definition Editable (e : EditField.t) : Prop :=
  isIdentifier (EditField.name e) = true
  /\ JS.startsWith (lit "CONSTRAINT") (JS.toUpperCase (EditField.name e))
     = false
  /\ In (EditField.type e) logicalTypes.

(** The types that the builder offers. *)
Definition builderTypes : list str :=
  map lit ["int8"; "text"; "boolean"; "numeric"; "timestamp"; "uuid"]%string.

Definition Buildable (e : BuilderField.t) : Prop :=
  isIdentifier (BuilderField.name e) = true
  /\ JS.startsWith (lit "CONSTRAINT") (JS.toUpperCase (BuilderField.name e))
     = false
  /\ In (BuilderField.type e) builderTypes.

(** The primary-key flag and [nullable] that come back for a field of the
    builder: an [int8] primary key is written [SERIAL], without
    [PRIMARY KEY]; [NOT NULL] is written for a mandatory field that is not a
    primary key and whose name does not contain [_at]. *)
Definition builtPrimaryKey (e : BuilderField.t) : bool :=
  BuilderField.primaryKey e && negb (JS.eqb (BuilderField.type e) (lit "int8")).

Definition builtNullable (e : BuilderField.t) : bool :=
  BuilderField.nullable e || BuilderField.primaryKey e
  || JS.includes (lit "_at") (BuilderField.name e).

(** The field that the parser returns for a field of the builder. *)
Definition BuiltAs (e : BuilderField.t) (f : TableField.t) : Prop :=
  TableField.name f = JS.toLowerCase (BuilderField.name e)
  /\ TableField.type f = BuilderField.type e
  /\ TableField.primaryKey f = builtPrimaryKey e
  /\ TableField.nullable f = builtNullable e.

(** The field of the diagram for a field of the builder. *)
Definition PlacedAs (e : BuilderField.t) (f : DiagramField.t) : Prop :=
  DiagramField.name f = JS.toLowerCase (BuilderField.name e)
  /\ DiagramField.type f = BuilderField.type e
  /\ DiagramField.isPrimaryKey f = builtPrimaryKey e
  /\ DiagramField.nullable f = builtNullable e.

(** The text without its comments, read character by character:
    [inComment] tells that the characters are those of a comment, which
    runs from [--] to the end of its line. *)
Fixpoint stripComments (inComment : bool) (s : str) : str :=
  match s with
  | [] => []
  | c :: r =>
      if inComment then
        if JS.isLineTerminator c then c :: stripComments false r
        else stripComments true r
      else if JS.startsWith (lit "--") s then stripComments true r
      else c :: stripComments false r
  end.

(** The text does not end with [-]. *)
Definition noDashAtEnd (s : str) : bool :=
  match rev s with c :: _ => negb (Ascii.eqb c "-") | [] => true end.

(** The body of the statement in the cleaned text. *)
Definition bodyOf (columns : list (str * str)) : str :=
  lit " " ++ JS.join (lit ", ") (map columnClause columns) ++ lit " ".

(** A column whose name is an identifier that does not start with
    [CONSTRAINT], in any letter case, and whose text is plain. *)
Definition plainColumn (column : str * str) : bool :=
  isIdentifier (fst column)
  && negb (JS.startsWith (lit "CONSTRAINT") (JS.toUpperCase (fst column)))
  && plainTail (snd column).

(** A clause with no white space at its ends, its commas inside closed
    parentheses. *)
Definition plainClause (c : str) : bool :=
  match c with x :: _ => negb (JS.isSpace x) | [] => false end
  && match rev c with x :: _ => negb (JS.isSpace x) | [] => false end
  && commasInside 0%Z c
  && (depthAfter 0%Z c =? 0)%Z.

(** What the parser reads in the clause of a column: the name in lower
    case, the type of the first token of the text after the name, the flags
    of the constraints written in that text, no foreign key. *)
Definition ReadAs (column : str * str) (f : TableField.t) : Prop :=
  TableField.name f = JS.toLowerCase (fst column)
  /\ normalizeType
       (JS.toUpperCase (hd [] (Regex.split spacesRegex (snd column))))
     = Ok (TableField.type f)
  /\ TableField.nullable f
     = negb (JS.includes (lit "NOT NULL")
                         (lit " " ++ JS.toUpperCase (snd column)))
  /\ TableField.primaryKey f
     = JS.includes (lit "PRIMARY KEY") (lit " " ++ JS.toUpperCase (snd column))
  /\ TableField.foreignKey f = None.

(** The field that the parser returns for a field of the editor. *)
Definition EditedAs (e : EditField.t) (f : TableField.t) : Prop :=
  TableField.name f = JS.toLowerCase (EditField.name e)
  /\ TableField.type f = EditField.type e
  /\ TableField.primaryKey f = EditField.isPrimaryKey e
  /\ TableField.nullable f
     = (EditField.nullable e || EditField.isPrimaryKey e).

(** The statements that [parseSQL] reads in a text: the captures of the
    successive matches of its pattern in the cleaned text. *)
Definition statements (sql : str) : list (list str) :=
  Regex.execAll createTableRegex 0 (cleanSQL sql).

(** [parseColumnDefinition] returns a field for the clause, not [null]. *)
Definition givesField (columnDef : str) : bool :=
  match parseColumnDefinition columnDef with
  | Ok (Some _) => true
  | _ => false
  end.

(** The clauses of a body for which [parseColumnDefinitions] pushes a field,
    in order, each as the loop passes it to [parseColumnDefinition]. *)
Definition fieldClauses (columnDefs : str) : list str :=
  filter givesField (map JS.trim (splitColumnDefinitions columnDefs)).

(** The same for a match of the pattern, whose second capture is the body of
    the statement. *)
Definition columnClauses (statement : list str) : list str :=
  match Regex.capture statement 2 with
  | Some columnDefinitions => fieldClauses columnDefinitions
  | None => []
  end.

(** Every character of the text is in the 7-bit range, where the case
    conversions of the embedding are those of JavaScript. *)
Definition isSevenBit (s : str) : bool :=
  forallb (fun c => (nat_of_ascii c <? 128)%nat) s.

End Spec.

(** ** Sample schemas and inputs *)

Module Samples.

Definition field (name type : string) (nullable primaryKey : bool)
           (fk : option (string * string)) : TableField.t :=
  {| TableField.name := lit name;
     TableField.type := lit type;
     TableField.nullable := nullable;
     TableField.primaryKey := primaryKey;
     TableField.foreignKey :=
       match fk with
       | Some (t, c) =>
           Some {| ForeignKey.table := lit t; ForeignKey.column := lit c |}
       | None => None
       end;
     TableField.defaultValue := None |}.

Definition table (name : string) (fields : list TableField.t)
  : TableSchema.t :=
  {| TableSchema.name := lit name; TableSchema.fields := fields |}.

Definition rel (ft ff tt tf : string) : SchemaRelationship.t :=
  Inference.mkRelationship (lit ft) (lit ff) (lit tt) (lit tf).

(** Two tables, one explicit relationship, canonical types only. *)
Definition blog : ParsedSchema.t :=
  {| ParsedSchema.tables :=
       [ table "users"
           [ field "id" "int8" false true None;
             field "email" "text" false false None ];
         table "posts"
           [ field "id" "int8" false true None;
             field "author" "int8" true false (Some ("users", "id"));
             field "title" "text" true false None ] ]%string;
     ParsedSchema.relationships :=
       [ rel "posts" "author" "users" "id" ]%string |}.

Definition endToEndInput : str :=
  lit "CREATE TABLE users (id SERIAL PRIMARY KEY, email TEXT NOT NULL); CREATE TABLE posts (id SERIAL PRIMARY KEY, user_id INTEGER, title TEXT);".

Definition endToEndSchema : ParsedSchema.t :=
  {| ParsedSchema.tables :=
       [ table "users"
           [ field "id" "int8" true true None;
             field "email" "text" false false None ];
         table "posts"
           [ field "id" "int8" true true None;
             field "user_id" "int8" true false (Some ("users", "id"));
             field "title" "text" true false None ] ]%string;
     ParsedSchema.relationships :=
       [ rel "posts" "user_id" "users" "id" ]%string |}.

Definition endToEndSqlite : str :=
  lit "CREATE TABLE IF NOT EXISTS users (
    id INTEGER PRIMARY KEY AUTOINCREMENT,
    email TEXT NOT NULL
);

CREATE TABLE IF NOT EXISTS posts (
    id INTEGER PRIMARY KEY AUTOINCREMENT,
    user_id INTEGER REFERENCES users(id),
    title TEXT
);".

Definition dialects : list str :=
  [lit "postgresql"; lit "mysql"; lit "sqlite"].

(** The schema of the scenario loaded into an empty diagram, its table
    [posts] and the field [user_id] of that table. *)
Definition endToEndDiagram : DiagramData.t :=
  DiagramService.updateFromSchema DiagramService.empty
    (ParsedSchema.tables endToEndSchema)
    (ParsedSchema.relationships endToEndSchema) false.

Definition userIdField : DiagramField.t :=
  DiagramService.convertField
    (field "user_id" "int8" true false (Some ("users", "id"))%string).

Definition postsTable : DiagramTable.t :=
  {| DiagramTable.id := lit "posts";
     DiagramTable.name := lit "posts";
     DiagramTable.fields :=
       [ DiagramService.convertField (field "id" "int8" true true None);
         userIdField;
         DiagramService.convertField (field "title" "text" true false None) ];
     DiagramTable.position := (550, 150)%Z;
     DiagramTable.incoming := 0;
     DiagramTable.outgoing := 1 |}.

(** The table [users] of the scenario in the editor of the Inspector, its
    column [email] made mandatory. *)
Definition editedUsers : EditingTable.t :=
  {| EditingTable.name := lit "Users";
     EditingTable.fields :=
       [ {| EditField.name := lit "id"; EditField.type := lit "int8";
            EditField.isPrimaryKey := true; EditField.nullable := true |};
         {| EditField.name := lit "Email"; EditField.type := lit "text";
            EditField.isPrimaryKey := false; EditField.nullable := false |} ] |}.

(** A table in the builder: the fields of its buttons "id" and
    "timestamps" around a field typed by hand. *)
Definition builderFields : list BuilderField.t :=
  [ {| BuilderField.name := lit "id"; BuilderField.type := lit "int8";
       BuilderField.nullable := false; BuilderField.primaryKey := true |};
    {| BuilderField.name := lit "Title"; BuilderField.type := lit "text";
       BuilderField.nullable := false; BuilderField.primaryKey := false |};
    {| BuilderField.name := lit "created_at";
       BuilderField.type := lit "timestamp";
       BuilderField.nullable := false; BuilderField.primaryKey := false |} ].

End Samples.

(** * Properties *)

(** ** Characters and strings *)

Section Characters.

Local Ltac by_cases c :=
  destruct c as [[] [] [] [] [] [] [] []]; reflexivity.

Lemma isSpace_upper (c : ascii) : JS.isSpace (JS.upper c) = JS.isSpace c.
Proof. by_cases c. Qed.

Lemma isLower_upper (c : ascii) : JS.isLower (JS.upper c) = false.
Proof. by_cases c. Qed.


End Characters.

Lemma eqb_eq (a b : str) : JS.eqb a b = true <-> a = b.
Proof.
  revert b; induction a as [|x a IH]; intros [|y b]; simpl; split;
    try congruence; try reflexivity.
  - intros H. apply andb_true_iff in H as [Hx Hr].
    apply Ascii.eqb_eq in Hx. apply IH in Hr. congruence.
  - intros H. injection H as -> ->.
    rewrite Ascii.eqb_refl. simpl. now apply IH.
Qed.

(** ** The matcher *)

Section MatcherFacts.

Context {A : Type}.

(** A greedy run is taken whole when the rest of the pattern cannot start
    with a character of the class... *)
Lemma greedy_commit (p : ascii -> bool) (k : str -> str -> option A) :
  (forall taken c r, p c = true -> k taken (c :: r) = None) ->
  forall s taken,
    Regex.greedy p k taken s
    = k (taken ++ JS.takeWhile p s) (JS.dropWhile p s).
Proof.
  intros Hk. induction s as [|c s IH]; intros taken; simpl.
  - now rewrite app_nil_r.
  - destruct (p c) eqn:Hc.
    + rewrite IH, <- app_assoc. simpl.
      rewrite (Hk taken c s Hc).
      now destruct (k (taken ++ c :: JS.takeWhile p s) (JS.dropWhile p s)).
    + now rewrite app_nil_r.
Qed.

(** ... and when the rest of the pattern never fails. *)
Lemma greedy_total (p : ascii -> bool) (k : str -> str -> option A) :
  (forall taken r, k taken r <> None) ->
  forall s taken,
    Regex.greedy p k taken s
    = k (taken ++ JS.takeWhile p s) (JS.dropWhile p s).
Proof.
  intros Hk. induction s as [|c s IH]; intros taken; simpl.
  - now rewrite app_nil_r.
  - destruct (p c) eqn:Hc.
    + rewrite IH, <- app_assoc. simpl.
      destruct (k (taken ++ c :: JS.takeWhile p s) (JS.dropWhile p s)) eqn:E;
        [reflexivity|].
      now apply Hk in E.
    + now rewrite app_nil_r.
Qed.

(** A literal text at the head of a pattern. *)
Lemma matchItems_text (p : str) (r : Regex.t) (captures : list str)
      (k : list str -> str -> option A) (s : str) :
  Regex.matchItems (map Regex.chr p ++ r) captures k s
  = match JS.stripPrefix p s with
    | Some rest => Regex.matchItems r captures k rest
    | None => None
    end.
Proof.
  revert s. induction p as [|x p IH]; intros s; [reflexivity|].
  destruct s as [|y s]; [reflexivity|].
  cbn [map app Regex.matchItems Regex.matchItem Regex.chr Regex.isGroup
       JS.stripPrefix].
  destruct (Ascii.eqb x y); [apply IH|reflexivity].
Qed.

(** A successful match has called its continuation. *)
Lemma greedy_inv (p : ascii -> bool) (k : str -> str -> option A) (a : A) :
  forall s taken,
    Regex.greedy p k taken s = Some a ->
    exists taken' rest, k taken' rest = Some a.
Proof.
  induction s as [|c s IH]; intros taken; simpl; [now eauto|].
  destruct (p c); [|now eauto].
  destruct (Regex.greedy p k (taken ++ [c]) s) eqn:E.
  - intros H. injection H as ->. now apply IH in E.
  - now eauto.
Qed.

Lemma reluctant_inv (p : ascii -> bool) (k : str -> str -> option A) (a : A) :
  forall s taken,
    Regex.reluctant p k taken s = Some a ->
    exists taken' rest, k taken' rest = Some a.
Proof.
  induction s as [|c s IH]; intros taken; simpl.
  - destruct (k taken []) eqn:E; [|discriminate].
    intros H. injection H as ->. now eauto.
  - destruct (k taken (c :: s)) eqn:E.
    + intros H. injection H as ->. now eauto.
    + destruct (p c); [apply IH|discriminate].
Qed.

Lemma matchItem_inv (i : Regex.item) (k : str -> str -> option A) (s : str)
      (a : A) :
  Regex.matchItem i k s = Some a ->
  exists taken rest, k taken rest = Some a.
Proof.
  induction i as [p|atLeastOne isGreedy p| |i IH]; simpl.
  - destruct s as [|c s]; [discriminate|].
    destruct (p c); [now eauto|discriminate].
  - destruct atLeastOne.
    + destruct s as [|c s]; [discriminate|].
      destruct (p c); [|discriminate].
      destruct isGreedy; [apply greedy_inv|apply reluctant_inv].
    + destruct isGreedy; [apply greedy_inv|apply reluctant_inv].
  - destruct s as [|c s]; [now eauto|].
    destruct (JS.isLineTerminator c); [now eauto|discriminate].
  - exact IH.
Qed.

Lemma matchItems_captures (r : Regex.t) :
  forall (captures : list str) (k : list str -> str -> option A) (s : str)
         (a : A),
    Regex.matchItems r captures k s = Some a ->
    exists captures' rest,
      k (captures ++ captures') rest = Some a
      /\ List.length captures' = Regex.groups r.
Proof.
  induction r as [|i r IH]; intros captures k s a H; simpl in H.
  - exists [], s. now rewrite app_nil_r.
  - apply matchItem_inv in H as (taken & rest & H).
    apply IH in H as (captures' & rest' & H & Hlen).
    unfold Regex.groups. cbn [filter].
    destruct (Regex.isGroup i).
    + exists (taken :: captures'), rest'. rewrite <- app_assoc in H.
      split; [exact H|]. simpl. now f_equal.
    + now exists captures', rest'.
Qed.

End MatcherFacts.

Lemma matchAt_captures (r : Regex.t) (s rest : str) (captures : list str) :
  Regex.matchAt r s = Some (captures, rest) ->
  List.length captures = Regex.groups r.
Proof.
  unfold Regex.matchAt. intros H.
  apply matchItems_captures in H as (captures' & rest' & H & Hlen).
  injection H as <- _. exact Hlen.
Qed.

Lemma firstMatch_Some {A : Type} (m : str -> option A) (s : str) (a : A) :
  JS.firstMatch m s = Some a -> exists s', m s' = Some a.
Proof.
  induction s as [|c s IH]; simpl.
  - destruct (m []) eqn:E; [|discriminate]. intros H. injection H as ->.
    now eauto.
  - destruct (m (c :: s)) eqn:E; [|exact IH].
    intros H. injection H as ->. now eauto.
Qed.

Lemma exec_captures (r : Regex.t) (s : str) (captures : list str) :
  Regex.exec r s = Some captures ->
  List.length captures = Regex.groups r.
Proof.
  unfold Regex.exec.
  destruct (JS.firstMatch (Regex.matchAt r) s) as [[c rest]|] eqn:E;
    [|discriminate].
  intros H. injection H as <-.
  apply firstMatch_Some in E as [s' E]. now apply matchAt_captures in E.
Qed.

Lemma execAll_captures (r : Regex.t) (s : str) :
  forall skip,
    Forall (fun captures => List.length captures = Regex.groups r)
           (Regex.execAll r skip s).
Proof.
  induction s as [|c s IH]; intros skip; simpl; [constructor|].
  destruct skip; [|apply IH].
  destruct (Regex.matchAt r (c :: s)) as [[captures rest]|] eqn:E; [|apply IH].
  constructor; [now apply matchAt_captures in E|apply IH].
Qed.

(** ** C10: an empty schema exports as the empty string *)

(** C10.  When the diagram holds no table, [exportSchemaAsSQL] returns the
  empty string, whatever the relationships it holds and whatever the dialect
  identifier (known, unknown, or the name of a built-in). *)
Theorem export_empty_schema :
  forall (relationships : list DiagramRelationship.t) (provider : str),
    DiagramService.exportSchemaAsSQL
      {| DiagramData.tables := []; DiagramData.relationships := relationships |}
      provider
    = Ok [].
Proof.
  intros relationships provider. reflexivity.
Qed.

(** ** C2: the end-to-end scenario *)

(** C2.  The input of the scenario parses to the two tables [users] and
  [posts] and to the single relationship [posts.user_id -> users.id]
  (inferred: [user_id] also receives the foreign key), and the schema
  regenerated for [sqlite] has, for [posts], the column definitions
  [id INTEGER PRIMARY KEY AUTOINCREMENT], [user_id INTEGER REFERENCES
  users(id)] (no [NOT NULL]) and [title TEXT]. *)
Theorem end_to_end_scenario :
  Inference.parseSQL Samples.endToEndInput = Ok Samples.endToEndSchema
  /\ List.length (ParsedSchema.tables Samples.endToEndSchema) = 2
  /\ ParsedSchema.relationships Samples.endToEndSchema
     = [ Inference.mkRelationship (lit "posts") (lit "user_id")
                                  (lit "users") (lit "id") ]
  /\ Spec.generate Samples.endToEndSchema (lit "sqlite")
     = Ok Samples.endToEndSqlite
  /\ (let diagram :=
        DiagramService.updateFromSchema DiagramService.empty
          (ParsedSchema.tables Samples.endToEndSchema)
          (ParsedSchema.relationships Samples.endToEndSchema) false in
      match nth_error (DiagramData.tables diagram) 1 with
      | Some posts =>
          mapM (fun f =>
                  line <- DiagramService.fieldDefinition diagram (lit "sqlite")
                            (SQLSyntaxMapper.getSyntaxConfig (lit "sqlite"))
                            posts f ;;
                  Ok (JS.trim line))
               (DiagramTable.fields posts)
      | None => Ok []
      end
      = Ok [ lit "id INTEGER PRIMARY KEY AUTOINCREMENT";
             lit "user_id INTEGER REFERENCES users(id)";
             lit "title TEXT" ]).
Proof.
  repeat split; vm_compute; reflexivity.
Qed.

(** ** C1: the generator's output is not read back *)

(** The pattern of [parseSQL] does not match at the start of a statement
  that the generator prints: after [TABLE] it reads the word [IF] as the
  table name and then wants an opening parenthesis. *)
Lemma if_not_exists_not_matched (rest : str) :
  Regex.matchAt SchemaParser.createTableRegex
    (lit "CREATE TABLE IF NOT EXISTS " ++ rest)
  = None.
Proof. reflexivity. Qed.

(** So no statement that [exportSchemaAsSQL] prints is matched at its start,
    whatever the schema and the dialect. *)
Lemma generated_statement_not_matched (d : DiagramData.t) (provider : str)
      (syntaxConfig : SQLSyntaxMapper.ConfigValue) (table : DiagramTable.t)
      (statement : str) :
  DiagramService.createStatement d provider syntaxConfig table = Ok statement ->
  Regex.matchAt SchemaParser.createTableRegex statement = None.
Proof.
  unfold DiagramService.createStatement.
  destruct (mapM _ (DiagramTable.fields table)) as [fields|e];
    cbn [bind]; [|discriminate].
  intros H. injection H as <-. apply if_not_exists_not_matched.
Qed.

(** C1 (fails on the code).  For the schema [Samples.blog] (canonical types,
  one explicit relationship) and each of the three dialects, the generated
  SQL is not empty, parsing it yields no table at all, and generating again
  yields the empty string: the round trip does not give the first SQL
  back. *)
Theorem round_trip_loses_schema :
  Forall
    (fun dialect =>
       exists sql,
         Spec.generate Samples.blog dialect = Ok sql
         /\ sql <> []
         /\ Inference.parseSQL sql
            = Ok {| ParsedSchema.tables := [];
                    ParsedSchema.relationships := [] |}
         /\ Spec.roundTrip Samples.blog dialect = Ok []
         /\ Spec.roundTrip Samples.blog dialect
            <> Spec.generate Samples.blog dialect)
    Samples.dialects.
Proof.
  repeat constructor;
    (eexists; split; [vm_compute; reflexivity|];
     repeat split; try (vm_compute; reflexivity);
     vm_compute; discriminate).
Qed.

(** ** C3: the type [SERIAL] *)

(** The normalised type is never [SERIAL] nor [BIGSERIAL]: the values of
  [typeMap] and the fallback are lower-case names. *)
Lemma normalizeType_not_serial (type t : str) :
  SchemaParser.normalizeType type = Ok t ->
  JS.eqb t (lit "SERIAL") || JS.eqb t (lit "BIGSERIAL") = false.
Proof.
  unfold SchemaParser.normalizeType, getProp.
  set (k := JS.beforeFirst "(" type). clearbody k.
  unfold SchemaParser.typeMap, assoc.
  repeat match goal with
         | |- context [if JS.eqb ?a k then _ else _] =>
             destruct (JS.eqb a k)
         end;
    try (intros H; injection H as <-; reflexivity).
  destruct (existsb (JS.eqb k) objectPrototypeKeys);
    intros H; [discriminate|injection H as <-; reflexivity].
Qed.

(** C3 (fails on the code).  A clause whose type token is [SERIAL] or
  [BIGSERIAL], without [PRIMARY KEY] and [NOT NULL], gives a field with
  [primaryKey = false] and [nullable = true]: [parseColumnDefinition]
  compares the type with ['SERIAL'] after it has normalised it to
  ['int8']. *)
Theorem serial_is_not_primary_key :
  SchemaParser.parseColumnDefinition (lit "id SERIAL")
  = Ok (Some (Samples.field "id" "int8" true false None))
  /\ SchemaParser.parseColumnDefinition (lit "id BIGSERIAL")
     = Ok (Some (Samples.field "id" "int8" true false None))
  /\ Inference.parseSQL (lit "CREATE TABLE t (id SERIAL);")
     = Ok {| ParsedSchema.tables :=
               [ Samples.table "t" [Samples.field "id" "int8" true false None] ];
             ParsedSchema.relationships := [] |}.
Proof.
  repeat split; vm_compute; reflexivity.
Qed.

(** ** C9: dialect identifiers outside the syntax table *)

Lemma assoc_not_key {A : Type} (k : str) (l : list (str * A)) :
  ~ In k (map fst l) -> assoc k l = None.
Proof.
  induction l as [|[k' a] l IH]; simpl; intros H; [reflexivity|].
  destruct (JS.eqb k' k) eqn:E.
  - apply eqb_eq in E. tauto.
  - apply IH. tauto.
Qed.

Lemma existsb_not_in (k : str) (l : list str) :
  ~ In k l -> existsb (JS.eqb k) l = false.
Proof.
  intros H. destruct (existsb (JS.eqb k) l) eqn:E; [|reflexivity].
  apply existsb_exists in E as (x & Hx & Hk).
  apply eqb_eq in Hk. subst. contradiction.
Qed.

Lemma mapM_ext {A B : Type} (f g : A -> result B) (l : list A) :
  (forall a, f a = g a) -> mapM f l = mapM g l.
Proof.
  intros H. induction l as [|a l IH]; simpl; [reflexivity|].
  now rewrite H, IH.
Qed.

Lemma mapM_total {A B : Type} (f : A -> result B) (l : list A) :
  (forall a, exists b, f a = Ok b) -> exists bs, mapM f l = Ok bs.
Proof.
  intros H. induction l as [|a l [bs IH]]; simpl; [now eexists|].
  destruct (H a) as [b Hb]. rewrite Hb, IH. simpl. now eexists.
Qed.

Section KnownConfig.

Import SQLSyntaxMapper.

Variable provider : str.
Variable c : DatabaseSyntaxConfig.
Hypothesis Hconfig : getSyntaxConfig provider = IsConfig c.

Lemma mapDataType_total (genericType : str) (length : option JS.number) :
  exists s, mapDataType genericType provider length = Ok s.
Proof.
  unfold mapDataType. rewrite Hconfig. unfold read, bind.
  repeat match goal with
         | |- context [if ?b then _ else _] => destruct b
         | |- context [getProp ?t ?k] => destruct (getProp t k)
         | |- context [dataTypeString ?d ?k] => destruct (dataTypeString d k)
         end; eexists; reflexivity.
Qed.

Lemma fieldDefinition_total (d : DiagramData.t) (table : DiagramTable.t)
      (field : DiagramField.t) :
  exists s,
    DiagramService.fieldDefinition d provider (IsConfig c) table field = Ok s.
Proof.
  unfold DiagramService.fieldDefinition.
  destruct (mapDataType_total (DiagramField.type field) None) as [ty Hty].
  rewrite Hty. simpl.
  repeat match goal with
         | |- context [if ?b then _ else _] => destruct b; simpl
         | |- context [match find ?p ?l with _ => _ end] =>
             destruct (find p l); simpl
         end; eexists; reflexivity.
Qed.

Lemma exportSchemaAsSQL_total (d : DiagramData.t) :
  exists sql, DiagramService.exportSchemaAsSQL d provider = Ok sql.
Proof.
  unfold DiagramService.exportSchemaAsSQL. rewrite Hconfig.
  destruct (List.length (DiagramData.tables d) =? 0); [now eexists|].
  destruct (mapM_total
              (DiagramService.createStatement d provider (IsConfig c))
              (DiagramData.tables d)) as [stmts Hs].
  - intros table. unfold DiagramService.createStatement.
    destruct (mapM_total
                (DiagramService.fieldDefinition d provider (IsConfig c) table)
                (DiagramTable.fields table)) as [fs Hfs].
    + intros f. apply fieldDefinition_total.
    + rewrite Hfs. simpl. now eexists.
  - rewrite Hs. simpl. now eexists.
Qed.

End KnownConfig.

Section SameConfig.

Import SQLSyntaxMapper.

Variables p q : str.
Hypothesis Hsame : getSyntaxConfig p = getSyntaxConfig q.

Lemma mapDataType_same (genericType : str) (length : option JS.number) :
  mapDataType genericType p length = mapDataType genericType q length.
Proof. unfold mapDataType. now rewrite Hsame. Qed.

Lemma exportSchemaAsSQL_same (d : DiagramData.t) :
  DiagramService.exportSchemaAsSQL d p = DiagramService.exportSchemaAsSQL d q.
Proof.
  unfold DiagramService.exportSchemaAsSQL. rewrite Hsame.
  destruct (List.length (DiagramData.tables d) =? 0); [reflexivity|].
  f_equal. apply mapM_ext. intros table.
  unfold DiagramService.createStatement. f_equal.
  apply mapM_ext. intros f.
  unfold DiagramService.fieldDefinition.
  now rewrite !mapDataType_same.
Qed.

End SameConfig.

(** C9 as stated fails: [constructor] is not a key of the syntax table, yet
  [getSyntaxConfig] does not return the [postgresql] configuration for it
  (the lookup finds the built-in that every object inherits), and both
  [mapDataType] and the export raise where [postgresql] gives a result. *)
Lemma inherited_identifier_not_postgresql :
  ~ In (lit "constructor") (map fst SQLSyntaxMapper.DATABASE_SYNTAX)
  /\ SQLSyntaxMapper.getSyntaxConfig (lit "constructor")
     = SQLSyntaxMapper.BuiltIn
  /\ SQLSyntaxMapper.getSyntaxConfig (lit "constructor")
     <> SQLSyntaxMapper.IsConfig SQLSyntaxMapper.postgresql
  /\ SQLSyntaxMapper.mapDataType (lit "text") (lit "constructor") None
     = Throw TypeError
  /\ SQLSyntaxMapper.mapDataType (lit "text") (lit "postgresql") None
     = Ok (lit "TEXT")
  /\ Spec.generate Samples.blog (lit "constructor") = Throw TypeError.
Proof.
  split.
  - vm_compute. intros H.
    repeat (destruct H as [H|H]; [discriminate H|]). exact H.
  - repeat split; try (vm_compute; reflexivity).
    vm_compute. discriminate.
Qed.

(** C9 (amended).  For every dialect identifier that is neither a key of the
  syntax table nor the name of a property that objects inherit,
  [getSyntaxConfig] returns the [postgresql] configuration; [mapDataType]
  and [exportSchemaAsSQL] then give what they give for [postgresql], and
  they give a result (nothing is raised). *)
Theorem unknown_dialect_falls_back :
  forall provider : str,
    ~ In provider (map fst SQLSyntaxMapper.DATABASE_SYNTAX) ->
    ~ In provider objectPrototypeKeys ->
    SQLSyntaxMapper.getSyntaxConfig provider
    = SQLSyntaxMapper.IsConfig SQLSyntaxMapper.postgresql
    /\ (forall genericType length,
           SQLSyntaxMapper.mapDataType genericType provider length
           = SQLSyntaxMapper.mapDataType genericType (lit "postgresql") length
           /\ exists s,
               SQLSyntaxMapper.mapDataType genericType provider length = Ok s)
    /\ (forall d,
           DiagramService.exportSchemaAsSQL d provider
           = DiagramService.exportSchemaAsSQL d (lit "postgresql")
           /\ exists sql, DiagramService.exportSchemaAsSQL d provider = Ok sql).
Proof.
  intros provider Hkey Hproto.
  assert (Hcfg : SQLSyntaxMapper.getSyntaxConfig provider
                 = SQLSyntaxMapper.IsConfig SQLSyntaxMapper.postgresql).
  { unfold SQLSyntaxMapper.getSyntaxConfig, getProp.
    now rewrite (assoc_not_key _ _ Hkey), (existsb_not_in _ _ Hproto). }
  assert (Hsame : SQLSyntaxMapper.getSyntaxConfig provider
                  = SQLSyntaxMapper.getSyntaxConfig (lit "postgresql"))
    by (rewrite Hcfg; reflexivity).
  split; [exact Hcfg|split].
  - intros genericType length. split.
    + now apply mapDataType_same.
    + now apply (mapDataType_total provider SQLSyntaxMapper.postgresql).
  - intros d. split.
    + now apply exportSchemaAsSQL_same.
    + now apply (exportSchemaAsSQL_total provider SQLSyntaxMapper.postgresql).
Qed.

Lemma unknown_dialect_falls_back_witness :
  SQLSyntaxMapper.getSyntaxConfig (lit "oracle")
  = SQLSyntaxMapper.IsConfig SQLSyntaxMapper.postgresql
  /\ (forall genericType length,
         SQLSyntaxMapper.mapDataType genericType (lit "oracle") length
         = SQLSyntaxMapper.mapDataType genericType (lit "postgresql") length
         /\ exists s,
             SQLSyntaxMapper.mapDataType genericType (lit "oracle") length
             = Ok s)
  /\ (forall d,
         DiagramService.exportSchemaAsSQL d (lit "oracle")
         = DiagramService.exportSchemaAsSQL d (lit "postgresql")
         /\ exists sql,
             DiagramService.exportSchemaAsSQL d (lit "oracle") = Ok sql).
Proof.
  apply (unknown_dialect_falls_back (lit "oracle")).
  - vm_compute. intros H.
    repeat (destruct H as [H|H]; [discriminate H|]). exact H.
  - vm_compute. intros H.
    repeat (destruct H as [H|H]; [discriminate H|]). exact H.
Defined.

(** ** C7: splitting a body at its top-level commas *)

Section Splitting.

Import SchemaParser.

(** A text whose commas are all met with a non-zero counter goes to
    [current] as a whole. *)
Lemma splitLoop_inside (d rest current : str) (parenCount : Z)
      (columns : list str) :
  Spec.commasInside parenCount d = true ->
  splitLoop (d ++ rest) current parenCount columns
  = splitLoop rest (current ++ d) (Spec.depthAfter parenCount d) columns.
Proof.
  revert current parenCount.
  induction d as [|c d IH]; intros current parenCount H; simpl.
  - now rewrite app_nil_r.
  - simpl in H.
    replace (current ++ c :: d) with ((current ++ [c]) ++ d)
      by now rewrite <- app_assoc.
    destruct (Ascii.eqb c "(") eqn:Eo; [now apply IH|].
    destruct (Ascii.eqb c ")") eqn:Ec; [now apply IH|].
    destruct (Ascii.eqb c ",") eqn:Ek; simpl.
    + apply andb_true_iff in H as [Hd Hr].
      apply negb_true_iff in Hd. rewrite Hd. now apply IH.
    + now apply IH.
Qed.

Lemma splitLoop_definitions (defs : list str) (columns : list str) :
  Forall (fun d => Spec.isDefinition d = true) defs ->
  splitLoop (JS.join (lit ",") defs) [] 0%Z columns
  = columns ++ map JS.trim defs.
Proof.
  intros H. revert columns.
  induction H as [|d defs Hd Hdefs IH]; intros columns.
  - simpl. now rewrite app_nil_r.
  - unfold Spec.isDefinition in Hd.
    apply andb_true_iff in Hd as [Hd Hz].
    apply andb_true_iff in Hd as [Ht Hc].
    apply Z.eqb_eq in Hz.
    destruct defs as [|d' defs].
    + simpl. rewrite <- (app_nil_r d) at 1.
      rewrite (splitLoop_inside d [] [] 0 columns Hc). simpl.
      now rewrite Ht.
    + change (JS.join (lit ",") (d :: d' :: defs))
        with (d ++ lit "," ++ JS.join (lit ",") (d' :: defs)).
      rewrite (splitLoop_inside d _ [] 0 columns Hc), Hz.
      change (lit "," ++ JS.join (lit ",") (d' :: defs))
        with (","%char :: JS.join (lit ",") (d' :: defs)).
      cbn [splitLoop app]. change (Ascii.eqb "," "(") with false.
      change (Ascii.eqb "," ")") with false.
      change (Ascii.eqb "," ",") with true.
      cbn [andb Z.eqb]. rewrite Ht.
      rewrite IH. cbn [map]. now rewrite <- app_assoc.
Qed.

End Splitting.

(** Where the rule holds.  A comma inside parentheses never splits: a body
    whose commas are all met with a non-zero parenthesis counter is one
    clause (the body, trimmed), or none when it is blank.  When a body is
    made of column or constraint definitions (each one not blank, its commas
    inside parentheses, its parentheses closed) joined by commas,
    [splitColumnDefinitions] returns exactly these definitions, trimmed, so
    that there are as many clauses as definitions. *)
Theorem split_at_top_level_commas :
  (forall body : str,
      Spec.commasInside 0%Z body = true ->
      SchemaParser.splitColumnDefinitions body
      = if JS.truthy (JS.trim body) then [JS.trim body] else [])
  /\ (forall defs : list str,
         Forall (fun d => Spec.isDefinition d = true) defs ->
         SchemaParser.splitColumnDefinitions (JS.join (lit ",") defs)
         = map JS.trim defs
         /\ List.length
              (SchemaParser.splitColumnDefinitions (JS.join (lit ",") defs))
            = List.length defs).
Proof.
  split.
  - intros body H. unfold SchemaParser.splitColumnDefinitions.
    rewrite <- (app_nil_r body) at 1.
    rewrite (splitLoop_inside body [] [] 0 [] H). simpl.
    now destruct (JS.truthy (JS.trim body)).
  - intros defs H.
    assert (E : SchemaParser.splitColumnDefinitions (JS.join (lit ",") defs)
                = map JS.trim defs)
      by (unfold SchemaParser.splitColumnDefinitions;
          now rewrite splitLoop_definitions).
    split; [exact E|]. rewrite E. apply length_map.
Qed.

(** The example of the specification, one clause with its inner comma, and a
    body of three definitions. *)
Lemma split_at_top_level_commas_witness :
  SchemaParser.splitColumnDefinitions (lit "price NUMERIC(10,2) NOT NULL")
  = [lit "price NUMERIC(10,2) NOT NULL"]
  /\ SchemaParser.splitColumnDefinitions
       (lit "id SERIAL PRIMARY KEY, price NUMERIC(10,2) NOT NULL, CONSTRAINT u UNIQUE (a, b)")
     = [ lit "id SERIAL PRIMARY KEY";
         lit "price NUMERIC(10,2) NOT NULL";
         lit "CONSTRAINT u UNIQUE (a, b)" ].
Proof.
  split.
  - apply (proj1 split_at_top_level_commas
                 (lit "price NUMERIC(10,2) NOT NULL")).
    reflexivity.
  - apply (proj2 split_at_top_level_commas
                 [ lit "id SERIAL PRIMARY KEY";
                   lit " price NUMERIC(10,2) NOT NULL";
                   lit " CONSTRAINT u UNIQUE (a, b)" ]).
    repeat constructor.
Defined.

(** A blank segment is not a definition: the comma after it stays in the
    text, and a last comma makes a clause of its own. *)
Example split_blank_segments :
  SchemaParser.splitColumnDefinitions (lit "a INT,, b INT, ,")
  = [ lit "a INT"; lit ", b INT"; lit "," ].
Proof. vm_compute. reflexivity. Qed.

(** C7 (fails on the code).  [parseColumnDefinitions] means to split "by
    commas that are not inside parentheses", and [splitColumnDefinitions]
    pushes no blank clause; but the [continue] that drops the comma stands
    inside the test [if (current.trim())], so that a comma met at depth 0
    while [current] is blank is added to [current].  The body [a INT,,] has
    one definition and gives two clauses, the second one a comma; in
    [a INT,, b INT] the second clause keeps a comma of depth 0, and
    [parseSQL] then reads a column named [,] of type [text] where the column
    [b] is written. *)
Theorem blank_segment_keeps_its_comma :
  SchemaParser.splitColumnDefinitions (lit "a INT,,")
  = [ lit "a INT"; lit "," ]
  /\ SchemaParser.splitColumnDefinitions (lit "a INT,, b INT")
     = [ lit "a INT"; lit ", b INT" ]
  /\ Inference.parseSQL (lit "CREATE TABLE t (a INT,, b INT);")
     = Ok {| ParsedSchema.tables :=
               [ Samples.table "t"
                   [ Samples.field "a" "int8" true false None;
                     Samples.field "," "text" true false None ] ];
             ParsedSchema.relationships := [] |}.
Proof.
  repeat split; vm_compute; reflexivity.
Qed.


(** ** The field built from a clause *)

Section Clause.

Import SchemaParser.

(** What [parseColumnDefinition] returns when it returns a field.  The test
    on [SERIAL] never fires ([normalizeType_not_serial]), so the two flags
    are those read from the text. *)
Lemma parseColumnDefinition_field (columnDef : str) (f : TableField.t) :
  parseColumnDefinition columnDef = Ok (Some f) ->
  exists p0 p1 type fk,
    nth_error (Regex.split spacesRegex columnDef) 0 = Some p0
    /\ nth_error (Regex.split spacesRegex columnDef) 1 = Some p1
    /\ normalizeType (JS.toUpperCase p1) = Ok type
    /\ referencesOf (JS.toUpperCase columnDef) = Ok fk
    /\ f = {| TableField.name := JS.toLowerCase p0;
              TableField.type := type;
              TableField.nullable :=
                negb (JS.includes (lit "NOT NULL") (JS.toUpperCase columnDef));
              TableField.primaryKey :=
                JS.includes (lit "PRIMARY KEY") (JS.toUpperCase columnDef);
              TableField.foreignKey := fk;
              TableField.defaultValue :=
                defaultOf (JS.toUpperCase columnDef) |}.
Proof.
  unfold parseColumnDefinition.
  destruct (_ || _ || _); [discriminate|].
  destruct (List.length (Regex.split spacesRegex columnDef) <? 2);
    [discriminate|].
  unfold defined.
  destruct (nth_error (Regex.split spacesRegex columnDef) 0) as [p0|];
    [|discriminate].
  destruct (nth_error (Regex.split spacesRegex columnDef) 1) as [p1|];
    [|discriminate].
  cbn [bind].
  destruct (normalizeType (JS.toUpperCase p1)) as [type|e] eqn:Et;
    [|discriminate].
  cbn [bind]. rewrite (normalizeType_not_serial (JS.toUpperCase p1) type Et).
  destruct (referencesOf (JS.toUpperCase columnDef)) as [fk|e] eqn:Er;
    [|discriminate].
  cbn [bind]. intros H. injection H as <-.
  exists p0, p1, type, fk. repeat split; [exact Et|].
  cbv [lit list_ascii_of_string].
  f_equal;
    match goal with
    | |- context [JS.includes ?p ?s] => now destruct (JS.includes p s)
    end.
Qed.

End Clause.

(** ** C8: the value of a [DEFAULT] clause *)

Section DefaultValue.

Import SchemaParser.










End DefaultValue.


(** The pattern has no word boundary: the letters [DEFAULT] at the end of
  a column name are taken for the keyword when white space and a token
  follow them, and they come first. *)
Example default_letters_inside_a_name :
  Spec.firstDefaultToken (lit "is_default INT DEFAULT 0") = Some (lit "INT")
  /\ SchemaParser.parseColumnDefinition (lit "is_default INT DEFAULT 0")
     = Ok (Some {| TableField.name := lit "is_default";
                   TableField.type := lit "int8";
                   TableField.nullable := true;
                   TableField.primaryKey := false;
                   TableField.foreignKey := None;
                   TableField.defaultValue := Some (lit "INT") |}).
Proof. split; vm_compute; reflexivity. Qed.



(** ** C6: [parseSQL] always returns a schema *)

Section Totality.

Import SchemaParser Inference.

Lemma hasLower_type_token (p : str) :
  Spec.hasLower (JS.beforeFirst "("%char (JS.toUpperCase p)) = false.
Proof.
  unfold JS.beforeFirst, JS.toUpperCase, Spec.hasLower.
  induction p as [|c p IH]; simpl; [reflexivity|].
  destruct (negb (Ascii.eqb (JS.upper c) "(")); simpl; [|reflexivity].
  now rewrite isLower_upper, IH.
Qed.

(** An upper-cased type token is not the name of an inherited property:
    each of these names has a lower-case letter. *)
Lemma type_token_not_inherited (p : str) :
  existsb (JS.eqb (JS.beforeFirst "("%char (JS.toUpperCase p)))
          objectPrototypeKeys
  = false.
Proof.
  destruct (existsb _ objectPrototypeKeys) eqn:E; [|reflexivity].
  apply existsb_exists in E as (key & Hkey & Heq).
  apply eqb_eq in Heq.
  assert (Hall : forallb Spec.hasLower objectPrototypeKeys = true)
    by (vm_compute; reflexivity).
  rewrite forallb_forall in Hall. specialize (Hall key Hkey).
  rewrite <- Heq, hasLower_type_token in Hall. discriminate.
Qed.

Lemma normalizeType_total (p : str) :
  exists t, normalizeType (JS.toUpperCase p) = Ok t.
Proof.
  unfold normalizeType, getProp.
  destruct (assoc _ typeMap) as [t|].
  - destruct (JS.truthy t); now eexists.
  - rewrite type_token_not_inherited. now eexists.
Qed.

Lemma referencesOf_total (upperDef : str) :
  exists fk, referencesOf upperDef = Ok fk.
Proof.
  unfold referencesOf.
  destruct (Regex.exec referencesRegex upperDef) as [captures|] eqn:E;
    [|now eexists].
  apply exec_captures in E. change (Regex.groups referencesRegex) with 2 in E.
  destruct captures as [|a [|b [|? ?]]]; try discriminate E.
  cbn. now eexists.
Qed.

Lemma parseColumnDefinition_total (columnDef : str) :
  exists r, parseColumnDefinition columnDef = Ok r.
Proof.
  unfold parseColumnDefinition.
  destruct (_ || _ || _); [now eexists|].
  destruct (List.length (Regex.split spacesRegex columnDef) <? 2) eqn:El;
    [now eexists|].
  apply Nat.ltb_ge in El.
  destruct (Regex.split spacesRegex columnDef) as [|p0 [|p1 parts]];
    simpl in El; try lia.
  cbn [defined nth_error bind].
  destruct (normalizeType_total p1) as [t Ht]. rewrite Ht.
  cbn [bind].
  destruct (referencesOf_total (JS.toUpperCase columnDef)) as [fk Hfk].
  rewrite Hfk. cbn [bind]. now eexists.
Qed.

Lemma columnsLoop_total (columns : list str) :
  forall fields relationships,
    exists r, columnsLoop columns fields relationships = Ok r.
Proof.
  induction columns as [|column columns IH]; intros fields relationships;
    simpl; [now eexists|].
  destruct (parseColumnDefinition_total (JS.trim column)) as [[f|] Hf];
    rewrite Hf; cbn [bind]; apply IH.
Qed.

Lemma statementsLoop_total (matches : list (list str)) :
  Forall (fun captures => List.length captures = 2) matches ->
  forall tables relationships,
    exists r, statementsLoop matches tables relationships = Ok r.
Proof.
  induction 1 as [|captures matches Hc _ IH]; intros tables relationships;
    simpl; [now eexists|].
  destruct captures as [|m1 [|m2 [|? ?]]]; try discriminate Hc.
  cbn [Regex.capture Nat.sub nth_error defined bind].
  unfold parseColumnDefinitions.
  destruct (columnsLoop_total (splitColumnDefinitions m2) [] []) as [c Hc'].
  rewrite Hc'. cbn [bind]. apply IH.
Qed.

Lemma parseClean_total (text : str) : exists ps, parseClean text = Ok ps.
Proof.
  unfold parseClean.
  destruct (statementsLoop_total (Regex.execAll createTableRegex 0 text)
              (execAll_captures createTableRegex text 0) [] []) as [p Hp].
  rewrite Hp. cbn [bind].
  destruct (detectImplicitRelationships (fst p) (snd p)). now eexists.
Qed.

(** Text at no position of which the pattern matches is passed over. *)
Lemma execAll_skips (pre rest : str) :
  Spec.noMatchStartsIn pre rest = true ->
  Regex.execAll createTableRegex 0 (pre ++ rest)
  = Regex.execAll createTableRegex 0 rest.
Proof.
  induction pre as [|c pre IH]; simpl; intros H; [reflexivity|].
  destruct (Regex.matchAt createTableRegex (c :: pre ++ rest));
    [discriminate|].
  now apply IH.
Qed.

End Totality.

Example parse_empty_input :
  Inference.parseSQL []
  = Ok {| ParsedSchema.tables := []; ParsedSchema.relationships := [] |}
  /\ Inference.parseSQL (lit "not SQL at all; (,,) CREATE TABLE;")
     = Ok {| ParsedSchema.tables := []; ParsedSchema.relationships := [] |}.
Proof. split; vm_compute; reflexivity. Qed.

(** C6 as stated fails in its second part.  The statement
  [CREATE TABLE foo (id INT;] has no closing parenthesis and does not match
  the pattern; the statement [CREATE TABLE bar (id INT);] that follows it
  parses, alone, to the table [bar].  Together they parse to the single
  table [foo]: the first statement is not skipped, it runs on to the first
  [);] and takes the second statement into its body. *)
Lemma unterminated_statement_swallows_next :
  Regex.exec SchemaParser.createTableRegex (lit "CREATE TABLE foo (id INT;")
  = None
  /\ (exists ps,
        Inference.parseSQL (lit "CREATE TABLE bar (id INT);") = Ok ps
        /\ Spec.tableNames ps = [lit "bar"])
  /\ (exists ps,
        Inference.parseSQL
          (lit "CREATE TABLE foo (id INT; CREATE TABLE bar (id INT);") = Ok ps
        /\ Spec.tableNames ps = [lit "foo"]
        /\ ~ In (lit "bar") (Spec.tableNames ps)).
Proof.
  split; [vm_compute; reflexivity|]. split.
  - eexists. split; vm_compute; reflexivity.
  - eexists. split; [vm_compute; reflexivity|].
    split; [vm_compute; reflexivity|].
    vm_compute. intros [H|[]]. discriminate H.
Qed.

(** C6 (amended).  [parseSQL] returns a schema for every input and never
  raises.  Text of the cleaned input at no position of which the pattern
  [CREATE TABLE name ( ... );] matches is skipped: the result is that of
  the text that follows it.  (A match runs from [CREATE TABLE name (] to
  the first [);] after it, whatever lies between.) *)
Theorem parseSQL_total_and_skips :
  (forall sql : str, exists ps, Inference.parseSQL sql = Ok ps)
  /\ (forall sql pre rest : str,
         SchemaParser.cleanSQL sql = pre ++ rest ->
         Spec.noMatchStartsIn pre rest = true ->
         Inference.parseSQL sql = Inference.parseClean rest).
Proof.
  split.
  - intros sql. apply parseClean_total.
  - intros sql pre rest Hclean Hskip.
    unfold Inference.parseSQL, Inference.parseClean.
    now rewrite Hclean, (execAll_skips pre rest Hskip).
Qed.

Lemma parseSQL_total_and_skips_witness :
  Inference.parseSQL
    (lit "Here is your schema: CREATE TABLE; DROP TABLE a (x);  CREATE TABLE a (x INT);")
  = Inference.parseClean (lit "CREATE TABLE a (x INT);").
Proof.
  apply (proj2 parseSQL_total_and_skips
           (lit "Here is your schema: CREATE TABLE; DROP TABLE a (x);  CREATE TABLE a (x INT);")
           (lit "Here is your schema: CREATE TABLE; DROP TABLE a (x); ")
           (lit "CREATE TABLE a (x INT);")).
  - vm_compute. reflexivity.
  - vm_compute. reflexivity.
Defined.

(** ** The parsing loops: where fields and relationships come from *)

Section Loops.

Import SchemaParser Inference.

Lemma columnsLoop_spec (columns : list str) :
  forall fields relationships fs rs,
    columnsLoop columns fields relationships = Ok (fs, rs) ->
    exists new,
      fs = fields ++ new
      /\ rs = relationships ++ Spec.columnRelationships new
      /\ Forall Spec.FromClause new.
Proof.
  induction columns as [|column columns IH];
    intros fields relationships fs rs H; simpl in H.
  - injection H as <- <-. exists []. now rewrite !app_nil_r.
  - destruct (parseColumnDefinition (JS.trim column)) as [[f|]|e] eqn:Ef;
      cbn [bind] in H; [| |discriminate].
    + apply IH in H as (new & -> & -> & Hnew).
      exists (f :: new). repeat split.
      * now rewrite <- app_assoc.
      * unfold Spec.columnRelationships. cbn [flat_map].
        destruct (TableField.foreignKey f);
          now rewrite <- ?app_assoc, ?app_nil_r.
      * constructor; [now exists (JS.trim column)|exact Hnew].
    + now apply IH in H.
Qed.

Lemma relationships_of_columns (tableName : str) (fields : list TableField.t) :
  map (fun rel => mkRelationship tableName (fromField rel) (toTable rel)
                                 (toField rel))
      (Spec.columnRelationships fields)
  = Spec.fkTuplesOf tableName fields.
Proof.
  unfold Spec.columnRelationships, Spec.fkTuplesOf.
  induction fields as [|f fields IH]; simpl; [reflexivity|].
  rewrite map_app, IH. f_equal.
  unfold Spec.fkTuple. now destruct (TableField.foreignKey f).
Qed.

Lemma statementsLoop_spec (matches : list (list str)) :
  forall tables relationships ts rs,
    statementsLoop matches tables relationships = Ok (ts, rs) ->
    exists new,
      ts = tables ++ new
      /\ rs = relationships ++ Spec.fkTuples new
      /\ Forall (fun t => Forall Spec.FromClause (TableSchema.fields t)) new.
Proof.
  induction matches as [|captures matches IH];
    intros tables relationships ts rs H; simpl in H.
  - injection H as <- <-. exists []. now rewrite !app_nil_r.
  - destruct (defined (Regex.capture captures 1)) as [m1|e];
      cbn [bind] in H; [|discriminate].
    destruct (defined (Regex.capture captures 2)) as [m2|e];
      cbn [bind] in H; [|discriminate].
    unfold parseColumnDefinitions in H.
    destruct (columnsLoop (splitColumnDefinitions m2) [] [])
      as [[fs crs]|e] eqn:Ec; cbn [bind] in H; [|discriminate].
    apply columnsLoop_spec in Ec as (new & -> & -> & Hnew).
    cbn [fst snd app] in H. rewrite relationships_of_columns in H.
    apply IH in H as (newT & -> & -> & HnewT).
    exists ({| TableSchema.name := JS.toLowerCase m1;
               TableSchema.fields := new |} :: newT).
    repeat split.
    + now rewrite <- app_assoc.
    + rewrite <- app_assoc. reflexivity.
    + constructor; [exact Hnew|exact HnewT].
Qed.

(** *** The inference pass *)

Lemma findTarget_spec (entries : list (str * list str)) :
  forall tableMap fromTable f potential relationships f' rs,
    TableField.foreignKey f = None ->
    findTarget entries tableMap fromTable f potential relationships = (f', rs) ->
    exists added, rs = relationships ++ added /\ Spec.Inferred fromTable f f' added.
Proof.
  induction entries as [|[tableName variations] entries IH];
    intros tableMap fromTable f potential relationships f' rs Hfk H;
    simpl in H.
  - injection H as <- <-. exists []. rewrite app_nil_r. split; [reflexivity|].
    now left.
  - destruct (existsb _ variations); [|now apply IH in H].
    destruct (mapGet tableName tableMap) as [pkField|]; [|now apply IH in H].
    destruct (JS.truthy pkField); [|now apply IH in H].
    destruct (find _ relationships).
    + injection H as <- <-. exists []. rewrite app_nil_r.
      split; [reflexivity|]. now left.
    + injection H as <- <-. eexists. split; [reflexivity|].
      right. split; [exact Hfk|]. now exists tableName, pkField.
Qed.

Lemma visitField_spec (m : Maps) (fromTable : str) (f f' : TableField.t)
      (relationships rs : list SchemaRelationship.t) :
  visitField m fromTable f relationships = (f', rs) ->
  exists added, rs = relationships ++ added /\ Spec.Inferred fromTable f f' added.
Proof.
  unfold visitField. intros H.
  destruct (TableField.foreignKey f) eqn:Hfk.
  - injection H as <- <-. exists []. rewrite app_nil_r.
    split; [reflexivity|]. now left.
  - destruct (_ && _).
    + now apply findTarget_spec in H.
    + injection H as <- <-. exists []. rewrite app_nil_r.
      split; [reflexivity|]. now left.
Qed.

Lemma Inferred_fkTuple (fromTable : str) (f f' : TableField.t)
      (added : list SchemaRelationship.t) :
  Spec.Inferred fromTable f f' added ->
  Spec.fkTuple fromTable f' = Spec.fkTuple fromTable f ++ added.
Proof.
  intros [[-> ->]|(Hfk & tableName & pkField & -> & ->)].
  - now rewrite app_nil_r.
  - unfold Spec.fkTuple. rewrite Hfk. reflexivity.
Qed.

Lemma Inferred_sameColumn (fromTable : str) (f f' : TableField.t)
      (added : list SchemaRelationship.t) :
  Spec.Inferred fromTable f f' added -> Spec.sameColumn f f'.
Proof.
  intros [[-> ->]|(Hfk & tableName & pkField & -> & ->)];
    repeat split.
Qed.

Lemma visitFields_spec (m : Maps) (fromTable : str)
      (fields : list TableField.t) :
  forall relationships fields' rs,
    visitFields m fromTable fields relationships = (fields', rs) ->
    exists added,
      rs = relationships ++ added
      /\ Permutation (Spec.fkTuplesOf fromTable fields')
                     (Spec.fkTuplesOf fromTable fields ++ added)
      /\ Forall2 Spec.sameColumn fields fields'.
Proof.
  induction fields as [|f fields IH]; intros relationships fields' rs H;
    simpl in H.
  - injection H as <- <-. exists []. rewrite app_nil_r.
    repeat split; constructor.
  - destruct (visitField m fromTable f relationships) as [f1 r1] eqn:Ef.
    destruct (visitFields m fromTable fields r1) as [fs1 r2] eqn:Efs.
    injection H as <- <-.
    apply visitField_spec in Ef as (a1 & -> & Hinf).
    apply IH in Efs as (a2 & -> & Hperm & Hsame).
    exists (a1 ++ a2). repeat split.
    + now rewrite app_assoc.
    + unfold Spec.fkTuplesOf in *. cbn [flat_map].
      rewrite (Inferred_fkTuple _ _ _ _ Hinf), <- !app_assoc.
      apply Permutation_app_head.
      rewrite Hperm, !app_assoc.
      apply Permutation_app_tail, Permutation_app_comm.
    + constructor; [now apply Inferred_sameColumn in Hinf|exact Hsame].
Qed.

Lemma visitTables_spec (m : Maps) (tables : list TableSchema.t) :
  forall relationships tables' rs,
    visitTables m tables relationships = (tables', rs) ->
    exists added,
      rs = relationships ++ added
      /\ Permutation (Spec.fkTuples tables') (Spec.fkTuples tables ++ added)
      /\ Forall2 Spec.sameTable tables tables'.
Proof.
  induction tables as [|t tables IH]; intros relationships tables' rs H;
    simpl in H.
  - injection H as <- <-. exists []. rewrite app_nil_r.
    repeat split; constructor.
  - destruct (visitFields m (TableSchema.name t) (TableSchema.fields t)
                          relationships) as [fs1 r1] eqn:Ef.
    destruct (visitTables m tables r1) as [ts1 r2] eqn:Ets.
    injection H as <- <-.
    apply visitFields_spec in Ef as (a1 & -> & Hp1 & Hs1).
    apply IH in Ets as (a2 & -> & Hp2 & Hs2).
    exists (a1 ++ a2). repeat split.
    + now rewrite app_assoc.
    + unfold Spec.fkTuples in *.
      cbn [flat_map TableSchema.name TableSchema.fields].
      rewrite Hp1, Hp2, <- !app_assoc.
      apply Permutation_app_head.
      rewrite !app_assoc.
      apply Permutation_app_tail, Permutation_app_comm.
    + constructor; [|exact Hs2]. split; [reflexivity|exact Hs1].
Qed.

(** The schema that [parseSQL] returns: its relationships are the foreign
    keys of its fields, and its fields are built from clauses. *)
Lemma parseClean_spec (text : str) (ps : ParsedSchema.t) :
  parseClean text = Ok ps ->
  Permutation (ParsedSchema.relationships ps)
              (Spec.fkTuples (ParsedSchema.tables ps))
  /\ exists parsed,
      Forall (fun t => Forall Spec.FromClause (TableSchema.fields t)) parsed
      /\ Forall2 Spec.sameTable parsed (ParsedSchema.tables ps).
Proof.
  unfold parseClean. intros H.
  destruct (statementsLoop (Regex.execAll createTableRegex 0 text) [] [])
    as [[ts rs]|e] eqn:Es;
    cbn [bind] in H; [|discriminate].
  apply statementsLoop_spec in Es as (new & -> & -> & Hnew).
  cbn [fst snd app] in H.
  unfold detectImplicitRelationships in H.
  destruct (visitTables (buildMaps new) new (Spec.fkTuples new))
    as [ts' rs'] eqn:Ev.
  injection H as <-. cbn [ParsedSchema.tables ParsedSchema.relationships].
  apply visitTables_spec in Ev as (added & -> & Hperm & Hsame).
  split; [now symmetry|]. now exists new.
Qed.

End Loops.

(** ** C5: [nullable] and the text of the clause *)

Lemma Forall2_In_r {A B : Type} (R : A -> B -> Prop) (l : list A) (l' : list B)
      (y : B) :
  Forall2 R l l' -> In y l' -> exists x, In x l /\ R x y.
Proof.
  induction 1 as [|a b l l' Hab _ IH]; simpl; [tauto|].
  intros [<-|Hy].
  - exists a. tauto.
  - destruct (IH Hy) as (x & Hx & Hr). exists x. tauto.
Qed.

Lemma Forall2_compose {X Y Z : Type} (R : X -> Y -> Prop) (S : Y -> Z -> Prop)
      (T : X -> Z -> Prop) (l1 : list X) (l2 : list Y) :
  (forall x y z, R x y -> S y z -> T x z) ->
  Forall2 R l1 l2 -> forall l3, Forall2 S l2 l3 -> Forall2 T l1 l3.
Proof.
  intros H. induction 1 as [|x y l1 l2 Hxy _ IH]; intros l3 H3;
    inversion H3; subst; constructor; eauto.
Qed.

(** Every field of a parsed schema is a field built from a clause, up to an
  inferred foreign key. *)
Lemma parsed_field_from_clause (sql : str) (ps : ParsedSchema.t)
      (t : TableSchema.t) (f : TableField.t) :
  Inference.parseSQL sql = Ok ps ->
  In t (ParsedSchema.tables ps) ->
  In f (TableSchema.fields t) ->
  exists columnDef f0,
    SchemaParser.parseColumnDefinition columnDef = Ok (Some f0)
    /\ Spec.sameColumn f0 f.
Proof.
  intros Hparse Ht Hf.
  apply parseClean_spec in Hparse as (_ & parsed & Hfrom & Hsame).
  destruct (Forall2_In_r _ _ _ _ Hsame Ht) as (t0 & Ht0 & _ & Hfields).
  destruct (Forall2_In_r _ _ _ _ Hfields Hf) as (f0 & Hf0 & Hcol).
  rewrite Forall_forall in Hfrom. specialize (Hfrom t0 Ht0).
  rewrite Forall_forall in Hfrom. destruct (Hfrom f0 Hf0) as [columnDef Hc].
  now exists columnDef, f0.
Qed.

(** C5 as stated fails: the column [id UUID PRIMARY KEY] is parsed to a field
  that is a primary key and is nullable. *)
Lemma primary_key_stays_nullable :
  exists ps,
    Inference.parseSQL (lit "CREATE TABLE t (id UUID PRIMARY KEY);") = Ok ps
    /\ map (fun f => (TableField.name f, TableField.primaryKey f,
                      TableField.nullable f))
           (Spec.allFields ps)
       = [ (lit "id", true, true) ].
Proof.
  eexists. split; vm_compute; reflexivity.
Qed.

(** The fields that the loop of [parseColumnDefinitions] pushes are, in
  order, the fields of the clauses for which [parseColumnDefinition] returns
  one. *)
Lemma columnsLoop_clauses (columns : list str) :
  forall fields relationships fs rs,
    SchemaParser.columnsLoop columns fields relationships = Ok (fs, rs) ->
    exists new,
      fs = fields ++ new
      /\ Forall2
           (fun columnDef f =>
              SchemaParser.parseColumnDefinition columnDef = Ok (Some f))
           (filter Spec.givesField (map JS.trim columns)) new.
Proof.
  induction columns as [|column columns IH];
    intros fields relationships fs rs H; cbn [SchemaParser.columnsLoop] in H.
  - injection H as <- <-. exists []. rewrite app_nil_r.
    split; [reflexivity|constructor].
  - cbn [map filter]. unfold Spec.givesField at 1.
    destruct (SchemaParser.parseColumnDefinition (JS.trim column))
      as [[f|]|e] eqn:Ef; cbn [bind] in H; [| |discriminate].
    + apply IH in H as (new & -> & Hnew). exists (f :: new).
      split; [now rewrite <- app_assoc|]. constructor; assumption.
    + now apply IH in H.
Qed.

(** The tables that the loop of [parseSQL] pushes are, in order, those of
  the matches: the name is the first capture in lower case, and the fields
  are those of the clauses of the second. *)
Lemma statementsLoop_clauses (matches : list (list str)) :
  forall tables relationships ts rs,
    Inference.statementsLoop matches tables relationships = Ok (ts, rs) ->
    exists new,
      ts = tables ++ new
      /\ Forall2
           (fun statement t =>
              option_map JS.toLowerCase (Regex.capture statement 1)
              = Some (TableSchema.name t)
              /\ Forall2
                   (fun columnDef f =>
                      SchemaParser.parseColumnDefinition columnDef
                      = Ok (Some f))
                   (Spec.columnClauses statement) (TableSchema.fields t))
           matches new.
Proof.
  induction matches as [|captures matches IH];
    intros tables relationships ts rs H; cbn [Inference.statementsLoop] in H.
  - injection H as <- <-. exists []. rewrite app_nil_r.
    split; [reflexivity|constructor].
  - destruct (Regex.capture captures 1) as [m1|] eqn:E1;
      cbn [SchemaParser.defined bind] in H; [|discriminate].
    destruct (Regex.capture captures 2) as [m2|] eqn:E2;
      cbn [SchemaParser.defined bind] in H; [|discriminate].
    unfold SchemaParser.parseColumnDefinitions in H.
    destruct (SchemaParser.columnsLoop
                (SchemaParser.splitColumnDefinitions m2) [] [])
      as [[fs crs]|e] eqn:Ec; cbn [bind] in H; [|discriminate].
    apply columnsLoop_clauses in Ec as (new & -> & Hnew).
    cbn [fst snd app] in H.
    apply IH in H as (newT & -> & HnewT).
    exists ({| TableSchema.name := JS.toLowerCase m1;
               TableSchema.fields := new |} :: newT).
    split; [now rewrite <- app_assoc|].
    constructor; [|exact HnewT].
    cbn [TableSchema.name TableSchema.fields]. rewrite E1.
    split; [reflexivity|].
    unfold Spec.columnClauses, Spec.fieldClauses. rewrite E2. exact Hnew.
Qed.

(** C5 (amended).  The tables of a schema returned by [parseSQL] are, in
  order, those of the statements that the pattern matches in the cleaned
  text, and the fields of each table are, in order, those of the clauses of
  the statement's body from which a field is built: the field is the one
  that [parseColumnDefinition] returns for its clause, up to an inferred
  foreign key.  When the type token of that clause is not [SERIAL] or
  [BIGSERIAL], [nullable] is false exactly when the clause contains
  [NOT NULL] (in any case): being a primary key does not change
  [nullable]. *)
Theorem nullable_iff_not_null_in_clause :
  forall (sql : str) (ps : ParsedSchema.t),
    Inference.parseSQL sql = Ok ps ->
    Forall2
      (fun statement t =>
         option_map JS.toLowerCase (Regex.capture statement 1)
         = Some (TableSchema.name t)
         /\ Forall2
              (fun columnDef f =>
                 (exists f0,
                     SchemaParser.parseColumnDefinition columnDef
                     = Ok (Some f0)
                     /\ Spec.sameColumn f0 f)
                 /\ (Spec.isSerialToken columnDef = false ->
                     (TableField.nullable f = false
                      <-> JS.includes (lit "NOT NULL")
                                      (JS.toUpperCase columnDef) = true)))
              (Spec.columnClauses statement) (TableSchema.fields t))
      (Spec.statements sql) (ParsedSchema.tables ps).
Proof.
  intros sql ps H. unfold Inference.parseSQL, Inference.parseClean in H.
  fold (Spec.statements sql) in H.
  destruct (Inference.statementsLoop (Spec.statements sql) [] [])
    as [[ts rs]|e] eqn:Es; cbn [bind] in H; [|discriminate].
  apply statementsLoop_clauses in Es as (new & -> & Hnew).
  cbn [fst snd app] in H.
  unfold Inference.detectImplicitRelationships in H.
  destruct (Inference.visitTables (Inference.buildMaps new) new rs)
    as [ts' rs'] eqn:Ev.
  injection H as <-. cbn [ParsedSchema.tables].
  apply visitTables_spec in Ev as (added & _ & _ & Hsame).
  refine (Forall2_compose _ _ _ _ _ _ Hnew _ Hsame).
  intros statement t0 t [Hname Hfields] [Hn Hf].
  split; [now rewrite Hn|].
  refine (Forall2_compose _ _ _ _ _ _ Hfields _ Hf).
  intros columnDef f0 f Hc Hcol. split; [now exists f0|].
  intros _. destruct Hcol as (_ & _ & -> & _).
  apply parseColumnDefinition_field in Hc
    as (p0 & p1 & type & fk & _ & _ & _ & _ & ->).
  cbn [TableField.nullable]. apply negb_false_iff.
Qed.

(** The two statements of the end-to-end input and the five fields of its
  schema, [user_id] with its inferred foreign key. *)
Lemma nullable_iff_not_null_in_clause_witness :
  Forall2
    (fun statement t =>
       option_map JS.toLowerCase (Regex.capture statement 1)
       = Some (TableSchema.name t)
       /\ Forall2
            (fun columnDef f =>
               (exists f0,
                   SchemaParser.parseColumnDefinition columnDef
                   = Ok (Some f0)
                   /\ Spec.sameColumn f0 f)
               /\ (Spec.isSerialToken columnDef = false ->
                   (TableField.nullable f = false
                    <-> JS.includes (lit "NOT NULL")
                                    (JS.toUpperCase columnDef) = true)))
            (Spec.columnClauses statement) (TableSchema.fields t))
    (Spec.statements Samples.endToEndInput)
    (ParsedSchema.tables Samples.endToEndSchema).
Proof.
  apply (nullable_iff_not_null_in_clause
           Samples.endToEndInput Samples.endToEndSchema).
  vm_compute. reflexivity.
Defined.

(** ** C4: relationships and foreign keys *)

Section Consistency.

Lemma columnKeys_columns (tables : list TableSchema.t) :
  Spec.columnKeys tables
  = map (fun c => (fst c, TableField.name (snd c))) (Spec.columns tables).
Proof.
  unfold Spec.columnKeys, Spec.columns.
  induction tables as [|t tables IH]; simpl; [reflexivity|].
  now rewrite map_app, map_map, IH.
Qed.

Lemma fkTuples_columns (tables : list TableSchema.t) :
  Spec.fkTuples tables
  = flat_map (fun c => Spec.fkTuple (fst c) (snd c)) (Spec.columns tables).
Proof.
  unfold Spec.fkTuples, Spec.columns, Spec.fkTuplesOf.
  induction tables as [|t tables IH]; simpl; [reflexivity|].
  rewrite flat_map_app, IH. f_equal.
  induction (TableSchema.fields t) as [|f fs IHf]; simpl; [reflexivity|].
  now rewrite IHf.
Qed.

(** When no two elements have the same key and each element yields at most
    values of its own key, without repetition, no value is repeated. *)
Lemma NoDup_flat_map_key {X R K : Type} (key : X -> K) (keyR : R -> K)
      (g : X -> list R) (l : list X) :
  (forall x r, In r (g x) -> keyR r = key x) ->
  (forall x, NoDup (g x)) ->
  NoDup (map key l) -> NoDup (flat_map g l).
Proof.
  intros Hkey Hg. induction l as [|x l IH]; simpl; intros H.
  - constructor.
  - apply NoDup_cons_iff in H as [Hx Hl].
    apply NoDup_app; [apply Hg|now apply IH|].
    intros r Hr Hin. apply in_flat_map in Hin as (x' & Hx' & Hr').
    apply Hx. apply in_map_iff. exists x'. split; [|exact Hx'].
    now rewrite <- (Hkey x' r Hr'), <- (Hkey x r Hr).
Qed.

Lemma NoDup_fkTuples (tables : list TableSchema.t) :
  NoDup (Spec.columnKeys tables) -> NoDup (Spec.fkTuples tables).
Proof.
  rewrite columnKeys_columns, fkTuples_columns.
  apply (NoDup_flat_map_key
           (fun c => (fst c, TableField.name (snd c)))
           (fun r => (SchemaRelationship.fromTable r,
                      SchemaRelationship.fromField r))).
  - intros [n f] r. unfold Spec.fkTuple. cbn [fst snd].
    destruct (TableField.foreignKey f); simpl; [|tauto].
    intros [<-|[]]. reflexivity.
  - intros [n f]. unfold Spec.fkTuple. cbn [fst snd].
    destruct (TableField.foreignKey f); repeat constructor. simpl. tauto.
Qed.

End Consistency.

(** C4 as stated fails: a column written twice gives two fields with the same
  foreign key and two equal relationships, so that a relationship has two
  matching fields, not exactly one. *)
Lemma repeated_column_breaks_consistency :
  exists ps,
    Inference.parseSQL
      (lit "CREATE TABLE b (x INT REFERENCES a(id), x INT REFERENCES a(id));")
    = Ok ps
    /\ In (Samples.rel "b" "x" "a" "id") (ParsedSchema.relationships ps)
    /\ Spec.occurrences (Samples.rel "b" "x" "a" "id")
                        (Spec.fkTuples (ParsedSchema.tables ps)) = 2
    /\ ~ Spec.Consistent ps.
Proof.
  eexists. split; [vm_compute; reflexivity|].
  split; [left; reflexivity|].
  split; [vm_compute; reflexivity|].
  intros [H _]. specialize (H _ (or_introl eq_refl)).
  vm_compute in H. discriminate H.
Qed.

(** C4 (amended).  In every schema returned by [parseSQL] the list of
  relationships is a permutation of the foreign keys of the fields, each
  taken with its table and column: every relationship has a field with
  that foreign key and every field with a foreign key has its relationship.
  Both are unique ("exactly one") when no two columns of the schema have
  the same table name and column name. *)
Theorem relationships_are_the_foreign_keys :
  forall (sql : str) (ps : ParsedSchema.t),
    Inference.parseSQL sql = Ok ps ->
    Permutation (ParsedSchema.relationships ps)
                (Spec.fkTuples (ParsedSchema.tables ps))
    /\ (NoDup (Spec.columnKeys (ParsedSchema.tables ps)) -> Spec.Consistent ps).
Proof.
  intros sql ps Hparse.
  apply parseClean_spec in Hparse as [Hperm _].
  split; [exact Hperm|].
  intros Hnodup. apply NoDup_fkTuples in Hnodup.
  pose proof (proj1 (NoDup_count_occ' Spec.relationship_eq_dec _) Hnodup)
    as Hone.
  pose proof (proj1 (Permutation_count_occ Spec.relationship_eq_dec _ _) Hperm)
    as Hcount.
  unfold Spec.Consistent, Spec.occurrences. split; intros r Hr.
  - apply Hone. now apply (Permutation_in _ Hperm).
  - rewrite Hcount. now apply Hone.
Qed.

Lemma relationships_are_the_foreign_keys_witness :
  Permutation (ParsedSchema.relationships Samples.endToEndSchema)
              (Spec.fkTuples (ParsedSchema.tables Samples.endToEndSchema))
  /\ Spec.Consistent Samples.endToEndSchema.
Proof.
  destruct (relationships_are_the_foreign_keys
              Samples.endToEndInput Samples.endToEndSchema) as [Hperm Hcons].
  - vm_compute. reflexivity.
  - split; [exact Hperm|]. apply Hcons. vm_compute.
    repeat (constructor; [simpl; intuition discriminate|]). constructor.
Defined.

(** * Further properties of the code *)

(** ** The layout of a loaded schema *)

Section Layout.

Import DiagramService.

Local Open Scope Z_scope.

Lemma ceilSqrt_pos (n : Z) : 1 <= n -> 1 <= ceilSqrt n.
Proof.
  intros H. unfold ceilSqrt.
  pose proof (Z.sqrt_nonneg n) as H0.
  assert (0 < Z.sqrt n) by (apply Z.sqrt_pos; lia).
  destruct (Z.sqrt n * Z.sqrt n =? n); lia.
Qed.

Lemma actualCols_range (n : Z) :
  1 <= n -> 1 <= Z.min (Z.min 4 n) (ceilSqrt n) <= 4.
Proof.
  intros H. pose proof (ceilSqrt_pos n H). lia.
Qed.

Lemma calculateTablePosition_inj (total i j : Z) :
  1 <= total -> 0 <= i -> 0 <= j ->
  calculateTablePosition i total = calculateTablePosition j total ->
  i = j.
Proof.
  intros Ht Hi Hj. cbv beta zeta delta [calculateTablePosition].
  pose proof (actualCols_range total Ht) as Hc.
  set (c := Z.min (Z.min 4 total) (ceilSqrt total)) in *.
  intros H.
  assert (Hx := f_equal fst H). assert (Hy := f_equal snd H).
  cbn [fst snd] in Hx, Hy.
  rewrite (Z.div_mod i c), (Z.div_mod j c) by lia.
  assert (i mod c = j mod c) by lia.
  assert (i / c = j / c) by lia.
  congruence.
Qed.

Lemma calculateTablePosition_column (total i : Z) :
  1 <= total -> 0 <= i ->
  In (fst (calculateTablePosition i total)) [150; 550; 950; 1350]
  /\ 150 <= snd (calculateTablePosition i total).
Proof.
  intros Ht Hi. cbv beta zeta delta [calculateTablePosition].
  pose proof (actualCols_range total Ht) as Hc.
  set (c := Z.min (Z.min 4 total) (ceilSqrt total)) in *.
  cbn [fst snd].
  pose proof (Z.mod_pos_bound i c ltac:(lia)) as Hm.
  assert (Hd : 0 <= i / c) by (apply Z.div_pos; lia).
  split; [|lia].
  assert (Hcases : i mod c = 0 \/ i mod c = 1 \/ i mod c = 2 \/ i mod c = 3)
    by lia.
  simpl. destruct Hcases as [-> | [-> | [-> | ->]]]; simpl; tauto.
Qed.

Lemma convertTables_positions (current : DiagramData.t)
      (relationships : list SchemaRelationship.t) (total : nat)
      (tables : list TableSchema.t) :
  forall index,
    map DiagramTable.position
        (convertTables current false relationships total index tables)
    = map (fun i => calculateTablePosition (Z.of_nat i) (Z.of_nat total))
          (seq index (List.length tables)).
Proof.
  induction tables as [|t tables IH]; intros index; simpl; [reflexivity|].
  now rewrite IH.
Qed.

End Layout.

(** X1.  When a schema is loaded with [updateFromSchema] without keeping
    positions, no two tables are placed at the same position, and every
    table is in one of four columns (x = 150, 550, 950 or 1350) at
    y >= 150. *)
Theorem loaded_tables_do_not_overlap :
  forall (current : DiagramData.t) (tables : list TableSchema.t)
         (relationships : list SchemaRelationship.t),
    let positions :=
      map DiagramTable.position
          (DiagramData.tables
             (DiagramService.updateFromSchema current tables relationships
                                              false)) in
    NoDup positions
    /\ Forall (fun p => In (fst p) [150; 550; 950; 1350]%Z /\ (150 <= snd p)%Z)
              positions.
Proof.
  intros current tables relationships positions. subst positions.
  unfold DiagramService.updateFromSchema. cbn [DiagramData.tables].
  rewrite convertTables_positions.
  set (n := List.length tables).
  split.
  - apply NoDup_map_NoDup_ForallPairs; [|apply seq_NoDup].
    intros i j Hi Hj H. apply in_seq in Hi, Hj.
    apply Nat2Z.inj.
    apply (calculateTablePosition_inj (Z.of_nat n)); [lia|lia|lia|exact H].
  - apply Forall_forall. intros p Hp.
    apply in_map_iff in Hp as (i & <- & Hi). apply in_seq in Hi.
    apply calculateTablePosition_column; lia.
Qed.

(** ** Editing the diagram *)

Lemma eqb_neq (a b : str) : JS.eqb a b = false <-> a <> b.
Proof.
  rewrite <- eqb_eq. destruct (JS.eqb a b); split; congruence.
Qed.

Lemma eqb_refl (a : str) : JS.eqb a a = true.
Proof. now apply eqb_eq. Qed.

Section Editing.

Import DiagramService.

Lemma find_filter_other {A : Type} (p q : A -> bool) (l : list A) :
  (forall x, p x = true -> q x = true) ->
  find p (filter q l) = find p l.
Proof.
  intros H. induction l as [|x l IH]; simpl; [reflexivity|].
  destruct (q x) eqn:Eq; simpl.
  - now rewrite IH.
  - destruct (p x) eqn:Ep; [|exact IH].
    apply H in Ep. congruence.
Qed.

Lemma filter_idem {A : Type} (q : A -> bool) (l : list A) :
  filter q (filter q l) = filter q l.
Proof.
  induction l as [|x l IH]; simpl; [reflexivity|].
  destruct (q x) eqn:Eq; simpl; [|exact IH]. now rewrite Eq, IH.
Qed.

(** What [findIndex] finds is the element that [find] returns. *)
Lemma findIndex_find {A : Type} (p : A -> bool) (l : list A) :
  match findIndex p l with
  | Some i => exists x, nth_error l i = Some x /\ find p l = Some x
  | None => find p l = None
  end.
Proof.
  induction l as [|x l IH]; simpl; [reflexivity|].
  destruct (p x); [now exists x|].
  destruct (findIndex p l) as [i|]; simpl; exact IH.
Qed.

Lemma setAt_length {A : Type} (x : A) (l : list A) :
  forall i, List.length (setAt i x l) = List.length l.
Proof.
  induction l as [|y l IH]; intros [|i]; simpl; auto.
Qed.

(** Writing at the index found for [p] an element that satisfies [p]. *)
Lemma find_setAt_same {A : Type} (p : A -> bool) (x : A) (l : list A) :
  forall i, findIndex p l = Some i -> p x = true ->
            find p (setAt i x l) = Some x.
Proof.
  induction l as [|y l IH]; intros i; simpl; [discriminate|].
  destruct (p y) eqn:Ey.
  - intros H Hx. injection H as <-. simpl. now rewrite Hx.
  - destruct (findIndex p l) as [j|]; simpl; [|discriminate].
    intros H Hx. injection H as <-. simpl. rewrite Ey. now apply IH.
Qed.

(** A search for something else does not see the change. *)
Lemma find_setAt_other {A : Type} (p q : A -> bool) (x : A) (l : list A) :
  (forall y, p y = true -> q y = false) -> q x = false ->
  forall i, findIndex p l = Some i -> find q (setAt i x l) = find q l.
Proof.
  intros Hpq Hx. induction l as [|y l IH]; intros i; simpl; [discriminate|].
  destruct (p y) eqn:Ey.
  - intros H. injection H as <-. simpl. now rewrite Hx, (Hpq y Ey).
  - destruct (findIndex p l) as [j|]; simpl; [|discriminate].
    intros H. injection H as <-. simpl. now rewrite IH.
Qed.

Lemma find_app {A : Type} (p : A -> bool) (l l' : list A) :
  find p (l ++ l')
  = match find p l with Some x => Some x | None => find p l' end.
Proof.
  induction l as [|x l IH]; simpl; [reflexivity|].
  now destruct (p x).
Qed.

(** Only the position of a table changes when it is moved. *)
Lemma moveFirst_names (tableName : str) (position : Z * Z)
      (tables : list DiagramTable.t) :
  Forall2 (fun t t' =>
             DiagramTable.name t' = DiagramTable.name t
             /\ DiagramTable.fields t' = DiagramTable.fields t)
          tables (moveFirst tableName position tables).
Proof.
  induction tables as [|t tables IH]; simpl; [constructor|].
  destruct (JS.eqb (DiagramTable.name t) tableName).
  - constructor; [now split|].
    clear. induction tables; constructor; auto.
  - constructor; [now split|exact IH].
Qed.

(** The statement of a table depends on its name, on its fields and on the
    relationships of the diagram. *)
Lemma createStatement_ext (d d' : DiagramData.t) (provider : str)
      (syntaxConfig : SQLSyntaxMapper.ConfigValue) (t t' : DiagramTable.t) :
  DiagramData.relationships d' = DiagramData.relationships d ->
  DiagramTable.name t' = DiagramTable.name t ->
  DiagramTable.fields t' = DiagramTable.fields t ->
  createStatement d' provider syntaxConfig t'
  = createStatement d provider syntaxConfig t.
Proof.
  intros Hr Hn Hf. unfold createStatement. rewrite Hn, Hf.
  f_equal. apply mapM_ext. intros f.
  unfold fieldDefinition. now rewrite Hr, Hn.
Qed.

Lemma mapM_Forall2 {A B : Type} (f g : A -> result B) (l l' : list A) :
  Forall2 (fun a a' => g a' = f a) l l' -> mapM g l' = mapM f l.
Proof.
  induction 1 as [|a a' l l' Ha _ IH]; simpl; [reflexivity|].
  now rewrite Ha, IH.
Qed.

End Editing.

(** X2.  After [removeTable(name)] the diagram has no table called [name]
    and no relationship from or to it; the other tables and relationships
    are kept as they are (the counters of the other tables are not
    recomputed), a look-up of another name gives what it gave, and removing
    again changes nothing. *)
Theorem removeTable_removes_table_and_links :
  forall (d : DiagramData.t) (name : str),
    let d' := DiagramService.removeTable d name in
    DiagramService.getTableData d' name = None
    /\ (forall t, In t (DiagramData.tables d')
                  <-> In t (DiagramData.tables d) /\ DiagramTable.name t <> name)
    /\ (forall r, In r (DiagramData.relationships d')
                  <-> In r (DiagramData.relationships d)
                      /\ DiagramRelationship.fromTable r <> name
                      /\ DiagramRelationship.toTable r <> name)
    /\ (forall other, other <> name ->
                      DiagramService.getTableData d' other
                      = DiagramService.getTableData d other)
    /\ DiagramService.removeTable d' name = d'.
Proof.
  intros d name d'. subst d'.
  unfold DiagramService.removeTable, DiagramService.getTableData.
  cbn [DiagramData.tables DiagramData.relationships].
  repeat split.
  - destruct (find _ (filter _ _)) as [t|] eqn:E; [|reflexivity].
    apply find_some in E as [Hin Hn]. apply filter_In in Hin as [_ Hf].
    rewrite Hn in Hf. discriminate.
  - now apply filter_In in H.
  - apply filter_In in H as [_ H]. apply negb_true_iff, eqb_neq in H. exact H.
  - intros [Hin Hn]. apply filter_In. split; [exact Hin|].
    now apply negb_true_iff, eqb_neq.
  - now apply filter_In in H.
  - apply filter_In in H as [_ H]. apply andb_true_iff in H as [H _].
    now apply negb_true_iff, eqb_neq in H.
  - apply filter_In in H as [_ H]. apply andb_true_iff in H as [_ H].
    now apply negb_true_iff, eqb_neq in H.
  - intros (Hin & Hf & Ht). apply filter_In. split; [exact Hin|].
    apply andb_true_iff. split; now apply negb_true_iff, eqb_neq.
  - intros other Hother. apply find_filter_other.
    intros t Ht. apply eqb_eq in Ht. apply negb_true_iff, eqb_neq. congruence.
  - now rewrite !filter_idem.
Qed.

(** What [addTable] does to the diagram. *)
Lemma addTable_spec :
  forall (d : DiagramData.t) (table : TableSchema.t),
  exists d' t,
    DiagramService.addTable d table = Ok d'
    /\ DiagramService.getTableData d' (TableSchema.name table) = Some t
    /\ DiagramTable.name t = TableSchema.name table
    /\ DiagramTable.fields t
       = map DiagramService.convertField (TableSchema.fields table)
    /\ match DiagramService.getTableData d (TableSchema.name table) with
       | Some old =>
           DiagramTable.position t = DiagramTable.position old
           /\ DiagramService.getTableCount d' = DiagramService.getTableCount d
       | None =>
           DiagramTable.position t
           = DiagramService.calculateTablePosition
               (Z.of_nat (DiagramService.getTableCount d))
               (Z.of_nat (DiagramService.getTableCount d) + 1)%Z
           /\ DiagramService.getTableCount d'
              = S (DiagramService.getTableCount d)
       end
    /\ (forall other, other <> TableSchema.name table ->
                      DiagramService.getTableData d' other
                      = DiagramService.getTableData d other)
    /\ DiagramData.relationships d' = DiagramData.relationships d.
Proof.
  intros d table.
  unfold DiagramService.addTable, DiagramService.getTableData,
    DiagramService.getTableCount.
  set (p := fun t => JS.eqb (DiagramTable.name t) (TableSchema.name table)).
  pose proof (findIndex_find p (DiagramData.tables d)) as Hfind.
  destruct (DiagramService.findIndex p (DiagramData.tables d)) as [i|] eqn:Ei.
  - destruct Hfind as (old & Hnth & Hold). rewrite Hnth, Hold.
    eexists. eexists. split; [reflexivity|].
    cbn [DiagramData.tables DiagramData.relationships].
    split; [apply (find_setAt_same p); [exact Ei|apply eqb_refl]|].
    repeat split.
    + apply setAt_length.
    + intros other Hother.
      apply (find_setAt_other p); [| |exact Ei].
      * intros y Hy. apply eqb_eq in Hy. apply eqb_neq. congruence.
      * apply eqb_neq. cbn. congruence.
  - rewrite Hfind.
    eexists. eexists. split; [reflexivity|].
    cbn [DiagramData.tables DiagramData.relationships].
    split.
    { rewrite find_app. fold p. rewrite Hfind. cbn [find].
      unfold p at 1. cbn [DiagramTable.name]. now rewrite eqb_refl. }
    repeat split.
    + rewrite length_app. simpl. lia.
    + intros other Hother. rewrite find_app. clear Hfind.
      match goal with
      | |- context [find ?q (DiagramData.tables d)] =>
          destruct (find q (DiagramData.tables d)); [reflexivity|]
      end.
      cbn [find DiagramTable.name].
      assert (E : JS.eqb (TableSchema.name table) other = false)
        by (apply eqb_neq; congruence).
      now rewrite E.
Qed.

(** X3.  [addTable(table)] never raises.  Afterwards a look-up of the
    table's name gives a table with that name and the converted fields of
    [table]; it stands at the position of the table it replaces, when there
    was one with that name (the count of tables is then unchanged), and at a
    new position at the end otherwise (the count grows by one).  A look-up
    of another name gives what it gave, and the relationships are not
    touched. *)
Theorem addTable_then_getTableData :
  forall (d : DiagramData.t) (table : TableSchema.t),
  exists d' t,
    DiagramService.addTable d table = Ok d'
    /\ DiagramService.getTableData d' (TableSchema.name table) = Some t
    /\ DiagramTable.name t = TableSchema.name table
    /\ DiagramTable.fields t
       = map DiagramService.convertField (TableSchema.fields table)
    /\ match DiagramService.getTableData d (TableSchema.name table) with
       | Some old =>
           DiagramTable.position t = DiagramTable.position old
           /\ DiagramService.getTableCount d' = DiagramService.getTableCount d
       | None =>
           DiagramTable.position t
           = DiagramService.calculateTablePosition
               (Z.of_nat (DiagramService.getTableCount d))
               (Z.of_nat (DiagramService.getTableCount d) + 1)%Z
           /\ DiagramService.getTableCount d'
              = S (DiagramService.getTableCount d)
       end
    /\ (forall other, other <> TableSchema.name table ->
                      DiagramService.getTableData d' other
                      = DiagramService.getTableData d other)
    /\ DiagramData.relationships d' = DiagramData.relationships d.
Proof.
  exact addTable_spec.
Qed.

(** X4.  Moving a table changes no SQL: after [updateTablePosition] the
    export gives, for every dialect identifier, what it gave before; the
    relationships and the number of tables are unchanged, and a table
    called [name], when there is one, is found at the new position. *)
Theorem moving_a_table_keeps_the_export :
  forall (d : DiagramData.t) (name : str) (position : Z * Z),
    let d' := DiagramService.updateTablePosition d name position in
    (forall provider,
        DiagramService.exportSchemaAsSQL d' provider
        = DiagramService.exportSchemaAsSQL d provider)
    /\ DiagramData.relationships d' = DiagramData.relationships d
    /\ DiagramService.getTableCount d' = DiagramService.getTableCount d
    /\ (forall old,
           DiagramService.getTableData d name = Some old ->
           exists t,
             DiagramService.getTableData d' name = Some t
             /\ DiagramTable.position t = position
             /\ DiagramTable.fields t = DiagramTable.fields old).
Proof.
  intros d name position d'. subst d'.
  pose proof (moveFirst_names name position
                (DiagramData.tables d)) as Hsame.
  assert (Hlen : List.length
                   (DiagramService.moveFirst name position
                      (DiagramData.tables d))
                 = List.length (DiagramData.tables d))
    by (symmetry; exact (Forall2_length Hsame)).
  repeat split.
  - intros provider. unfold DiagramService.exportSchemaAsSQL.
    cbn [DiagramService.updateTablePosition DiagramData.tables]. rewrite Hlen.
    destruct (List.length (DiagramData.tables d) =? 0); [reflexivity|].
    f_equal. apply mapM_Forall2.
    eapply Forall2_impl; [|exact Hsame].
    intros t t' [Hn Hf]. now apply createStatement_ext.
  - exact Hlen.
  - unfold DiagramService.getTableData.
    cbn [DiagramService.updateTablePosition DiagramData.tables].
    induction (DiagramData.tables d) as [|t tables IH]; simpl; [discriminate|].
    destruct (JS.eqb (DiagramTable.name t) name) eqn:E.
    + intros old H. injection H as <-. simpl. rewrite E.
      eexists. split; [reflexivity|]. split; reflexivity.
    + simpl. rewrite E. apply IH.
      * apply moveFirst_names.
      * symmetry. eapply Forall2_length. apply moveFirst_names.
Qed.

(** ** Runs of a character class *)

Lemma takeWhile_app_run (p : ascii -> bool) (run rest : str) :
  forallb p run = true ->
  JS.takeWhile p (run ++ rest) = run ++ JS.takeWhile p rest.
Proof.
  induction run as [|c run IH]; simpl; [reflexivity|].
  intros H. apply andb_true_iff in H as [-> H]. now rewrite IH.
Qed.

Lemma dropWhile_app_run (p : ascii -> bool) (run rest : str) :
  forallb p run = true ->
  JS.dropWhile p (run ++ rest) = JS.dropWhile p rest.
Proof.
  induction run as [|c run IH]; simpl; [reflexivity|].
  intros H. apply andb_true_iff in H as [-> H]. now rewrite IH.
Qed.

Lemma dropWhile_stop (p : ascii -> bool) (rest : str) :
  JS.takeWhile p rest = [] -> JS.dropWhile p rest = rest.
Proof.
  destruct rest as [|c rest]; simpl; [reflexivity|].
  now destruct (p c).
Qed.

Section Runs.

Context {A : Type}.

Variable p : ascii -> bool.
Variable k : str -> str -> option A.

(** The rest of the pattern cannot start with a character of the class. *)
Hypothesis Hk : forall taken c r, p c = true -> k taken (c :: r) = None.

Lemma greedy_run (run rest taken : str) :
  forallb p run = true -> JS.takeWhile p rest = [] ->
  Regex.greedy p k taken (run ++ rest) = k (taken ++ run) rest.
Proof.
  intros Hrun Hrest.
  rewrite (greedy_commit p k Hk), takeWhile_app_run, dropWhile_app_run,
    Hrest, app_nil_r, dropWhile_stop by assumption.
  reflexivity.
Qed.

Lemma plus_run (run rest : str) :
  run <> [] -> forallb p run = true -> JS.takeWhile p rest = [] ->
  Regex.matchItem (Regex.plus p) k (run ++ rest) = k run rest.
Proof.
  destruct run as [|c run]; [congruence|]. intros _ Hrun Hrest.
  simpl in Hrun. apply andb_true_iff in Hrun as [Hc Hrun].
  cbn [Regex.matchItem Regex.plus app]. rewrite Hc.
  now rewrite greedy_run.
Qed.

Lemma star_run (run rest : str) :
  forallb p run = true -> JS.takeWhile p rest = [] ->
  Regex.matchItem (Regex.star p) k (run ++ rest) = k run rest.
Proof.
  intros Hrun Hrest. cbn [Regex.matchItem Regex.star].
  now rewrite greedy_run.
Qed.

End Runs.

(** ** Dialects and data types *)

Section Decimal.

Lemma decimal_digits (d : Decimal.uint) :
  forallb JS.isDigit (lit (NilEmpty.string_of_uint d)) = true.
Proof.
  induction d; simpl; auto.
Qed.

Lemma digitsValue_acc (d : Decimal.uint) :
  forall acc,
    fold_left (fun acc c => (10 * acc + Z.of_nat (JS.code c - 48))%Z)
              (lit (NilEmpty.string_of_uint d)) (Z.pos acc)
    = Z.pos (Pos.of_uint_acc d acc).
Proof.
  induction d; intros acc;
    cbn [NilEmpty.string_of_uint lit list_ascii_of_string fold_left
         Pos.of_uint_acc];
    [reflexivity|..];
    rewrite <- IHd; f_equal;
    match goal with
    | |- (_ + Z.of_nat ?n)%Z = _ =>
        let v := eval vm_compute in n in change n with v
    end; lia.
Qed.

Lemma digitsValue_uint (d : Decimal.uint) :
  JS.digitsValue (lit (NilEmpty.string_of_uint d)) = Z.of_N (Pos.of_uint d).
Proof.
  unfold JS.digitsValue.
  induction d;
    cbn [NilEmpty.string_of_uint lit list_ascii_of_string fold_left
         Pos.of_uint];
    [reflexivity|exact IHd|..];
    match goal with
    | |- context [Z.of_nat ?n] =>
        let v := eval vm_compute in n in change n with v
    end;
    exact (digitsValue_acc d _).
Qed.

Lemma decimal_nonempty (n : N) : Spec.decimal n <> [].
Proof.
  unfold Spec.decimal. destruct n as [|q]; [discriminate|].
  cbn [N.to_uint]. pose proof (DecimalPos.Unsigned.to_uint_nonnil q) as H.
  destruct (Pos.to_uint q); [congruence|discriminate..].
Qed.

Lemma parseInt_decimal (n : N) :
  JS.parseInt (Some (Spec.decimal n)) = JS.Int (Z.of_N n).
Proof.
  unfold JS.parseInt.
  rewrite <- (app_nil_r (Spec.decimal n)) at 1.
  rewrite takeWhile_app_run by apply decimal_digits.
  cbn [JS.takeWhile]. rewrite app_nil_r.
  pose proof (decimal_nonempty n) as Hne.
  destruct (Spec.decimal n) eqn:E; [congruence|]. rewrite <- E.
  unfold Spec.decimal. rewrite digitsValue_uint.
  change (Pos.of_uint (N.to_uint n)) with (N.of_uint (N.to_uint n)).
  now rewrite DecimalN.Unsigned.of_to.
Qed.

Lemma numberToString_decimal (n : N) :
  JS.numberToString (JS.Int (Z.of_N n)) = Spec.decimal n.
Proof. now destruct n. Qed.

End Decimal.

Section DataTypes.

Import SQLSyntaxMapper.

Lemma upper_lower (c : ascii) : JS.upper (JS.lower c) = JS.upper c.
Proof. destruct c as [[] [] [] [] [] [] [] []]; reflexivity. Qed.

Lemma toUpperCase_toLowerCase (s : str) :
  JS.toUpperCase (JS.toLowerCase s) = JS.toUpperCase s.
Proof.
  unfold JS.toUpperCase, JS.toLowerCase. rewrite map_map.
  apply map_ext, upper_lower.
Qed.

(** The pattern of [mapDataType] reads the length of [varchar(n)]. *)
Lemma exec_varchar (n : N) :
  Regex.exec varcharRegex (lit "varchar(" ++ Spec.decimal n ++ lit ")")
  = Some [Spec.decimal n].
Proof.
  unfold Regex.exec.
  assert (E : Regex.matchAt varcharRegex
                (lit "varchar(" ++ Spec.decimal n ++ lit ")")
              = Some ([Spec.decimal n], [])).
  { unfold Regex.matchAt, varcharRegex, Regex.text.
    rewrite matchItems_text.
    cbn [lit list_ascii_of_string app JS.stripPrefix Ascii.eqb Bool.eqb].
    cbn [Regex.matchItems Regex.matchItem Regex.chr Regex.isGroup].
    cbn [Ascii.eqb Bool.eqb].
    rewrite plus_run.
    - reflexivity.
    - intros taken c r Hc. cbn.
      destruct c as [[] [] [] [] [] [] [] []]; try discriminate Hc;
        reflexivity.
    - apply decimal_nonempty.
    - apply decimal_digits.
    - reflexivity. }
  destruct (Spec.decimal n) as [|c r] eqn:Ed;
    [now apply decimal_nonempty in Ed|].
  cbn [lit list_ascii_of_string app JS.firstMatch] in *.
  now rewrite E.
Qed.

End DataTypes.

(** X5.  For each of the seven identifiers of the syntax table
    ([postgresql], [mysql], [sqlite], [supabase], [planetscale],
    [postgres-local], [mysql-local]), [mapDataType] returns a type name for
    every generic type and [exportSchemaAsSQL] returns SQL for every
    diagram: nothing is raised. *)
Theorem known_dialects_never_raise :
  Forall
    (fun provider =>
       (forall genericType length,
           exists s,
             SQLSyntaxMapper.mapDataType genericType provider length = Ok s)
       /\ (forall d,
              exists sql, DiagramService.exportSchemaAsSQL d provider = Ok sql))
    (map fst SQLSyntaxMapper.DATABASE_SYNTAX).
Proof.
  repeat constructor;
    try (intros genericType length;
         eapply mapDataType_total; vm_compute; reflexivity);
    try (intros d; eapply exportSchemaAsSQL_total; vm_compute; reflexivity).
Qed.

(** X6.  The identifiers [postgres-local], [planetscale] and [mysql-local]
    are other names of [postgresql], [mysql] and [mysql]: the type mapping
    and the exported SQL are the same, for every type and every diagram. *)
Theorem dialect_aliases :
  Forall
    (fun alias =>
       (forall genericType length,
           SQLSyntaxMapper.mapDataType genericType (fst alias) length
           = SQLSyntaxMapper.mapDataType genericType (snd alias) length)
       /\ (forall d,
              DiagramService.exportSchemaAsSQL d (fst alias)
              = DiagramService.exportSchemaAsSQL d (snd alias)))
    [ (lit "postgres-local", lit "postgresql");
      (lit "planetscale", lit "mysql");
      (lit "mysql-local", lit "mysql") ].
Proof.
  repeat constructor; cbn [fst snd];
    try (intros genericType length; apply mapDataType_same; reflexivity);
    try (intros d; apply exportSchemaAsSQL_same; reflexivity).
Qed.

(** X7.  On type names of 7-bit characters, where the case conversions of
    the embedding are those of JavaScript, [mapDataType] does not look at the
    case of the letters: two such names that differ by case only are mapped
    to the same type, for every dialect identifier and every length.
    (Outside that range JavaScript has letters with one lower-case form and
    two upper-case forms, which the last line of [mapDataType] would tell
    apart.) *)
Theorem mapDataType_ignores_case :
  forall (type1 type2 provider : str) (length : option JS.number),
    Spec.isSevenBit type1 = true ->
    Spec.isSevenBit type2 = true ->
    JS.toLowerCase type1 = JS.toLowerCase type2 ->
    SQLSyntaxMapper.mapDataType type1 provider length
    = SQLSyntaxMapper.mapDataType type2 provider length.
Proof.
  intros type1 type2 provider length _ _ H.
  assert (Hu : JS.toUpperCase type1 = JS.toUpperCase type2)
    by now rewrite <- (toUpperCase_toLowerCase type1), H,
         toUpperCase_toLowerCase.
  unfold SQLSyntaxMapper.mapDataType. now rewrite H, Hu.
Qed.

Lemma mapDataType_ignores_case_witness :
  SQLSyntaxMapper.mapDataType (lit "Timestamp") (lit "sqlite") None
  = SQLSyntaxMapper.mapDataType (lit "TIMESTAMP") (lit "sqlite") None.
Proof.
  apply (mapDataType_ignores_case (lit "Timestamp") (lit "TIMESTAMP")).
  - vm_compute. reflexivity.
  - vm_compute. reflexivity.
  - reflexivity.
Defined.

(** X8.  The length written in a generic type [varchar(n)] (letters in any
    case, [n] in decimal digits, within the range of exact JavaScript
    integers) is carried to the output: [VARCHAR(n)] for [postgresql],
    [mysql], [supabase] and their other names, whatever the [length] option
    says; [sqlite] has no such type and gives [TEXT]. *)
Theorem varchar_length_is_carried :
  forall (n : N) (genericType : str) (length : option JS.number),
    (n < 10 ^ 15)%N ->
    JS.toLowerCase genericType = lit "varchar(" ++ Spec.decimal n ++ lit ")" ->
    Forall
      (fun provider =>
         SQLSyntaxMapper.mapDataType genericType provider length
         = Ok (lit "VARCHAR(" ++ Spec.decimal n ++ lit ")"))
      [ lit "postgresql"; lit "mysql"; lit "supabase"; lit "planetscale";
        lit "postgres-local"; lit "mysql-local" ]
    /\ SQLSyntaxMapper.mapDataType genericType (lit "sqlite") length
       = Ok (lit "TEXT").
Proof.
  intros n genericType length _ Hlower.
  assert (Hgen : forall provider c,
             SQLSyntaxMapper.getSyntaxConfig provider
             = SQLSyntaxMapper.IsConfig c ->
             SQLSyntaxMapper.mapDataType genericType provider length
             = Ok (SQLSyntaxMapper.varchar (SQLSyntaxMapper.dataTypes c)
                     (Some (JS.Int (Z.of_N n))))).
  { intros provider c Hc. unfold SQLSyntaxMapper.mapDataType.
    rewrite Hc, Hlower, exec_varchar.
    cbn [Regex.capture Nat.sub nth_error]. rewrite parseInt_decimal.
    reflexivity. }
  split.
  - assert (Hn : forall provider c,
               SQLSyntaxMapper.getSyntaxConfig provider
               = SQLSyntaxMapper.IsConfig c ->
               SQLSyntaxMapper.varchar (SQLSyntaxMapper.dataTypes c)
               = SQLSyntaxMapper.varcharN ->
               SQLSyntaxMapper.mapDataType genericType provider length
               = Ok (lit "VARCHAR(" ++ Spec.decimal n ++ lit ")")).
    { intros provider c Hc Hv. rewrite (Hgen provider c Hc), Hv.
      cbv beta iota zeta delta [SQLSyntaxMapper.varcharN].
      now rewrite numberToString_decimal. }
    repeat (apply Forall_cons; [|]); [..|apply Forall_nil].
    + now apply (Hn _ SQLSyntaxMapper.postgresql).
    + now apply (Hn _ SQLSyntaxMapper.mysql).
    + now apply (Hn _ SQLSyntaxMapper.supabase).
    + now apply (Hn _ SQLSyntaxMapper.mysql).
    + now apply (Hn _ SQLSyntaxMapper.postgresql).
    + now apply (Hn _ SQLSyntaxMapper.mysql).
  - now rewrite (Hgen _ SQLSyntaxMapper.sqlite).
Qed.

Lemma varchar_length_is_carried_witness :
  Forall
    (fun provider =>
       SQLSyntaxMapper.mapDataType (lit "VarChar(64)") provider None
       = Ok (lit "VARCHAR(" ++ Spec.decimal 64 ++ lit ")"))
    [ lit "postgresql"; lit "mysql"; lit "supabase"; lit "planetscale";
      lit "postgres-local"; lit "mysql-local" ]
  /\ SQLSyntaxMapper.mapDataType (lit "VarChar(64)") (lit "sqlite") None
     = Ok (lit "TEXT").
Proof.
  apply (varchar_length_is_carried 64 (lit "VarChar(64)") None).
  - reflexivity.
  - reflexivity.
Defined.

(** ** The inference pass: what it adds *)

Section InferenceFacts.

Import SchemaParser Inference.

Lemma assoc_mapSet {A : Type} (k k' : str) (a : A) (m : list (str * A)) :
  assoc k (mapSet k' a m) = if JS.eqb k' k then Some a else assoc k m.
Proof.
  induction m as [|[k0 a0] m IH]; simpl; [reflexivity|].
  destruct (JS.eqb k0 k') eqn:E0; simpl.
  - apply eqb_eq in E0. subst k0. now destruct (JS.eqb k' k).
  - rewrite IH. destruct (JS.eqb k0 k) eqn:E1; [|reflexivity].
    destruct (JS.eqb k' k) eqn:E2; [|reflexivity].
    apply eqb_eq in E1, E2. subst. rewrite eqb_refl in E0. discriminate.
Qed.

(** The table map holds, for a table name, the name of the first
    primary-key field of a table of that name. *)
Lemma registerTable_tableMap (all : list TableSchema.t) (m : Maps)
      (t : TableSchema.t) :
  In t all ->
  (forall k v, assoc k (tableMap m) = Some v -> Spec.PrimaryKeyOf all k v) ->
  forall k v, assoc k (tableMap (registerTable m t)) = Some v ->
              Spec.PrimaryKeyOf all k v.
Proof.
  intros Hin Hm k v. unfold registerTable.
  destruct (find TableField.primaryKey (TableSchema.fields t)) as [pk|] eqn:Ef;
    [|apply Hm].
  cbn [tableMap]. rewrite assoc_mapSet.
  destruct (JS.eqb (TableSchema.name t) k) eqn:E; [|apply Hm].
  apply eqb_eq in E. intros H. injection H as <-.
  now exists t, pk.
Qed.

Lemma fold_registerTable_tableMap (all l : list TableSchema.t) :
  incl l all ->
  forall m,
    (forall k v, assoc k (tableMap m) = Some v -> Spec.PrimaryKeyOf all k v) ->
    forall k v,
      assoc k (tableMap (fold_left registerTable l m)) = Some v ->
      Spec.PrimaryKeyOf all k v.
Proof.
  induction l as [|t l IH]; intros Hincl m Hm; simpl; [exact Hm|].
  apply IH.
  - intros x Hx. apply Hincl. now right.
  - apply registerTable_tableMap; [|exact Hm]. apply Hincl. now left.
Qed.

Lemma buildMaps_tableMap (tables : list TableSchema.t) (k v : str) :
  mapGet k (tableMap (buildMaps tables)) = Some v ->
  Spec.PrimaryKeyOf tables k v.
Proof.
  unfold buildMaps, mapGet.
  apply fold_registerTable_tableMap; [apply incl_refl|].
  intros k' v' H. discriminate H.
Qed.

(** The target that [findTarget] links a field to is an entry of the table
    map. *)
Lemma findTarget_link (entries : list (str * list str)) :
  forall tableMap fromTable f potential relationships f' rs,
    findTarget entries tableMap fromTable f potential relationships = (f', rs) ->
    (f' = f /\ rs = relationships)
    \/ exists tableName pkField,
        mapGet tableName tableMap = Some pkField
        /\ f' = TableField.setForeignKey
                  {| ForeignKey.table := tableName;
                     ForeignKey.column := pkField |} f
        /\ rs = relationships
                ++ [mkRelationship fromTable (TableField.name f)
                                   tableName pkField].
Proof.
  induction entries as [|[tableName variations] entries IH];
    intros tableMap fromTable f potential relationships f' rs H; simpl in H.
  - injection H as <- <-. now left.
  - destruct (existsb _ variations); [|now apply IH in H].
    destruct (mapGet tableName tableMap) as [pkField|] eqn:Eg;
      [|now apply IH in H].
    destruct (JS.truthy pkField); [|now apply IH in H].
    destruct (find _ relationships).
    + injection H as <- <-. now left.
    + injection H as <- <-. right. now exists tableName, pkField.
Qed.

Lemma visitField_link (m : Maps) (fromTable : str) (f f' : TableField.t)
      (relationships rs : list SchemaRelationship.t) :
  visitField m fromTable f relationships = (f', rs) ->
  exists added,
    rs = relationships ++ added
    /\ Forall (Spec.linkOf m fromTable [f]) added
    /\ Spec.Completed added fromTable f f'.
Proof.
  unfold visitField. intros H.
  destruct (TableField.foreignKey f) eqn:Hfk.
  - injection H as <- <-. exists []. rewrite app_nil_r.
    repeat split; [constructor|now left].
  - destruct (JS.endsWith (lit "_id") (TableField.name f)) eqn:Hid;
      cbn [andb] in H.
    + destruct (TableField.primaryKey f) eqn:Hpk; cbn [negb] in H.
      * injection H as <- <-. exists []. rewrite app_nil_r.
        repeat split; [constructor|now left].
      * apply findTarget_link in H
          as [[-> ->]|(tableName & pkField & Hget & -> & ->)].
        -- exists []. rewrite app_nil_r.
           repeat split; [constructor|now left].
        -- eexists. split; [reflexivity|]. split.
           ++ constructor; [|constructor].
              split; [reflexivity|]. split; [|exact Hget].
              exists f. cbn. tauto.
           ++ right. split; [exact Hfk|].
              eexists. split; [reflexivity|]. now left.
    + injection H as <- <-. exists []. rewrite app_nil_r.
      repeat split; [constructor|now left].
Qed.

Lemma linkOf_incl (m : Maps) (fromTable : str)
      (fields fields' : list TableField.t) (r : SchemaRelationship.t) :
  incl fields fields' ->
  Spec.linkOf m fromTable fields r -> Spec.linkOf m fromTable fields' r.
Proof.
  intros Hincl (Hfrom & (f & Hin & Hf) & Hget).
  split; [exact Hfrom|]. split; [|exact Hget].
  exists f. split; [now apply Hincl|exact Hf].
Qed.

Lemma Completed_incl (added added' : list SchemaRelationship.t)
      (fromTable : str) (f f' : TableField.t) :
  incl added added' ->
  Spec.Completed added fromTable f f' -> Spec.Completed added' fromTable f f'.
Proof.
  intros Hincl [->|(Hfk & fk & -> & Hin)]; [now left|].
  right. split; [exact Hfk|]. exists fk. split; [reflexivity|].
  now apply Hincl.
Qed.

Lemma visitFields_link (m : Maps) (fromTable : str)
      (fields : list TableField.t) :
  forall relationships fields' rs,
    visitFields m fromTable fields relationships = (fields', rs) ->
    exists added,
      rs = relationships ++ added
      /\ Forall (Spec.linkOf m fromTable fields) added
      /\ Forall2 (Spec.Completed added fromTable) fields fields'.
Proof.
  induction fields as [|f fields IH]; intros relationships fields' rs H;
    simpl in H.
  - injection H as <- <-. exists []. rewrite app_nil_r.
    repeat split; constructor.
  - destruct (visitField m fromTable f relationships) as [f1 r1] eqn:Ef.
    destruct (visitFields m fromTable fields r1) as [fs1 r2] eqn:Efs.
    injection H as <- <-.
    apply visitField_link in Ef as (a1 & -> & Hl1 & Hc1).
    apply IH in Efs as (a2 & -> & Hl2 & Hc2).
    exists (a1 ++ a2). repeat split.
    + now rewrite app_assoc.
    + apply Forall_app. split.
      * eapply Forall_impl; [|exact Hl1]. intros r.
        apply linkOf_incl. intros x [<-|[]]. now left.
      * eapply Forall_impl; [|exact Hl2]. intros r.
        apply linkOf_incl. intros x Hx. now right.
    + constructor.
      * eapply Completed_incl; [|exact Hc1]. now apply incl_appl.
      * eapply Forall2_impl; [|exact Hc2]. intros x y.
        apply Completed_incl. now apply incl_appr.
Qed.

Lemma visitTables_link (m : Maps) (tables : list TableSchema.t) :
  forall relationships tables' rs,
    visitTables m tables relationships = (tables', rs) ->
    exists added,
      rs = relationships ++ added
      /\ Forall (Spec.linkIn m tables) added
      /\ Forall2 (Spec.completedTable added) tables tables'.
Proof.
  induction tables as [|t tables IH]; intros relationships tables' rs H;
    simpl in H.
  - injection H as <- <-. exists []. rewrite app_nil_r.
    repeat split; constructor.
  - destruct (visitFields m (TableSchema.name t) (TableSchema.fields t)
                          relationships) as [fs1 r1] eqn:Ef.
    destruct (visitTables m tables r1) as [ts1 r2] eqn:Ets.
    injection H as <- <-.
    apply visitFields_link in Ef as (a1 & -> & Hl1 & Hc1).
    apply IH in Ets as (a2 & -> & Hl2 & Hc2).
    exists (a1 ++ a2). repeat split.
    + now rewrite app_assoc.
    + apply Forall_app. split.
      * eapply Forall_impl; [|exact Hl1].
        intros r (Hfrom & (f & Hin & Hname & Hfk & Hpk & Hid) & Hget).
        split; [|exact Hget].
        exists t, f.
        repeat split;
          [now left|now symmetry|exact Hin|exact Hname|exact Hfk|exact Hpk
          |exact Hid].
      * eapply Forall_impl; [|exact Hl2].
        intros r ((t0 & f & Hin & Hrest) & Hget).
        split; [|exact Hget].
        exists t0, f. split; [now right|exact Hrest].
    + constructor.
      * split; [reflexivity|]. cbn [TableSchema.fields TableSchema.name].
        eapply Forall2_impl; [|exact Hc1]. intros x y.
        apply Completed_incl. now apply incl_appl.
      * eapply Forall2_impl; [|exact Hc2].
        intros x y [Hn Hf]. split; [exact Hn|].
        eapply Forall2_impl; [|exact Hf]. intros x' y'.
        apply Completed_incl. now apply incl_appr.
Qed.

Lemma detectImplicitRelationships_links (tables tables' : list TableSchema.t)
      (relationships rs : list SchemaRelationship.t) :
  detectImplicitRelationships tables relationships = (tables', rs) ->
  exists added,
    rs = relationships ++ added
    /\ Forall (Spec.InferredLink tables) added
    /\ Forall2 (Spec.completedTable added) tables tables'.
Proof.
  unfold detectImplicitRelationships. intros H.
  apply visitTables_link in H as (added & -> & Hl & Hc).
  exists added. repeat split; [|exact Hc].
  eapply Forall_impl; [|exact Hl].
  intros r [Hcand Hget]. split; [exact Hcand|].
  now apply buildMaps_tableMap.
Qed.

End InferenceFacts.

(** X9.  The inference pass only adds.  The relationships it returns are
    the ones it was given, in their order, followed by the ones it adds.
    Each added relationship starts at a column that had no foreign key, is
    not a primary key and whose name ends in [_id], and points to a table of
    the schema that has a primary key, at the first primary-key field of
    that table.  A table keeps its name and its fields; a field is returned
    as it was, or, when it had no foreign key, with the foreign key of one
    of the added relationships (a foreign key written in the SQL is never
    replaced). *)
Theorem inference_only_adds_links_to_primary_keys :
  forall (tables : list TableSchema.t)
         (relationships : list SchemaRelationship.t),
    let result :=
      Inference.detectImplicitRelationships tables relationships in
    exists added,
      snd result = relationships ++ added
      /\ Forall (Spec.InferredLink tables) added
      /\ Forall2
           (fun t t' =>
              TableSchema.name t' = TableSchema.name t
              /\ Forall2 (Spec.Completed added (TableSchema.name t))
                         (TableSchema.fields t) (TableSchema.fields t'))
           tables (fst result).
Proof.
  intros tables relationships result. subst result.
  destruct (Inference.detectImplicitRelationships tables relationships)
    as [tables' rs] eqn:E.
  apply detectImplicitRelationships_links in E as (added & H).
  now exists added.
Qed.

(** ** The schema that [parseSQL] returns: names and types *)

Section ParsedSchemaFacts.

Import SchemaParser Inference.

Lemma isUpper_lower (c : ascii) : JS.isUpper (JS.lower c) = false.
Proof. destruct c as [[] [] [] [] [] [] [] []]; reflexivity. Qed.

Lemma isLowerCase_toLowerCase (s : str) :
  Spec.isLowerCase (JS.toLowerCase s) = true.
Proof.
  unfold Spec.isLowerCase, JS.toLowerCase.
  induction s as [|c s IH]; simpl; [reflexivity|].
  now rewrite isUpper_lower, IH.
Qed.

(** The statements loop, with the names it gives to the tables. *)
Lemma statementsLoop_tables (matches : list (list str)) :
  forall tables relationships ts rs,
    statementsLoop matches tables relationships = Ok (ts, rs) ->
    exists new,
      ts = tables ++ new
      /\ rs = relationships ++ Spec.fkTuples new
      /\ Forall (fun t =>
                   Spec.isLowerCase (TableSchema.name t) = true
                   /\ Forall Spec.FromClause (TableSchema.fields t))
                new.
Proof.
  induction matches as [|captures matches IH];
    intros tables relationships ts rs H; simpl in H.
  - injection H as <- <-. exists []. now rewrite !app_nil_r.
  - destruct (defined (Regex.capture captures 1)) as [m1|e];
      cbn [bind] in H; [|discriminate].
    destruct (defined (Regex.capture captures 2)) as [m2|e];
      cbn [bind] in H; [|discriminate].
    unfold parseColumnDefinitions in H.
    destruct (columnsLoop (splitColumnDefinitions m2) [] [])
      as [[fs crs]|e] eqn:Ec; cbn [bind] in H; [|discriminate].
    apply columnsLoop_spec in Ec as (new & -> & -> & Hnew).
    cbn [fst snd app] in H. rewrite relationships_of_columns in H.
    apply IH in H as (newT & -> & -> & HnewT).
    exists ({| TableSchema.name := JS.toLowerCase m1;
               TableSchema.fields := new |} :: newT).
    repeat split.
    + now rewrite <- app_assoc.
    + rewrite <- app_assoc. reflexivity.
    + constructor; [|exact HnewT].
      split; [apply isLowerCase_toLowerCase|exact Hnew].
Qed.

(** [parseSQL] is the inference pass run on tables read from statements,
    with the foreign keys written in them as relationships. *)
Lemma parseClean_inv (text : str) (ps : ParsedSchema.t) :
  parseClean text = Ok ps ->
  exists new,
    Forall (fun t =>
              Spec.isLowerCase (TableSchema.name t) = true
              /\ Forall Spec.FromClause (TableSchema.fields t))
           new
    /\ detectImplicitRelationships new (Spec.fkTuples new)
       = (ParsedSchema.tables ps, ParsedSchema.relationships ps).
Proof.
  unfold parseClean. intros H.
  destruct (statementsLoop (Regex.execAll createTableRegex 0 text) [] [])
    as [[ts rs]|e] eqn:Es;
    cbn [bind] in H; [|discriminate].
  apply statementsLoop_tables in Es as (new & -> & -> & Hnew).
  cbn [fst snd app] in H.
  destruct (detectImplicitRelationships new (Spec.fkTuples new))
    as [ts' rs'] eqn:Ev.
  injection H as <-. now exists new.
Qed.

(** The names in a field built from a clause are in lower case. *)
Lemma FromClause_lower (f : TableField.t) :
  Spec.FromClause f ->
  Spec.isLowerCase (TableField.name f) = true
  /\ forall fk, TableField.foreignKey f = Some fk ->
                Spec.isLowerCase (ForeignKey.table fk) = true
                /\ Spec.isLowerCase (ForeignKey.column fk) = true.
Proof.
  intros [columnDef H].
  apply parseColumnDefinition_field in H
    as (p0 & p1 & type & fk0 & _ & _ & _ & Hfk & ->).
  cbn [TableField.name TableField.foreignKey].
  split; [apply isLowerCase_toLowerCase|].
  intros fk ->. unfold referencesOf in Hfk.
  destruct (Regex.exec referencesRegex (JS.toUpperCase columnDef));
    [|discriminate].
  destruct (defined _) as [table|]; cbn [bind] in Hfk; [|discriminate].
  destruct (defined _) as [column|]; cbn [bind] in Hfk; [|discriminate].
  injection Hfk as <-.
  split; apply isLowerCase_toLowerCase.
Qed.

(** The values of the type map, and the fallback. *)
Lemma normalizeType_logical (type t : str) :
  normalizeType type = Ok t -> In t Spec.logicalTypes.
Proof.
  unfold normalizeType, getProp.
  set (k := JS.beforeFirst "(" type). clearbody k.
  unfold SchemaParser.typeMap, assoc.
  repeat match goal with
         | |- context [if JS.eqb ?a k then _ else _] =>
             destruct (JS.eqb a k)
         end;
    try (intros H; injection H as <-; simpl;
         repeat (first [left; reflexivity|right])).
  destruct (existsb (JS.eqb k) objectPrototypeKeys);
    intros H; [discriminate|injection H as <-].
  simpl. right. now left.
Qed.

Lemma FromClause_type (f : TableField.t) :
  Spec.FromClause f -> In (TableField.type f) Spec.logicalTypes.
Proof.
  intros [columnDef H].
  apply parseColumnDefinition_field in H
    as (p0 & p1 & type & fk0 & _ & _ & Ht & _ & ->).
  now apply normalizeType_logical in Ht.
Qed.

(** The fields of a parsed schema: each is a field built from a clause, or
    such a field with a foreign key to the first primary-key field of a
    table that was read. *)
Lemma parsed_fields (sql : str) (ps : ParsedSchema.t) :
  parseSQL sql = Ok ps ->
  Forall
    (fun t =>
       Spec.isLowerCase (TableSchema.name t) = true
       /\ Forall
            (fun f =>
               exists f0,
                 Spec.FromClause f0
                 /\ (f = f0
                     \/ exists t1 pk,
                         Spec.isLowerCase (TableSchema.name t1) = true
                         /\ Spec.FromClause pk
                         /\ f = TableField.setForeignKey
                                  {| ForeignKey.table := TableSchema.name t1;
                                     ForeignKey.column := TableField.name pk |}
                                  f0))
            (TableSchema.fields t))
    (ParsedSchema.tables ps).
Proof.
  intros H. apply parseClean_inv in H as (new & Hnew & Hd).
  apply detectImplicitRelationships_links in Hd as (added & _ & Hl & Hc).
  rewrite Forall_forall in Hnew, Hl.
  apply Forall_forall. intros t' Ht'.
  destruct (Forall2_In_r _ _ _ _ Hc Ht') as (t & Ht & Hname & Hfields).
  destruct (Hnew t Ht) as [Hlow Hfrom]. rewrite Forall_forall in Hfrom.
  split; [now rewrite Hname|].
  apply Forall_forall. intros f' Hf'.
  destruct (Forall2_In_r _ _ _ _ Hfields Hf') as (f & Hf & Hcomp).
  exists f. split; [now apply Hfrom|].
  destruct Hcomp as [->|(_ & fk & -> & Hin)]; [now left|].
  right. destruct (Hl _ Hin) as [_ (t1 & pk & Ht1 & Hn1 & Hfind & Hpk)].
  cbn in Hn1, Hpk.
  destruct (Hnew t1 Ht1) as [Hlow1 Hfrom1]. rewrite Forall_forall in Hfrom1.
  apply find_some in Hfind as [Hpkin _].
  exists t1, pk. split; [exact Hlow1|]. split; [now apply Hfrom1|].
  destruct fk as [a b]. cbn in Hn1, Hpk. now subst.
Qed.

End ParsedSchemaFacts.

(** X10.  Every name in a schema returned by [parseSQL] is in lower case:
    the names of the tables and of the fields, the table and column of every
    foreign key (written in the SQL or inferred), and the four names of every
    relationship. *)
Theorem parsed_names_are_lower_case :
  forall (sql : str) (ps : ParsedSchema.t),
    Inference.parseSQL sql = Ok ps ->
    Forall
      (fun t =>
         Spec.isLowerCase (TableSchema.name t) = true
         /\ Forall
              (fun f =>
                 Spec.isLowerCase (TableField.name f) = true
                 /\ forall fk,
                     TableField.foreignKey f = Some fk ->
                     Spec.isLowerCase (ForeignKey.table fk) = true
                     /\ Spec.isLowerCase (ForeignKey.column fk) = true)
              (TableSchema.fields t))
      (ParsedSchema.tables ps)
    /\ Forall
         (fun r =>
            Spec.isLowerCase (SchemaRelationship.fromTable r) = true
            /\ Spec.isLowerCase (SchemaRelationship.fromField r) = true
            /\ Spec.isLowerCase (SchemaRelationship.toTable r) = true
            /\ Spec.isLowerCase (SchemaRelationship.toField r) = true)
         (ParsedSchema.relationships ps).
Proof.
  intros sql ps Hparse.
  assert (Htables :
            Forall
              (fun t =>
                 Spec.isLowerCase (TableSchema.name t) = true
                 /\ Forall
                      (fun f =>
                         Spec.isLowerCase (TableField.name f) = true
                         /\ forall fk,
                             TableField.foreignKey f = Some fk ->
                             Spec.isLowerCase (ForeignKey.table fk) = true
                             /\ Spec.isLowerCase (ForeignKey.column fk) = true)
                      (TableSchema.fields t))
              (ParsedSchema.tables ps)).
  { eapply Forall_impl; [|exact (parsed_fields sql ps Hparse)].
    intros t [Hlow Hfields]. split; [exact Hlow|].
    eapply Forall_impl; [|exact Hfields].
    intros f (f0 & Hf0 & [->|(t1 & pk & Hlow1 & Hpk & ->)]).
    - now apply FromClause_lower.
    - cbn [TableField.setForeignKey TableField.name TableField.foreignKey].
      split; [now apply FromClause_lower|].
      intros fk H. injection H as <-. cbn.
      split; [exact Hlow1|now apply FromClause_lower]. }
  split; [exact Htables|].
  apply parseClean_spec in Hparse as [Hperm _].
  apply Forall_forall. intros r Hr.
  apply (Permutation_in _ Hperm) in Hr.
  unfold Spec.fkTuples in Hr. apply in_flat_map in Hr as (t & Ht & Hr).
  unfold Spec.fkTuplesOf in Hr. apply in_flat_map in Hr as (f & Hf & Hr).
  rewrite Forall_forall in Htables. destruct (Htables t Ht) as [Hlow Hfields].
  rewrite Forall_forall in Hfields. destruct (Hfields f Hf) as [Hname Hfk].
  unfold Spec.fkTuple in Hr.
  destruct (TableField.foreignKey f) as [fk|]; [|destruct Hr].
  destruct Hr as [<-|[]]. destruct (Hfk fk eq_refl) as [Ha Hb].
  cbn. tauto.
Qed.

Lemma parsed_names_are_lower_case_witness :
  Forall
    (fun t =>
       Spec.isLowerCase (TableSchema.name t) = true
       /\ Forall
            (fun f =>
               Spec.isLowerCase (TableField.name f) = true
               /\ forall fk,
                   TableField.foreignKey f = Some fk ->
                   Spec.isLowerCase (ForeignKey.table fk) = true
                   /\ Spec.isLowerCase (ForeignKey.column fk) = true)
            (TableSchema.fields t))
    (ParsedSchema.tables Samples.endToEndSchema)
  /\ Forall
       (fun r =>
          Spec.isLowerCase (SchemaRelationship.fromTable r) = true
          /\ Spec.isLowerCase (SchemaRelationship.fromField r) = true
          /\ Spec.isLowerCase (SchemaRelationship.toTable r) = true
          /\ Spec.isLowerCase (SchemaRelationship.toField r) = true)
       (ParsedSchema.relationships Samples.endToEndSchema).
Proof.
  apply (parsed_names_are_lower_case Samples.endToEndInput).
  vm_compute. reflexivity.
Defined.

(** X11.  The type of every field of a schema returned by [parseSQL] is one
    of the seven logical types [int8], [text], [boolean], [timestamp],
    [numeric], [uuid], [json], whatever type names the SQL uses. *)
Theorem parsed_types_are_logical_types :
  forall (sql : str) (ps : ParsedSchema.t),
    Inference.parseSQL sql = Ok ps ->
    Forall
      (fun t =>
         Forall (fun f => In (TableField.type f) Spec.logicalTypes)
                (TableSchema.fields t))
      (ParsedSchema.tables ps).
Proof.
  intros sql ps Hparse.
  eapply Forall_impl; [|exact (parsed_fields sql ps Hparse)].
  intros t [_ Hfields].
  eapply Forall_impl; [|exact Hfields].
  intros f (f0 & Hf0 & [->|(t1 & pk & _ & _ & ->)]);
    cbn [TableField.setForeignKey TableField.type];
    now apply FromClause_type.
Qed.

Lemma parsed_types_are_logical_types_witness :
  Forall
    (fun t =>
       Forall (fun f => In (TableField.type f) Spec.logicalTypes)
              (TableSchema.fields t))
    (ParsedSchema.tables Samples.endToEndSchema).
Proof.
  apply (parsed_types_are_logical_types Samples.endToEndInput).
  vm_compute. reflexivity.
Defined.

(** ** From a parsed schema to the exported SQL *)

Section ExportFacts.

Import SQLSyntaxMapper.

Lemma In_convertTables (current : DiagramData.t) (preservePositions : bool)
      (relationships : list SchemaRelationship.t) (total : nat)
      (tables : list TableSchema.t) :
  forall index table,
    In table (DiagramService.convertTables current preservePositions
                relationships total index tables) ->
    exists t,
      In t tables
      /\ DiagramTable.name table = TableSchema.name t
      /\ DiagramTable.fields table
         = map DiagramService.convertField (TableSchema.fields t).
Proof.
  induction tables as [|t tables IH]; intros index table; simpl; [tauto|].
  intros [<-|H].
  - exists t. cbn. tauto.
  - apply IH in H as (t0 & Hin & H). exists t0. tauto.
Qed.

Lemma find_exists {A : Type} (p : A -> bool) (l : list A) (x : A) :
  In x l -> p x = true -> exists y, find p l = Some y /\ p y = true.
Proof.
  intros Hin Hp. destruct (find p l) as [y|] eqn:E.
  - exists y. split; [reflexivity|]. now apply find_some in E.
  - rewrite (find_none _ _ E x Hin) in Hp. discriminate.
Qed.

Variable provider : str.
Variable c : DatabaseSyntaxConfig.
Hypothesis Hconfig : getSyntaxConfig provider = IsConfig c.

(** The line of a field that has a relationship ends with the clause of
    that relationship. *)
Lemma fieldDefinition_references (d : DiagramData.t) (table : DiagramTable.t)
      (field : DiagramField.t) (r : DiagramRelationship.t) :
  find (fun rel =>
          JS.eqb (DiagramRelationship.fromTable rel) (DiagramTable.name table)
          && JS.eqb (DiagramRelationship.fromField rel)
                    (DiagramField.name field))
       (DiagramData.relationships d) = Some r ->
  exists line,
    DiagramService.fieldDefinition d provider (IsConfig c) table field
    = Ok (line ++ lit " " ++
          foreignKey (constraints c) (DiagramRelationship.toTable r)
                     (DiagramRelationship.toField r)).
Proof.
  intros Hfind. unfold DiagramService.fieldDefinition. rewrite Hfind.
  destruct (mapDataType_total provider c Hconfig (DiagramField.type field) None)
    as [ty Hty].
  rewrite Hty. cbn [read bind].
  repeat match goal with
         | |- context [if ?b then _ else _] => destruct b; cbn [read bind]
         end; eexists; reflexivity.
Qed.

End ExportFacts.

(** X12.  A schema returned by [parseSQL] is loaded into the diagram and
    exported for a dialect of the syntax table.  Every field that the
    diagram marks as a foreign key has a relationship of the diagram that
    starts at it (same table name, same field name), and its line in the
    exported SQL ends with the [REFERENCES] clause of such a relationship. *)
Theorem foreign_key_fields_are_exported_with_references :
  forall (sql provider : str) (ps : ParsedSchema.t)
         (c : SQLSyntaxMapper.DatabaseSyntaxConfig)
         (current : DiagramData.t) (preservePositions : bool)
         (table : DiagramTable.t) (field : DiagramField.t),
    Inference.parseSQL sql = Ok ps ->
    SQLSyntaxMapper.getSyntaxConfig provider = SQLSyntaxMapper.IsConfig c ->
    let d :=
      DiagramService.updateFromSchema current (ParsedSchema.tables ps)
        (ParsedSchema.relationships ps) preservePositions in
    In table (DiagramData.tables d) ->
    In field (DiagramTable.fields table) ->
    DiagramField.isForeignKey field = true ->
    exists line r,
      In r (DiagramData.relationships d)
      /\ DiagramRelationship.fromTable r = DiagramTable.name table
      /\ DiagramRelationship.fromField r = DiagramField.name field
      /\ DiagramService.fieldDefinition d provider (SQLSyntaxMapper.IsConfig c)
           table field
         = Ok (line ++ lit " " ++
               SQLSyntaxMapper.foreignKey (SQLSyntaxMapper.constraints c)
                 (DiagramRelationship.toTable r)
                 (DiagramRelationship.toField r)).
Proof.
  intros sql provider ps c current preservePositions table field
         Hparse Hconfig d Htable Hfield Hfk.
  apply parseClean_spec in Hparse as [Hperm _].
  unfold d in Htable. cbn [DiagramService.updateFromSchema DiagramData.tables]
    in Htable.
  apply In_convertTables in Htable as (t & Ht & Hname & Hfields).
  rewrite Hfields in Hfield. apply in_map_iff in Hfield as (f & <- & Hf).
  unfold DiagramService.convertField in Hfk. cbn in Hfk.
  destruct (TableField.foreignKey f) as [fk|] eqn:Efk; [|discriminate].
  assert (Hrel : In (Inference.mkRelationship (TableSchema.name t)
                       (TableField.name f)
                       (ForeignKey.table fk) (ForeignKey.column fk))
                    (ParsedSchema.relationships ps)).
  { apply (Permutation_in _ (Permutation_sym Hperm)).
    unfold Spec.fkTuples. apply in_flat_map. exists t. split; [exact Ht|].
    unfold Spec.fkTuplesOf. apply in_flat_map. exists f. split; [exact Hf|].
    unfold Spec.fkTuple. rewrite Efk. now left. }
  apply (in_map DiagramService.convertRelationship) in Hrel.
  destruct (find_exists
              (fun rel =>
                 JS.eqb (DiagramRelationship.fromTable rel)
                        (DiagramTable.name table)
                 && JS.eqb (DiagramRelationship.fromField rel)
                           (DiagramField.name (DiagramService.convertField f)))
              _ _ Hrel) as (r & Hfind & Hr).
  { cbn. rewrite Hname, !eqb_refl. reflexivity. }
  apply andb_true_iff in Hr as [Hr1 Hr2]. apply eqb_eq in Hr1, Hr2.
  destruct (fieldDefinition_references provider c Hconfig d table
              (DiagramService.convertField f) r Hfind) as [line Hline].
  exists line, r. repeat split; try assumption.
  now apply find_some in Hfind.
Qed.

Lemma foreign_key_fields_are_exported_with_references_witness :
  exists line r,
    In r (DiagramData.relationships Samples.endToEndDiagram)
    /\ DiagramRelationship.fromTable r = DiagramTable.name Samples.postsTable
    /\ DiagramRelationship.fromField r
       = DiagramField.name Samples.userIdField
    /\ DiagramService.fieldDefinition Samples.endToEndDiagram (lit "sqlite")
         (SQLSyntaxMapper.IsConfig SQLSyntaxMapper.sqlite)
         Samples.postsTable Samples.userIdField
       = Ok (line ++ lit " " ++
             SQLSyntaxMapper.foreignKey
               (SQLSyntaxMapper.constraints SQLSyntaxMapper.sqlite)
               (DiagramRelationship.toTable r)
               (DiagramRelationship.toField r)).
Proof.
  apply (foreign_key_fields_are_exported_with_references
           Samples.endToEndInput (lit "sqlite") Samples.endToEndSchema
           SQLSyntaxMapper.sqlite DiagramService.empty false
           Samples.postsTable Samples.userIdField).
  - vm_compute. reflexivity.
  - reflexivity.
  - simpl. right. left. reflexivity.
  - simpl. right. left. reflexivity.
  - reflexivity.
Defined.

(** ** The cleaned text *)

Section Cleaning.

Import SchemaParser.

Lemma dropWhile_length (p : ascii -> bool) (s : str) :
  List.length (JS.dropWhile p s) <= List.length s.
Proof.
  induction s as [|c s IH]; simpl; [lia|].
  destruct (p c); simpl; lia.
Qed.

Lemma skipn_dropWhile (p : ascii -> bool) (s : str) :
  skipn (List.length s - List.length (JS.dropWhile p s)) s = JS.dropWhile p s.
Proof.
  induction s as [|c s IH]; [reflexivity|].
  cbn [JS.dropWhile]. destruct (p c) eqn:E.
  - pose proof (dropWhile_length p s) as Hle. cbn [List.length].
    replace (S (List.length s) - List.length (JS.dropWhile p s))
      with (S (List.length s - List.length (JS.dropWhile p s))) by lia.
    exact IH.
  - now rewrite Nat.sub_diag.
Qed.

Lemma replaceAll_skipn (r : Regex.t) (replacement : str) (s : str) :
  forall n,
    Regex.replaceAll r replacement n s
    = Regex.replaceAll r replacement 0 (skipn n s).
Proof.
  induction s as [|c s IH]; intros [|n]; try reflexivity.
  simpl. apply IH.
Qed.

Lemma execAll_skipn (r : Regex.t) (s : str) :
  forall n, Regex.execAll r n s = Regex.execAll r 0 (skipn n s).
Proof.
  induction s as [|c s IH]; intros [|n]; try reflexivity.
  simpl. apply IH.
Qed.

(** [\s+] at the head of a text takes the whole run of white space. *)
Lemma matchAt_spaces (c : ascii) (s : str) :
  Regex.matchAt spacesRegex (c :: s)
  = if JS.isSpace c then Some ([], JS.dropWhile JS.isSpace s) else None.
Proof.
  unfold Regex.matchAt, spacesRegex.
  cbn [Regex.matchItems Regex.matchItem Regex.plus Regex.isGroup].
  destruct (JS.isSpace c); [|reflexivity].
  rewrite greedy_total; [reflexivity|discriminate].
Qed.

(** [replace(/\s+/g, ' ')] turns every run of white space into one space. *)
Lemma replaceAll_spaces (s : str) :
  Regex.replaceAll spacesRegex (lit " ") 0 s = Spec.collapse false s
  /\ Regex.replaceAll spacesRegex (lit " ") 0 (JS.dropWhile JS.isSpace s)
     = Spec.collapse true s.
Proof.
  induction s as [|c s [IH1 IH2]]; [split; reflexivity|].
  assert (H1 : Regex.replaceAll spacesRegex (lit " ") 0 (c :: s)
               = Spec.collapse false (c :: s)).
  { cbn [Regex.replaceAll Spec.collapse]. rewrite matchAt_spaces.
    destruct (JS.isSpace c).
    - rewrite replaceAll_skipn, skipn_dropWhile, IH2. reflexivity.
    - now rewrite IH1. }
  split; [exact H1|].
  cbn [JS.dropWhile Spec.collapse].
  destruct (JS.isSpace c) eqn:E; [exact IH2|].
  rewrite H1. cbn [Spec.collapse]. now rewrite E.
Qed.

Lemma singleSpaced_collapse (s : str) :
  forall b, Spec.singleSpaced b (Spec.collapse b s) = true.
Proof.
  induction s as [|c s IH]; intros b; simpl; [reflexivity|].
  destruct (JS.isSpace c) eqn:E.
  - destruct b; [apply IH|]. simpl. apply IH.
  - simpl. rewrite E. apply IH.
Qed.

Lemma singleSpaced_weaken (b : bool) (s : str) :
  Spec.singleSpaced b s = true -> Spec.singleSpaced false s = true.
Proof.
  destruct s as [|c s]; simpl; [reflexivity|].
  destruct (JS.isSpace c); [|tauto].
  destruct b; [|tauto].
  rewrite andb_false_r. discriminate.
Qed.

Lemma singleSpaced_app_l (s t : str) :
  forall b, Spec.singleSpaced b (s ++ t) = true -> Spec.singleSpaced b s = true.
Proof.
  induction s as [|c s IH]; intros b; simpl; [reflexivity|].
  destruct (JS.isSpace c); [|apply IH].
  intros H. apply andb_true_iff in H as [H1 H2]. rewrite H1. now apply IH.
Qed.

Lemma singleSpaced_app_r (s t : str) :
  forall b, Spec.singleSpaced b (s ++ t) = true ->
            Spec.singleSpaced false t = true.
Proof.
  induction s as [|c s IH]; intros b; simpl; [apply singleSpaced_weaken|].
  destruct (JS.isSpace c); [|apply IH].
  intros H. apply andb_true_iff in H as [_ H2]. now apply IH in H2.
Qed.

Lemma takeWhile_dropWhile (p : ascii -> bool) (s : str) :
  s = JS.takeWhile p s ++ JS.dropWhile p s.
Proof.
  induction s as [|c s IH]; simpl; [reflexivity|].
  destruct (p c); simpl; [now f_equal|reflexivity].
Qed.

(** [trim] keeps a piece of the text. *)
Lemma trim_inside (s : str) :
  exists a b, s = a ++ JS.trim s ++ b.
Proof.
  unfold JS.trim. set (x := JS.dropWhile JS.isSpace s).
  exists (JS.takeWhile JS.isSpace s),
         (rev (JS.takeWhile JS.isSpace (rev x))).
  rewrite <- rev_app_distr, <- takeWhile_dropWhile, rev_involutive.
  apply takeWhile_dropWhile.
Qed.

Lemma dropWhile_head (p : ascii -> bool) (s : str) (c : ascii) (r : str) :
  JS.dropWhile p s = c :: r -> p c = false.
Proof.
  induction s as [|x s IH]; simpl; [discriminate|].
  destruct (p x) eqn:E; [exact IH|].
  intros H. now injection H as <- _.
Qed.

Lemma trim_first (s : str) (c : ascii) (r : str) :
  JS.trim s = c :: r -> JS.isSpace c = false.
Proof.
  unfold JS.trim. set (x := JS.dropWhile JS.isSpace s). intros H.
  pose proof (takeWhile_dropWhile JS.isSpace (rev x)) as Hx.
  apply (f_equal (@rev ascii)) in Hx.
  rewrite rev_involutive, rev_app_distr, H in Hx.
  now apply (dropWhile_head JS.isSpace s c
               (r ++ rev (JS.takeWhile JS.isSpace (rev x)))).
Qed.

Lemma trim_last (s : str) (c : ascii) (r : str) :
  rev (JS.trim s) = c :: r -> JS.isSpace c = false.
Proof.
  unfold JS.trim. rewrite rev_involutive. apply dropWhile_head.
Qed.

Lemma not_space_not_terminator (c : ascii) :
  JS.isSpace c = false -> JS.isLineTerminator c = false.
Proof.
  destruct c as [[] [] [] [] [] [] [] []]; vm_compute; congruence.
Qed.

Lemma singleSpaced_dot (s : str) :
  forall b, Spec.singleSpaced b s = true -> forallb Regex.dot s = true.
Proof.
  induction s as [|c s IH]; intros b; simpl; [reflexivity|].
  destruct (JS.isSpace c) eqn:E.
  - intros H. apply andb_true_iff in H as [H1 H2].
    apply andb_true_iff in H1 as [H1 _]. apply Ascii.eqb_eq in H1. subst c.
    apply IH in H2. now rewrite H2.
  - intros H. apply IH in H. rewrite H.
    unfold Regex.dot. now rewrite (not_space_not_terminator c E).
Qed.

Lemma cleanSQL_singleSpaced (sql : str) :
  Spec.singleSpaced false (cleanSQL sql) = true.
Proof.
  unfold cleanSQL.
  set (s := Regex.replaceAll commentRegex [] 0 sql).
  destruct (trim_inside (Regex.replaceAll spacesRegex (lit " ") 0 s))
    as (a & b & H).
  pose proof (singleSpaced_collapse s false) as Hc.
  rewrite <- (proj1 (replaceAll_spaces s)), H in Hc.
  apply singleSpaced_app_r in Hc. now apply singleSpaced_app_l in Hc.
Qed.

End Cleaning.

(** X13.  In the text that [cleanSQL] returns, white space is made of
    single spaces: every white-space character is a space, no two spaces are
    adjacent, and the text neither starts nor ends with one.  In particular
    it has no line terminator, so that the [.] of the statement pattern
    matches every character of it and a statement may span lines. *)
Theorem cleaned_text_has_single_spaces :
  forall sql : str,
    let text := SchemaParser.cleanSQL sql in
    Spec.singleSpaced false text = true
    /\ forallb Regex.dot text = true
    /\ (forall c r, text = c :: r -> JS.isSpace c = false)
    /\ (forall c r, rev text = c :: r -> JS.isSpace c = false).
Proof.
  intros sql text. subst text.
  pose proof (cleanSQL_singleSpaced sql) as H.
  split; [exact H|]. split; [now apply singleSpaced_dot in H|].
  split; intros c r; [apply trim_first|apply trim_last].
Qed.

(** ** A well-formed statement is recognised *)

Section Recognition.

Import SchemaParser Inference.

(** A literal text under the flag [i]. *)
Lemma matchItems_textI {A : Type} (p : str) :
  forall (x : str) (r : Regex.t) (captures : list str)
         (k : list str -> str -> option A) (s : str),
    JS.toUpperCase x = JS.toUpperCase p ->
    Regex.matchItems (map Regex.chrI p ++ r) captures k (x ++ s)
    = Regex.matchItems r captures k s.
Proof.
  induction p as [|a p IH]; intros [|b x] r captures k s H;
    try discriminate H; [reflexivity|].
  injection H as Hb Hx.
  cbn [map app Regex.matchItems Regex.matchItem Regex.chrI Regex.isGroup].
  rewrite Hb, Ascii.eqb_refl. now apply IH.
Qed.

Lemma isWord_not_space (c : ascii) : JS.isWord c = true -> JS.isSpace c = false.
Proof.
  destruct c as [[] [] [] [] [] [] [] []]; vm_compute; congruence.
Qed.

Lemma takeWhile_stop (p : ascii -> bool) (c : ascii) (s : str) :
  p c = false -> JS.takeWhile p (c :: s) = [].
Proof. intros H. simpl. now rewrite H. Qed.

Lemma matchItem_group {A : Type} (i : Regex.item)
      (k : str -> str -> option A) (s : str) :
  Regex.matchItem (Regex.Group i) k s = Regex.matchItem i k s.
Proof. reflexivity. Qed.

(** The lazy body stops at the first [);]. *)
Lemma reluctant_body {A : Type} (f : str -> str -> A) (rest : str)
      (body : str) :
  forall taken,
    forallb Regex.dot body = true ->
    JS.includes (lit ");") body = false ->
    Regex.reluctant Regex.dot
      (fun taken rest =>
         Regex.matchItems [Regex.chr ")"; Regex.chr ";"] []
                          (fun _ rest => Some (f taken rest)) rest)
      taken (body ++ lit ");" ++ rest)
    = Some (f (taken ++ body) rest).
Proof.
  induction body as [|c body IH]; intros taken Hdot Hinc.
  - rewrite app_nil_r. reflexivity.
  - simpl in Hdot. apply andb_true_iff in Hdot as [Hc Hdot].
    cbn [JS.includes] in Hinc. apply orb_false_iff in Hinc as [Hs Hinc].
    cbn [app Regex.reluctant]. rewrite Hc.
    replace (Regex.matchItems [Regex.chr ")"; Regex.chr ";"] []
               (fun _ rest => Some (f taken rest))
               (c :: body ++ lit ");" ++ rest))
      with (@None A).
    + rewrite IH by assumption. now rewrite <- app_assoc.
    + cbn [Regex.matchItems Regex.matchItem Regex.chr Regex.isGroup].
      unfold JS.startsWith in Hs. cbn [lit list_ascii_of_string JS.stripPrefix]
        in Hs.
      destruct (Ascii.eqb ")" c); [|reflexivity].
      destruct body as [|c2 body]; [reflexivity|].
      cbn [app JS.stripPrefix] in Hs |- *.
      destruct (Ascii.eqb ";" c2); [discriminate Hs|reflexivity].
Qed.

Variables create ws1 table ws2 name ws3 body : str.

Hypothesis Hcreate : JS.toUpperCase create = lit "CREATE".
Hypothesis Hws1 : ws1 <> [] /\ forallb JS.isSpace ws1 = true.
Hypothesis Htable : JS.toUpperCase table = lit "TABLE".
Hypothesis Hws2 : ws2 <> [] /\ forallb JS.isSpace ws2 = true.
Hypothesis Hname : name <> [] /\ forallb JS.isWord name = true.
Hypothesis Hws3 : forallb JS.isSpace ws3 = true.
Hypothesis Hbody : forallb Regex.dot body = true.
Hypothesis Hend : JS.includes (lit ");") body = false.

Lemma matchAt_createTable (rest : str) :
  Regex.matchAt createTableRegex
    (Spec.createTableStatement create ws1 table ws2 name ws3 body ++ rest)
  = Some ([name; body], rest).
Proof.
  unfold Spec.createTableStatement. rewrite <- !app_assoc.
  unfold Regex.matchAt, createTableRegex, Regex.textI.
  rewrite matchItems_textI by exact Hcreate.
  cbn [app Regex.matchItems Regex.isGroup].
  destruct Hws1 as [Hne1 Hsp1]. destruct Hws2 as [Hne2 Hsp2].
  destruct Hname as [Hne Hword].
  rewrite plus_run; try assumption.
  2:{ intros taken c r Hc. cbn.
      destruct c as [[] [] [] [] [] [] [] []]; try discriminate Hc;
        reflexivity. }
  2:{ destruct table as [|c t]; [discriminate Htable|].
      apply takeWhile_stop. injection Htable as Hc _.
      rewrite <- isSpace_upper, Hc. reflexivity. }
  rewrite matchItems_textI by exact Htable.
  cbn [app Regex.matchItems Regex.isGroup].
  rewrite plus_run; try assumption.
  2:{ intros taken c r Hc. cbn.
      destruct c as [[] [] [] [] [] [] [] []]; try discriminate Hc;
        reflexivity. }
  2:{ destruct name as [|c n]; [congruence|].
      apply takeWhile_stop. apply isWord_not_space.
      simpl in Hword. now apply andb_true_iff in Hword as [-> _]. }
  cbn [app Regex.matchItems Regex.isGroup].
  rewrite matchItem_group, plus_run; try assumption.
  2:{ intros taken c r Hc. cbn.
      destruct c as [[] [] [] [] [] [] [] []]; try discriminate Hc;
        reflexivity. }
  2:{ destruct ws3 as [|c w]; [reflexivity|].
      apply takeWhile_stop. simpl in Hws3.
      apply andb_true_iff in Hws3 as [Hc _].
      destruct (JS.isWord c) eqn:E; [|reflexivity].
      apply isWord_not_space in E. congruence. }
  rewrite star_run; try assumption.
  2:{ intros taken c r Hc. cbn.
      destruct c as [[] [] [] [] [] [] [] []]; try discriminate Hc;
        reflexivity. }
  2:{ reflexivity. }
  cbn [lit list_ascii_of_string app Regex.matchItem Regex.chr Ascii.eqb
       Bool.eqb Regex.starLazy].
  exact (reluctant_body (fun taken rest => ([name; taken], rest))
                        rest body [] Hbody Hend).
Qed.

Lemma skipn_suffix {X : Type} (mid rest : list X) :
  skipn (List.length (mid ++ rest) - List.length rest) (mid ++ rest) = rest.
Proof.
  rewrite length_app, Nat.add_sub, skipn_app, skipn_all, Nat.sub_diag.
  reflexivity.
Qed.

Lemma execAll_createTable (rest : str) :
  Regex.execAll createTableRegex 0
    (Spec.createTableStatement create ws1 table ws2 name ws3 body ++ rest)
  = [name; body] :: Regex.execAll createTableRegex 0 rest.
Proof.
  pose proof (matchAt_createTable rest) as Hm.
  destruct (Spec.createTableStatement create ws1 table ws2 name ws3 body)
    as [|c mid] eqn:E.
  - unfold Spec.createTableStatement in E.
    destruct create; [discriminate Hcreate|discriminate E].
  - cbn [app Regex.execAll] in *. rewrite Hm.
    now rewrite execAll_skipn, skipn_suffix.
Qed.

(** One table for each match. *)
Lemma statementsLoop_length (matches : list (list str)) :
  forall tables relationships ts rs,
    statementsLoop matches tables relationships = Ok (ts, rs) ->
    List.length ts = List.length tables + List.length matches.
Proof.
  induction matches as [|captures matches IH];
    intros tables relationships ts rs H; simpl in H.
  - injection H as <- _. simpl. lia.
  - destruct (defined (Regex.capture captures 1)) as [m1|e];
      cbn [bind] in H; [|discriminate].
    destruct (defined (Regex.capture captures 2)) as [m2|e];
      cbn [bind] in H; [|discriminate].
    destruct (parseColumnDefinitions m2) as [columns|e];
      cbn [bind] in H; [|discriminate].
    apply IH in H. rewrite length_app in H. simpl in *. lia.
Qed.

(** The first table of the schema, when the cleaned text starts with the
    statement. *)
Lemma parseClean_createTable (rest : str) :
  exists ps t ts columns,
    parseClean
      (Spec.createTableStatement create ws1 table ws2 name ws3 body ++ rest)
    = Ok ps
    /\ ParsedSchema.tables ps = t :: ts
    /\ TableSchema.name t = JS.toLowerCase name
    /\ parseColumnDefinitions body = Ok columns
    /\ Forall2 Spec.sameColumn (fst columns) (TableSchema.fields t)
    /\ List.length ts
       = List.length (Regex.execAll createTableRegex 0 rest).
Proof.
  unfold parseClean. rewrite execAll_createTable.
  cbn [statementsLoop Regex.capture Nat.sub nth_error defined bind].
  destruct (columnsLoop_total (splitColumnDefinitions body) [] [])
    as [columns Hc].
  change (columnsLoop (splitColumnDefinitions body) [] [])
    with (parseColumnDefinitions body) in Hc.
  rewrite Hc. cbn [bind app].
  destruct (statementsLoop_total
              (Regex.execAll createTableRegex 0 rest)
              (execAll_captures createTableRegex rest 0)
              [ {| TableSchema.name := JS.toLowerCase name;
                   TableSchema.fields := fst columns |} ]
              (map (fun rel => mkRelationship (JS.toLowerCase name)
                                 (fromField rel) (toTable rel) (toField rel))
                   (snd columns)))
    as [[ts rs] Hs].
  rewrite Hs. cbn [bind fst snd].
  pose proof (statementsLoop_length _ _ _ _ _ Hs) as Hlen.
  apply statementsLoop_spec in Hs as (new & -> & _ & _).
  unfold detectImplicitRelationships.
  destruct (visitTables _ _ rs) as [ts' rs'] eqn:Ev.
  apply visitTables_spec in Ev as (added & _ & _ & Hsame).
  cbn [app] in Hsame. inversion Hsame as [|t0 t' l l' [Hn Hf] Hrest]; subst.
  exists {| ParsedSchema.tables := t' :: l';
            ParsedSchema.relationships := rs' |}, t', l', columns.
  repeat split; [exact Hn|exact Hf|].
  apply Forall2_length in Hrest. cbn [app List.length] in Hlen. lia.
Qed.

End Recognition.

(** X14.  The pattern of [parseSQL] recognises every statement of the form
    [CREATE TABLE name (body);]: the keywords in any letter case, one or
    more white-space characters after each, a non-empty name of letters,
    digits and underscores, any white space before the parenthesis, and a
    body without line terminator in which [);] does not occur.  The match
    captures the name and the body as they are written, and the search goes
    on right after the statement. *)
Theorem well_formed_statement_is_matched :
  forall create ws1 table ws2 name ws3 body rest : str,
    JS.toUpperCase create = lit "CREATE" ->
    ws1 <> [] /\ forallb JS.isSpace ws1 = true ->
    JS.toUpperCase table = lit "TABLE" ->
    ws2 <> [] /\ forallb JS.isSpace ws2 = true ->
    name <> [] /\ forallb JS.isWord name = true ->
    forallb JS.isSpace ws3 = true ->
    forallb Regex.dot body = true ->
    JS.includes (lit ");") body = false ->
    Regex.execAll SchemaParser.createTableRegex 0
      (Spec.createTableStatement create ws1 table ws2 name ws3 body ++ rest)
    = [name; body] :: Regex.execAll SchemaParser.createTableRegex 0 rest.
Proof.
  intros create ws1 table ws2 name ws3 body rest
         Hcreate Hws1 Htable Hws2 Hname Hws3 Hbody Hend.
  now apply execAll_createTable.
Qed.

Lemma well_formed_statement_is_matched_witness :
  Regex.execAll SchemaParser.createTableRegex 0
    (Spec.createTableStatement (lit "create") (lit "  ") (lit "Table")
       (lit " ") (lit "Order_Items") [] (lit " id INT, price NUMERIC(10,2) ")
     ++ lit " CREATE TABLE b (x INT);")
  = [lit "Order_Items"; lit " id INT, price NUMERIC(10,2) "]
    :: Regex.execAll SchemaParser.createTableRegex 0
         (lit " CREATE TABLE b (x INT);").
Proof.
  apply (well_formed_statement_is_matched
           (lit "create") (lit "  ") (lit "Table") (lit " ")
           (lit "Order_Items") [] (lit " id INT, price NUMERIC(10,2) ")
           (lit " CREATE TABLE b (x INT);")).
  - reflexivity.
  - split; [discriminate|reflexivity].
  - reflexivity.
  - split; [discriminate|reflexivity].
  - split; [discriminate|reflexivity].
  - reflexivity.
  - reflexivity.
  - reflexivity.
Defined.

(** X15.  When the cleaned input starts with such a statement, [parseSQL]
    returns a schema whose first table has the name of the statement in
    lower case and, column for column, the fields that
    [parseColumnDefinitions] reads in its body (a field can only differ by
    a foreign key that the inference pass gives it). *)
Theorem well_formed_statement_gives_first_table :
  forall sql create ws1 table ws2 name ws3 body rest : str,
    SchemaParser.cleanSQL sql
    = Spec.createTableStatement create ws1 table ws2 name ws3 body ++ rest ->
    JS.toUpperCase create = lit "CREATE" ->
    ws1 <> [] /\ forallb JS.isSpace ws1 = true ->
    JS.toUpperCase table = lit "TABLE" ->
    ws2 <> [] /\ forallb JS.isSpace ws2 = true ->
    name <> [] /\ forallb JS.isWord name = true ->
    forallb JS.isSpace ws3 = true ->
    forallb Regex.dot body = true ->
    JS.includes (lit ");") body = false ->
    exists ps t ts columns,
      Inference.parseSQL sql = Ok ps
      /\ ParsedSchema.tables ps = t :: ts
      /\ TableSchema.name t = JS.toLowerCase name
      /\ SchemaParser.parseColumnDefinitions body = Ok columns
      /\ Forall2 Spec.sameColumn (fst columns) (TableSchema.fields t).
Proof.
  intros sql create ws1 table ws2 name ws3 body rest Hclean
         Hcreate Hws1 Htable Hws2 Hname Hws3 Hbody Hend.
  unfold Inference.parseSQL. rewrite Hclean.
  destruct (parseClean_createTable create ws1 table ws2 name ws3 body
              Hcreate Hws1 Htable Hws2 Hname Hws3 Hbody Hend rest)
    as (ps & t & ts & columns & H1 & H2 & H3 & H4 & H5 & _).
  now exists ps, t, ts, columns.
Qed.

Lemma well_formed_statement_gives_first_table_witness :
  exists ps t ts columns,
    Inference.parseSQL
      (lit "-- orders
create   Table Order_Items(
  id INT,
  price NUMERIC(10,2)
);
CREATE TABLE b (x INT);") = Ok ps
    /\ ParsedSchema.tables ps = t :: ts
    /\ TableSchema.name t = JS.toLowerCase (lit "Order_Items")
    /\ SchemaParser.parseColumnDefinitions
         (lit " id INT, price NUMERIC(10,2) ") = Ok columns
    /\ Forall2 Spec.sameColumn (fst columns) (TableSchema.fields t).
Proof.
  apply (well_formed_statement_gives_first_table
           (lit "-- orders
create   Table Order_Items(
  id INT,
  price NUMERIC(10,2)
);
CREATE TABLE b (x INT);")
           (lit "create") (lit " ") (lit "Table") (lit " ")
           (lit "Order_Items") [] (lit " id INT, price NUMERIC(10,2) ")
           (lit " CREATE TABLE b (x INT);")).
  - vm_compute. reflexivity.
  - reflexivity.
  - split; [discriminate|reflexivity].
  - reflexivity.
  - split; [discriminate|reflexivity].
  - split; [discriminate|reflexivity].
  - reflexivity.
  - reflexivity.
  - reflexivity.
Defined.

(** ** The statements that the editors build *)

Section Words.

Lemma isWord_upper (c : ascii) : JS.isWord (JS.upper c) = JS.isWord c.
Proof. destruct c as [[] [] [] [] [] [] [] []]; reflexivity. Qed.

Lemma not_space_eqb (c : ascii) :
  JS.isSpace c = false ->
  Ascii.eqb c " " = false /\ Ascii.eqb " " c = false.
Proof.
  destruct c as [[] [] [] [] [] [] [] []]; vm_compute; intros H;
    try discriminate H; split; reflexivity.
Qed.

Lemma word_no_space (w : str) :
  forallb JS.isWord w = true ->
  forallb (fun c => negb (JS.isSpace c)) w = true.
Proof.
  induction w as [|c w IH]; simpl; [reflexivity|].
  intros H. apply andb_true_iff in H as [Hc Hw].
  now rewrite (isWord_not_space c Hc), IH.
Qed.

Lemma toUpperCase_word (w : str) :
  forallb JS.isWord w = true -> forallb JS.isWord (JS.toUpperCase w) = true.
Proof.
  induction w as [|c w IH]; simpl; [reflexivity|].
  intros H. apply andb_true_iff in H as [Hc Hw].
  now rewrite isWord_upper, Hc, IH.
Qed.

Lemma stripPrefix_Some (p : str) :
  forall w r, JS.stripPrefix p w = Some r -> w = p ++ r.
Proof.
  induction p as [|x p IH]; intros w r; simpl.
  - intros H. now injection H as <-.
  - destruct w as [|y w]; [discriminate|].
    destruct (Ascii.eqb x y) eqn:E; [|discriminate].
    apply Ascii.eqb_eq in E. subst y. intros H. f_equal. now apply IH.
Qed.

(** A prefix without white space is looked for in the first word. *)
Lemma stripPrefix_word (p : str) :
  forall w s,
    forallb (fun c => negb (JS.isSpace c)) p = true ->
    JS.stripPrefix p (w ++ " "%char :: s)
    = match JS.stripPrefix p w with
      | Some w' => Some (w' ++ " "%char :: s)
      | None => None
      end.
Proof.
  induction p as [|x p IH]; intros w s Hp; [reflexivity|].
  simpl in Hp. apply andb_true_iff in Hp as [Hx Hp].
  apply negb_true_iff in Hx. apply not_space_eqb in Hx as [Hx _].
  destruct w as [|y w]; cbn [app JS.stripPrefix].
  - now rewrite Hx.
  - destruct (Ascii.eqb x y); [now apply IH|reflexivity].
Qed.

(** A text [a b], with one space, does not start a text whose first word is
    followed by something else than [b]. *)
Lemma startsWith_spaced (a b : str) :
  forall w s,
    forallb (fun c => negb (JS.isSpace c)) a = true ->
    forallb (fun c => negb (JS.isSpace c)) w = true ->
    JS.startsWith b s = false ->
    JS.startsWith (a ++ " "%char :: b) (w ++ " "%char :: s) = false.
Proof.
  unfold JS.startsWith.
  induction a as [|x a IH]; intros w s Ha Hw Hb.
  - destruct w as [|y w]; cbn [app JS.stripPrefix].
    + now rewrite Ascii.eqb_refl.
    + simpl in Hw. apply andb_true_iff in Hw as [Hy _].
      apply negb_true_iff in Hy. apply not_space_eqb in Hy as [_ Hy].
      now rewrite Hy.
  - simpl in Ha. apply andb_true_iff in Ha as [Hx Ha].
    destruct w as [|y w]; cbn [app JS.stripPrefix].
    + apply negb_true_iff in Hx. apply not_space_eqb in Hx as [Hx _].
      now rewrite Hx.
    + simpl in Hw. apply andb_true_iff in Hw as [_ Hw].
      destruct (Ascii.eqb x y); [now apply IH|reflexivity].
Qed.

Lemma includes_spaced (a b : str) (s : str) :
  forall w,
    forallb (fun c => negb (JS.isSpace c)) a = true ->
    forallb (fun c => negb (JS.isSpace c)) w = true ->
    JS.startsWith b s = false ->
    JS.includes (a ++ " "%char :: b) (w ++ " "%char :: s)
    = JS.includes (a ++ " "%char :: b) (" "%char :: s).
Proof.
  induction w as [|y w IH]; intros Ha Hw Hb; [reflexivity|].
  cbn [app JS.includes].
  pose proof (startsWith_spaced a b (y :: w) s Ha Hw Hb) as H0.
  cbn [app] in H0. rewrite H0. cbn [orb].
  apply IH; try assumption.
  simpl in Hw. now apply andb_true_iff in Hw as [_ Hw].
Qed.

End Words.

Section ClauseOfAColumn.

Import SchemaParser.

Lemma splitFrom_skipn (r : Regex.t) (s : str) :
  forall current n,
    Regex.splitFrom r current n s = Regex.splitFrom r current 0 (skipn n s).
Proof.
  induction s as [|c s IH]; intros current [|n]; try reflexivity.
  simpl. apply IH.
Qed.

Lemma splitFrom_word (w : str) :
  forall current s,
    forallb (fun c => negb (JS.isSpace c)) w = true ->
    Regex.splitFrom spacesRegex current 0 (w ++ s)
    = Regex.splitFrom spacesRegex (current ++ w) 0 s.
Proof.
  induction w as [|c w IH]; intros current s Hw.
  - now rewrite app_nil_r.
  - simpl in Hw. apply andb_true_iff in Hw as [Hc Hw].
    apply negb_true_iff in Hc.
    cbn [app Regex.splitFrom]. rewrite matchAt_spaces, Hc, IH by assumption.
    now rewrite <- app_assoc.
Qed.

Lemma splitFrom_space (current s : str) :
  Regex.splitFrom spacesRegex current 0 (" "%char :: s)
  = current :: Regex.splitFrom spacesRegex [] 0 (JS.dropWhile JS.isSpace s).
Proof.
  cbn [Regex.splitFrom]. rewrite matchAt_spaces.
  change (JS.isSpace " ") with true. cbv iota.
  now rewrite splitFrom_skipn, skipn_dropWhile.
Qed.

Lemma splitFrom_not_nil (r : Regex.t) (s : str) :
  forall current n, Regex.splitFrom r current n s <> [].
Proof.
  induction s as [|c s IH]; intros current n; simpl; [discriminate|].
  destruct n; [|apply IH].
  destruct (Regex.matchAt r (c :: s)) as [[? ?]|]; [discriminate|apply IH].
Qed.

(** A text that starts with single spaces in mind starts with no space. *)
Lemma singleSpaced_true_first (s : str) :
  Spec.singleSpaced true s = true -> JS.dropWhile JS.isSpace s = s.
Proof.
  destruct s as [|c s]; simpl; [reflexivity|].
  destruct (JS.isSpace c); [|reflexivity].
  rewrite andb_false_r. discriminate.
Qed.

(** No [REFERENCES] clause is read in a clause made of a column name and a
    text in which none is read. *)
Lemma exec_references_word (tail : str) :
  Regex.matchAt referencesRegex (lit "REFERENCES " ++ tail) = None ->
  Regex.exec referencesRegex (" "%char :: tail) = None ->
  forall w,
    forallb JS.isWord w = true ->
    Regex.exec referencesRegex (w ++ " "%char :: tail) = None.
Proof.
  intros Hkeyword Htail. induction w as [|c w IH]; intros Hw; [exact Htail|].
  assert (Hhere : Regex.matchAt referencesRegex ((c :: w) ++ " "%char :: tail)
                  = None).
  { unfold Regex.matchAt, referencesRegex, Regex.text.
    rewrite matchItems_text, stripPrefix_word by reflexivity.
    destruct (JS.stripPrefix (lit "REFERENCES") (c :: w)) as [w'|] eqn:E;
      [|reflexivity].
    apply stripPrefix_Some in E.
    destruct w' as [|c' w'].
    - rewrite app_nil_r in E.
      unfold Regex.matchAt, referencesRegex, Regex.text in Hkeyword.
      rewrite matchItems_text in Hkeyword. exact Hkeyword.
    - rewrite E, forallb_app in Hw. apply andb_true_iff in Hw as [_ Hw].
      simpl in Hw. apply andb_true_iff in Hw as [Hc' _].
      cbn [app Regex.matchItems Regex.matchItem Regex.plus].
      now rewrite (isWord_not_space c' Hc'). }
  unfold Regex.exec in *. cbn [app JS.firstMatch] in *. rewrite Hhere.
  apply IH. simpl in Hw. now apply andb_true_iff in Hw as [_ Hw].
Qed.

Lemma toUpperCase_clause (n tail : str) :
  JS.toUpperCase (n ++ lit " " ++ tail)
  = JS.toUpperCase n ++ " "%char :: JS.toUpperCase tail.
Proof. unfold JS.toUpperCase. now rewrite map_app. Qed.

(** The field read in the clause of a column whose name is an identifier
    that does not start with [CONSTRAINT] and whose text is plain. *)
Lemma parseColumnDefinition_generated (n tail : str) :
  Spec.isIdentifier n = true ->
  JS.startsWith (lit "CONSTRAINT") (JS.toUpperCase n) = false ->
  Spec.plainTail tail = true ->
  exists f,
    parseColumnDefinition (Spec.columnClause (n, tail)) = Ok (Some f)
    /\ Spec.ReadAs (n, tail) f.
Proof.
  intros Hn Hconstraint Htail.
  unfold Spec.isIdentifier in Hn. apply andb_true_iff in Hn as [Hne Hword].
  unfold Spec.plainTail in Htail.
  repeat (apply andb_true_iff in Htail as [Htail ?]).
  match goal with H : negb (JS.startsWith (lit "KEY") _) = true |- _ =>
    apply negb_true_iff in H; rename H into Hkey end.
  match goal with H : negb (JS.startsWith (lit "NULL") _) = true |- _ =>
    apply negb_true_iff in H; rename H into Hnull end.
  match goal with
  | H : match Regex.matchAt _ _ with _ => _ end = true |- _ =>
      rename H into Hrk
  end.
  match goal with
  | H : match Regex.exec _ _ with _ => _ end = true |- _ =>
      rename H into Hrt
  end.
  match goal with H : Spec.singleSpaced true tail = true |- _ =>
    rename H into Hsingle end.
  destruct (Regex.matchAt referencesRegex
              (lit "REFERENCES " ++ JS.toUpperCase tail)) eqn:Ek;
    [discriminate Hrk|].
  destruct (Regex.exec referencesRegex (lit " " ++ JS.toUpperCase tail)) eqn:Et;
    [discriminate Hrt|].
  pose proof (toUpperCase_word n Hword) as HU.
  pose proof (word_no_space _ HU) as HUs.
  unfold Spec.columnClause. cbn [fst snd].
  unfold parseColumnDefinition. rewrite !toUpperCase_clause.
  (* the three guards *)
  assert (G1 : JS.startsWith (lit "CONSTRAINT")
                 (JS.toUpperCase n ++ " "%char :: JS.toUpperCase tail) = false).
  { unfold JS.startsWith in *. rewrite stripPrefix_word by reflexivity.
    now destruct (JS.stripPrefix (lit "CONSTRAINT") (JS.toUpperCase n)). }
  assert (G2 : JS.startsWith (lit "PRIMARY KEY")
                 (JS.toUpperCase n ++ " "%char :: JS.toUpperCase tail) = false)
    by (apply (startsWith_spaced (lit "PRIMARY") (lit "KEY"));
        [reflexivity|exact HUs|exact Hkey]).
  assert (G3 : JS.startsWith (lit "FOREIGN KEY")
                 (JS.toUpperCase n ++ " "%char :: JS.toUpperCase tail) = false)
    by (apply (startsWith_spaced (lit "FOREIGN") (lit "KEY"));
        [reflexivity|exact HUs|exact Hkey]).
  rewrite G1, G2, G3. cbn [orb].
  (* the parts *)
  assert (Hparts : Regex.split spacesRegex (n ++ lit " " ++ tail)
                   = n :: Regex.split spacesRegex tail).
  { unfold Regex.split. change (lit " " ++ tail) with (" "%char :: tail).
    rewrite splitFrom_word by now apply word_no_space.
    now rewrite splitFrom_space, (singleSpaced_true_first tail Hsingle). }
  rewrite Hparts.
  destruct (Regex.split spacesRegex tail) as [|p1 more] eqn:Es;
    [now apply splitFrom_not_nil in Es|].
  cbn [List.length Nat.ltb Nat.leb nth_error defined bind].
  destruct (normalizeType_total p1) as [type Ht]. rewrite Ht. cbn [bind].
  rewrite (normalizeType_not_serial _ _ Ht).
  (* no foreign key *)
  unfold referencesOf.
  rewrite (exec_references_word (JS.toUpperCase tail) Ek Et _ HU).
  cbn [bind].
  eexists. split; [reflexivity|].
  unfold Spec.ReadAs.
  cbn [fst snd TableField.name TableField.type TableField.nullable
       TableField.primaryKey TableField.foreignKey hd].
  change (lit " " ++ JS.toUpperCase tail)
    with (" "%char :: JS.toUpperCase tail).
  change (lit "NOT NULL") with (lit "NOT" ++ " "%char :: lit "NULL").
  change (lit "PRIMARY KEY") with (lit "PRIMARY" ++ " "%char :: lit "KEY").
  rewrite (includes_spaced (lit "NOT") (lit "NULL") _ _ eq_refl HUs Hnull).
  rewrite (includes_spaced (lit "PRIMARY") (lit "KEY") _ _ eq_refl HUs Hkey).
  repeat split; try reflexivity.
  - rewrite Es. exact Ht.
  - match goal with
    | |- context [JS.includes ?p ?s] => now destruct (JS.includes p s)
    end.
Qed.

End ClauseOfAColumn.

Section GeneratedText.

Import SchemaParser Inference.

Lemma forallb_join (q : ascii -> bool) (sep : str) (l : list str) :
  forallb q sep = true ->
  Forall (fun x => forallb q x = true) l ->
  forallb q (JS.join sep l) = true.
Proof.
  intros Hsep H. induction H as [|x l Hx Hl IH]; [reflexivity|].
  destruct l as [|y l]; [exact Hx|].
  change (JS.join sep (x :: y :: l)) with (x ++ sep ++ JS.join sep (y :: l)).
  now rewrite !forallb_app, Hx, Hsep, IH.
Qed.

Lemma word_noChar (c : ascii) (w : str) :
  JS.isWord c = false -> forallb JS.isWord w = true -> Spec.noChar c w = true.
Proof.
  intros Hc. unfold Spec.noChar.
  induction w as [|x w IH]; simpl; [reflexivity|].
  intros H. apply andb_true_iff in H as [Hx Hw]. rewrite (IH Hw).
  destruct (Ascii.eqb c x) eqn:E; [|reflexivity].
  apply Ascii.eqb_eq in E. congruence.
Qed.

(** A text without [-] has no comment. *)
Lemma replaceAll_no_dash (s : str) :
  Spec.noChar "-" s = true -> Regex.replaceAll commentRegex [] 0 s = s.
Proof.
  unfold Spec.noChar.
  induction s as [|c s IH]; [reflexivity|].
  cbn [forallb Regex.replaceAll].
  intros H. apply andb_true_iff in H as [Hc Hs]. apply negb_true_iff in Hc.
  assert (E : Regex.matchAt commentRegex (c :: s) = None).
  { unfold Regex.matchAt, commentRegex, Regex.text.
    rewrite matchItems_text.
    cbn [lit list_ascii_of_string JS.stripPrefix]. now rewrite Hc. }
  rewrite E. f_equal. now apply IH.
Qed.

Lemma fold_left_last {X : Type} (g : X -> bool) (t : list X) :
  forall b : bool,
    fold_left (fun _ c => g c) t b
    = match rev t with [] => b | c :: _ => g c end.
Proof.
  induction t as [|x t IH] using rev_ind; intros b; [reflexivity|].
  now rewrite fold_left_app, rev_app_distr.
Qed.

Lemma collapse_fixed (t : str) :
  forall b s,
    Spec.singleSpaced b t = true ->
    Spec.collapse b (t ++ s)
    = t ++ Spec.collapse (fold_left (fun _ c => JS.isSpace c) t b) s.
Proof.
  induction t as [|c t IH]; intros b s H; [reflexivity|].
  cbn [app Spec.collapse fold_left]. simpl in H.
  destruct (JS.isSpace c) eqn:E.
  - apply andb_true_iff in H as [H1 H2].
    apply andb_true_iff in H1 as [Hc Hb].
    apply negb_true_iff in Hb. apply Ascii.eqb_eq in Hc. subst b c.
    f_equal. now apply IH.
  - f_equal. now apply IH.
Qed.

(** A text in which white space is single spaces, with none at its end, is
    left as it is. *)
Lemma collapse_token (t : str) (b : bool) (s : str) :
  Spec.singleSpaced b t = true ->
  match rev t with c :: _ => negb (JS.isSpace c) | [] => false end = true ->
  Spec.collapse b (t ++ s) = t ++ Spec.collapse false s.
Proof.
  intros H Hend. rewrite collapse_fixed, fold_left_last by exact H.
  destruct (rev t) as [|c r]; [discriminate Hend|].
  apply negb_true_iff in Hend. now rewrite Hend.
Qed.

Lemma word_singleSpaced (w : str) :
  forall b, forallb JS.isWord w = true -> Spec.singleSpaced b w = true.
Proof.
  induction w as [|c w IH]; intros b; simpl; [reflexivity|].
  intros H. apply andb_true_iff in H as [Hc Hw].
  rewrite (isWord_not_space c Hc). now apply IH.
Qed.

Lemma word_first (w : str) :
  Spec.isIdentifier w = true ->
  match w with x :: _ => negb (JS.isSpace x) | [] => false end = true.
Proof.
  unfold Spec.isIdentifier. destruct w as [|x w]; simpl; [discriminate|].
  intros H. apply andb_true_iff in H as [Hx _].
  now rewrite (isWord_not_space x Hx).
Qed.

Lemma word_last (w : str) :
  Spec.isIdentifier w = true ->
  match rev w with x :: _ => negb (JS.isSpace x) | [] => false end = true.
Proof.
  unfold Spec.isIdentifier. intros H. apply andb_true_iff in H as [Hne Hw].
  destruct (rev w) as [|x r] eqn:E.
  - apply (f_equal (@rev ascii)) in E. rewrite rev_involutive in E.
    subst w. discriminate Hne.
  - rewrite forallb_forall in Hw.
    assert (Hx : In x w) by (apply in_rev; rewrite E; now left).
    now rewrite (isWord_not_space x (Hw x Hx)).
Qed.

Lemma plainColumn_parts (column : str * str) :
  Spec.plainColumn column = true ->
  Spec.isIdentifier (fst column) = true
  /\ JS.startsWith (lit "CONSTRAINT") (JS.toUpperCase (fst column)) = false
  /\ Spec.plainTail (snd column) = true.
Proof.
  unfold Spec.plainColumn. intros H.
  apply andb_true_iff in H as [H Ht]. apply andb_true_iff in H as [Hn Hc].
  apply negb_true_iff in Hc. tauto.
Qed.

Lemma plainTail_parts (tail : str) :
  Spec.plainTail tail = true ->
  JS.truthy tail = true
  /\ Spec.singleSpaced true tail = true
  /\ match rev tail with c :: _ => negb (JS.isSpace c) | [] => false end = true
  /\ Spec.noChar "-" tail = true
  /\ Spec.noChar ";" tail = true
  /\ Spec.commasInside 0%Z tail = true
  /\ Spec.depthAfter 0%Z tail = 0%Z.
Proof.
  unfold Spec.plainTail. intros H.
  repeat (apply andb_true_iff in H as [H ?]).
  repeat split; try assumption. now apply Z.eqb_eq.
Qed.

(** One line of the statement, cleaned. *)
Lemma collapse_columnLine (column : str * str) (s : str) :
  Spec.plainColumn column = true ->
  Spec.collapse true (Spec.columnLine column ++ s)
  = Spec.columnClause column ++ Spec.collapse false s.
Proof.
  intros H. apply plainColumn_parts in H as (Hn & _ & Ht).
  apply plainTail_parts in Ht as (_ & Hsingle & Hend & _).
  destruct column as [n tail]. unfold Spec.columnLine, Spec.columnClause.
  cbn [fst snd] in *. rewrite <- !app_assoc.
  change (Spec.collapse true (lit "    " ++ n ++ lit " " ++ tail ++ s))
    with (Spec.collapse true (n ++ lit " " ++ tail ++ s)).
  pose proof Hn as Hn'. unfold Spec.isIdentifier in Hn'.
  apply andb_true_iff in Hn' as [_ Hw].
  rewrite collapse_token
    by (try apply word_singleSpaced; try apply word_last; assumption).
  f_equal.
  change (Spec.collapse false (lit " " ++ tail ++ s))
    with (" "%char :: Spec.collapse true (tail ++ s)).
  now rewrite collapse_token by assumption.
Qed.

(** The lines of the statement, cleaned. *)
Lemma collapse_lines (columns : list (str * str)) (s : str) :
  columns <> [] ->
  Forall (fun column => Spec.plainColumn column = true) columns ->
  Spec.collapse true
    (JS.join (lit "," ++ [DiagramService.nl]) (map Spec.columnLine columns)
     ++ s)
  = JS.join (lit ", ") (map Spec.columnClause columns)
    ++ Spec.collapse false s.
Proof.
  intros Hne H. induction H as [|column columns Hc Hcs IH]; [congruence|].
  destruct columns as [|column' columns].
  - cbn [map JS.join]. now apply collapse_columnLine.
  - change (JS.join (lit "," ++ [DiagramService.nl])
                    (map Spec.columnLine (column :: column' :: columns)))
      with (Spec.columnLine column ++ (lit "," ++ [DiagramService.nl]) ++
            JS.join (lit "," ++ [DiagramService.nl])
                    (map Spec.columnLine (column' :: columns))).
    change (JS.join (lit ", ")
                    (map Spec.columnClause (column :: column' :: columns)))
      with (Spec.columnClause column ++ lit ", " ++
            JS.join (lit ", ") (map Spec.columnClause (column' :: columns))).
    rewrite <- !app_assoc, collapse_columnLine by exact Hc.
    f_equal.
    change (Spec.collapse false
              (lit "," ++ [DiagramService.nl] ++
               JS.join (lit "," ++ [DiagramService.nl])
                       (map Spec.columnLine (column' :: columns)) ++ s))
      with (","%char :: " "%char ::
            Spec.collapse true
              (JS.join (lit "," ++ [DiagramService.nl])
                       (map Spec.columnLine (column' :: columns)) ++ s)).
    rewrite IH by discriminate. reflexivity.
Qed.

End GeneratedText.

Section GeneratedStatement.

Import SchemaParser Inference.

Lemma dropWhile_first (p : ascii -> bool) (s : str) :
  match s with x :: _ => negb (p x) | [] => false end = true ->
  JS.dropWhile p s = s.
Proof.
  destruct s as [|x s]; simpl; [discriminate|].
  intros H. apply negb_true_iff in H. now rewrite H.
Qed.

Lemma forallb_rev {X : Type} (p : X -> bool) (l : list X) :
  forallb p (rev l) = forallb p l.
Proof.
  induction l as [|x l IH]; simpl; [reflexivity|].
  rewrite forallb_app, IH. simpl. rewrite andb_true_r. apply andb_comm.
Qed.

(** [trim] removes the white space around a text that has none at its
    ends. *)
Lemma trim_padded (a c b : str) :
  forallb JS.isSpace a = true ->
  forallb JS.isSpace b = true ->
  match c with x :: _ => negb (JS.isSpace x) | [] => false end = true ->
  match rev c with x :: _ => negb (JS.isSpace x) | [] => false end = true ->
  JS.trim (a ++ c ++ b) = c.
Proof.
  intros Ha Hb Hfirst Hlast. unfold JS.trim.
  rewrite dropWhile_app_run by exact Ha.
  destruct c as [|x c]; [discriminate Hfirst|].
  rewrite (dropWhile_first JS.isSpace ((x :: c) ++ b)) by exact Hfirst.
  rewrite rev_app_distr, dropWhile_app_run by now rewrite forallb_rev.
  rewrite (dropWhile_first JS.isSpace (rev (x :: c))) by exact Hlast.
  apply rev_involutive.
Qed.

Lemma word_not_separator (c : ascii) :
  JS.isWord c = true ->
  Ascii.eqb c "(" = false /\ Ascii.eqb c ")" = false /\ Ascii.eqb c "," = false.
Proof.
  destruct c as [[] [] [] [] [] [] [] []]; vm_compute; intros H;
    try discriminate H; repeat split.
Qed.

Lemma commasInside_word (w s : str) (d : Z) :
  forallb JS.isWord w = true ->
  Spec.commasInside d (w ++ s) = Spec.commasInside d s
  /\ Spec.depthAfter d (w ++ s) = Spec.depthAfter d s.
Proof.
  induction w as [|c w IH]; [now split|].
  intros H. simpl in H. apply andb_true_iff in H as [Hc Hw].
  destruct (word_not_separator c Hc) as (H1 & H2 & H3).
  cbn [app Spec.commasInside Spec.depthAfter]. rewrite H1, H2, H3.
  now apply IH.
Qed.

Lemma commasInside_app (a b : str) :
  forall d,
    Spec.commasInside d (a ++ b)
    = Spec.commasInside d a && Spec.commasInside (Spec.depthAfter d a) b.
Proof.
  induction a as [|c a IH]; intros d; [reflexivity|].
  cbn [app Spec.commasInside Spec.depthAfter].
  destruct (Ascii.eqb c "("); [apply IH|].
  destruct (Ascii.eqb c ")"); [apply IH|].
  destruct (Ascii.eqb c ","); [|apply IH].
  now rewrite IH, andb_assoc.
Qed.

Lemma depthAfter_app (a b : str) :
  forall d, Spec.depthAfter d (a ++ b) = Spec.depthAfter (Spec.depthAfter d a) b.
Proof.
  induction a as [|c a IH]; intros d; [reflexivity|].
  cbn [app Spec.depthAfter].
  destruct (Ascii.eqb c "("); [apply IH|].
  destruct (Ascii.eqb c ")"); apply IH.
Qed.

(** The clause of a plain column is a plain clause. *)
Lemma plainClause_column (column : str * str) :
  Spec.plainColumn column = true ->
  Spec.plainClause (Spec.columnClause column) = true.
Proof.
  intros H. apply plainColumn_parts in H as (Hn & _ & Ht).
  apply plainTail_parts in Ht as (Hne & _ & Hend & _ & _ & Hc & Hd).
  destruct column as [n tail]. cbn [fst snd] in *.
  pose proof (word_first n Hn) as Hfirst.
  unfold Spec.isIdentifier in Hn. apply andb_true_iff in Hn as [Hnn Hw].
  unfold Spec.plainClause, Spec.columnClause. cbn [fst snd].
  destruct (commasInside_word n (lit " " ++ tail) 0 Hw) as [-> ->].
  change (Spec.commasInside 0 (lit " " ++ tail))
    with (Spec.commasInside 0 tail).
  change (Spec.depthAfter 0 (lit " " ++ tail)) with (Spec.depthAfter 0 tail).
  rewrite Hc, Hd, !rev_app_distr.
  destruct n as [|x n]; [discriminate Hnn|]. cbn [app] in *. rewrite Hfirst.
  destruct (rev tail) as [|y r]; [discriminate Hend|].
  cbn [app]. now rewrite Hend.
Qed.

(** The body of the cleaned statement is split into the clauses of its
    columns. *)
Lemma splitLoop_clauses (clauses : list str) :
  clauses <> [] ->
  Forall (fun c => Spec.plainClause c = true) clauses ->
  forall current columns,
    forallb JS.isSpace current = true ->
    splitLoop (JS.join (lit ", ") clauses ++ lit " ") current 0%Z columns
    = columns ++ clauses.
Proof.
  intros Hne H. induction H as [|c clauses Hc Hcs IH]; [congruence|].
  intros current columns Hcur.
  unfold Spec.plainClause in Hc.
  apply andb_true_iff in Hc as [Hc Hdepth]. apply Z.eqb_eq in Hdepth.
  apply andb_true_iff in Hc as [Hc Hcommas].
  apply andb_true_iff in Hc as [Hfirst Hlast].
  assert (Htrim : forall pad, forallb JS.isSpace pad = true ->
                              JS.trim (current ++ c ++ pad) = c)
    by (intros pad Hpad; now apply trim_padded).
  assert (Hcne : JS.truthy c = true)
    by (destruct c; [discriminate Hfirst|reflexivity]).
  destruct clauses as [|c' clauses].
  - cbn [JS.join].
    rewrite (splitLoop_inside c (lit " ") current 0 columns Hcommas), Hdepth.
    cbn [lit list_ascii_of_string splitLoop].
    change (Ascii.eqb " " "(") with false.
    change (Ascii.eqb " " ")") with false.
    change (Ascii.eqb " " ",") with false.
    cbn [andb]. rewrite <- app_assoc.
    rewrite (Htrim [" "%char] eq_refl), Hcne. reflexivity.
  - change (JS.join (lit ", ") (c :: c' :: clauses))
      with (c ++ lit ", " ++ JS.join (lit ", ") (c' :: clauses)).
    rewrite <- !app_assoc.
    rewrite (splitLoop_inside c _ current 0 columns Hcommas), Hdepth.
    cbn [lit list_ascii_of_string app splitLoop].
    change (Ascii.eqb "," "(") with false.
    change (Ascii.eqb "," ")") with false.
    change (Ascii.eqb "," ",") with true.
    change (Ascii.eqb " " "(") with false.
    change (Ascii.eqb " " ")") with false.
    change (Ascii.eqb " " ",") with false.
    cbn [andb Z.eqb].
    pose proof (Htrim [] eq_refl) as Ht0. rewrite app_nil_r in Ht0.
    rewrite Ht0, Hcne.
    change (JS.join (lit ", ") (c' :: clauses) ++ [" "%char])
      with (JS.join (lit ", ") (c' :: clauses) ++ lit " ").
    rewrite IH by (try discriminate; reflexivity).
    now rewrite <- app_assoc.
Qed.

(** The loop over clauses that all give a field. *)
Lemma columnsLoop_fields (columns : list str) (fs : list TableField.t) :
  Forall2 (fun c f => parseColumnDefinition (JS.trim c) = Ok (Some f))
          columns fs ->
  forall fields relationships,
    columnsLoop columns fields relationships
    = Ok (fields ++ fs, relationships ++ Spec.columnRelationships fs).
Proof.
  induction 1 as [|c f columns fs Hc _ IH]; intros fields relationships.
  - simpl. now rewrite !app_nil_r.
  - cbn [columnsLoop]. rewrite Hc. cbn [bind]. rewrite IH.
    unfold Spec.columnRelationships. cbn [flat_map].
    rewrite <- !app_assoc. cbn [app].
    destruct (TableField.foreignKey f); now rewrite <- ?app_assoc.
Qed.

Lemma includes_close_noChar (s : str) :
  Spec.noChar ";" s = true -> JS.includes (lit ");") s = false.
Proof.
  unfold Spec.noChar.
  induction s as [|c s IH]; [reflexivity|].
  cbn [forallb]. intros H. apply andb_true_iff in H as [_ Hs].
  cbn [JS.includes]. rewrite (IH Hs), orb_false_r.
  unfold JS.startsWith. cbn [lit list_ascii_of_string JS.stripPrefix].
  destruct (Ascii.eqb ")" c); [|reflexivity].
  destruct s as [|c2 s]; [reflexivity|].
  cbn [forallb] in Hs. apply andb_true_iff in Hs as [Hc2 _].
  apply negb_true_iff in Hc2. now rewrite Hc2.
Qed.

Variable name : str.
Variable columns : list (str * str).

Hypothesis Hname : Spec.isIdentifier name = true.
Hypothesis Hne : columns <> [].
Hypothesis Hcolumns :
  Forall (fun column => Spec.plainColumn column = true) columns.

Lemma noChar_clauses (c : ascii) :
  JS.isWord c = false -> Ascii.eqb c " " = false ->
  Ascii.eqb c "," = false ->
  Forall (fun column => Spec.noChar c (snd column) = true) columns ->
  Spec.noChar c (JS.join (lit ", ") (map Spec.columnClause columns)) = true.
Proof.
  intros Hw Hs Hk Htails. unfold Spec.noChar. apply forallb_join.
  - cbn. now rewrite Hs, Hk.
  - apply Forall_map. rewrite Forall_forall in Htails |- *.
    intros column Hin. unfold Spec.columnClause.
    pose proof (proj1 (Forall_forall _ _) Hcolumns column Hin) as Hc.
    apply plainColumn_parts in Hc as (Hn & _).
    unfold Spec.isIdentifier in Hn. apply andb_true_iff in Hn as [_ Hn].
    rewrite !forallb_app. fold (Spec.noChar c (fst column)).
    rewrite (word_noChar c _ Hw Hn). cbn. rewrite Hs. cbn.
    exact (Htails column Hin).
Qed.

Lemma noChar_lines (c : ascii) :
  JS.isWord c = false -> Ascii.eqb c " " = false ->
  Ascii.eqb c "," = false -> Ascii.eqb c DiagramService.nl = false ->
  Forall (fun column => Spec.noChar c (snd column) = true) columns ->
  Spec.noChar c
    (JS.join (lit "," ++ [DiagramService.nl]) (map Spec.columnLine columns))
  = true.
Proof.
  intros Hw Hs Hk Hnl Htails. unfold Spec.noChar. apply forallb_join.
  - cbn. now rewrite Hk, Hnl.
  - apply Forall_map. rewrite Forall_forall in Htails |- *.
    intros column Hin. unfold Spec.columnLine.
    pose proof (proj1 (Forall_forall _ _) Hcolumns column Hin) as Hc.
    apply plainColumn_parts in Hc as (Hn & _).
    unfold Spec.isIdentifier in Hn. apply andb_true_iff in Hn as [_ Hn].
    rewrite !forallb_app. fold (Spec.noChar c (fst column)).
    rewrite (word_noChar c _ Hw Hn). cbn. rewrite Hs. cbn.
    exact (Htails column Hin).
Qed.

Lemma tails_noChar :
  Forall (fun column => Spec.noChar "-" (snd column) = true) columns
  /\ Forall (fun column => Spec.noChar ";" (snd column) = true) columns.
Proof.
  split; eapply Forall_impl; try exact Hcolumns; intros column H;
    apply plainColumn_parts in H as (_ & _ & H);
    apply plainTail_parts in H; tauto.
Qed.

(** The statement, cleaned. *)
Lemma cleanSQL_tableText :
  cleanSQL (Spec.tableText name columns)
  = Spec.createTableStatement (lit "CREATE") (lit " ") (lit "TABLE") (lit " ")
      name (lit " ") (Spec.bodyOf columns).
Proof.
  pose proof Hname as Hname'. unfold Spec.isIdentifier in Hname'.
  apply andb_true_iff in Hname' as [Hnn Hw].
  unfold cleanSQL.
  rewrite replaceAll_no_dash.
  2:{ unfold Spec.tableText, Spec.noChar. rewrite !forallb_app.
      fold (Spec.noChar "-" name).
      rewrite (word_noChar "-" name eq_refl Hw).
      fold (Spec.noChar "-"
              (JS.join (lit "," ++ [DiagramService.nl])
                       (map Spec.columnLine columns))).
      rewrite (noChar_lines "-" eq_refl eq_refl eq_refl eq_refl
                 (proj1 tails_noChar)).
      reflexivity. }
  rewrite (proj1 (replaceAll_spaces _)).
  assert (E : Spec.collapse false (Spec.tableText name columns)
              = Spec.createTableStatement (lit "CREATE") (lit " ")
                  (lit "TABLE") (lit " ") name (lit " ")
                  (Spec.bodyOf columns)).
  { unfold Spec.tableText, Spec.createTableStatement, Spec.bodyOf.
    rewrite <- !app_assoc.
    change (Spec.collapse false
              (lit "CREATE TABLE " ++ name ++ lit " (" ++
               [DiagramService.nl] ++
               JS.join (lit "," ++ [DiagramService.nl])
                       (map Spec.columnLine columns) ++
               [DiagramService.nl] ++ lit ");"))
      with (lit "CREATE TABLE " ++
            Spec.collapse true
              (name ++ lit " (" ++ [DiagramService.nl] ++
               JS.join (lit "," ++ [DiagramService.nl])
                       (map Spec.columnLine columns) ++
               [DiagramService.nl] ++ lit ");")).
    rewrite collapse_token
      by (try apply word_singleSpaced; try apply word_last; assumption).
    change (Spec.collapse false
              (lit " (" ++ [DiagramService.nl] ++
               JS.join (lit "," ++ [DiagramService.nl])
                       (map Spec.columnLine columns) ++
               [DiagramService.nl] ++ lit ");"))
      with (lit " ( " ++
            Spec.collapse true
              (JS.join (lit "," ++ [DiagramService.nl])
                       (map Spec.columnLine columns) ++
               [DiagramService.nl] ++ lit ");")).
    rewrite collapse_lines by assumption.
    reflexivity. }
  rewrite E.
  rewrite <- (app_nil_l (Spec.createTableStatement _ _ _ _ _ _ _)) at 1.
  rewrite <- (app_nil_r (Spec.createTableStatement _ _ _ _ _ _ _)) at 1.
  apply trim_padded; try reflexivity.
  unfold Spec.createTableStatement. rewrite !rev_app_distr. reflexivity.
Qed.

End GeneratedStatement.

Section GeneratedTable.

Import SchemaParser Inference.

(** The clauses of plain columns all give a field. *)
Lemma fields_of_columns (columns : list (str * str)) :
  Forall (fun column => Spec.plainColumn column = true) columns ->
  exists fs,
    Forall2 (fun c f => parseColumnDefinition (JS.trim c) = Ok (Some f))
            (map Spec.columnClause columns) fs
    /\ Forall2 Spec.ReadAs columns fs.
Proof.
  induction 1 as [|column columns Hc _ (fs & IH1 & IH2)].
  - exists []. split; constructor.
  - pose proof (plainClause_column column Hc) as Hclause.
    unfold Spec.plainClause in Hclause.
    apply andb_true_iff in Hclause as [Hclause _].
    apply andb_true_iff in Hclause as [Hclause _].
    apply andb_true_iff in Hclause as [Hfirst Hlast].
    pose proof (trim_padded [] (Spec.columnClause column) [] eq_refl eq_refl
                  Hfirst Hlast) as Htrim.
    rewrite app_nil_r in Htrim. cbn [app] in Htrim.
    apply plainColumn_parts in Hc as (Hn & Hk & Ht).
    destruct column as [n tail]. cbn [fst snd] in *.
    destruct (parseColumnDefinition_generated n tail Hn Hk Ht) as (f & Hf & Hr).
    exists (f :: fs). split; constructor; try assumption.
    now rewrite Htrim.
Qed.

Variable name : str.
Variable columns : list (str * str).

Hypothesis Hname : Spec.isIdentifier name = true.
Hypothesis Hne : columns <> [].
Hypothesis Hcolumns :
  Forall (fun column => Spec.plainColumn column = true) columns.

Lemma parseColumnDefinitions_bodyOf :
  exists fs,
    parseColumnDefinitions (Spec.bodyOf columns)
    = Ok (fs, Spec.columnRelationships fs)
    /\ Forall2 Spec.ReadAs columns fs.
Proof.
  destruct (fields_of_columns columns Hcolumns) as (fs & Hparse & Hread).
  exists fs. split; [|exact Hread].
  unfold parseColumnDefinitions, splitColumnDefinitions, Spec.bodyOf.
  change (splitLoop
            (lit " " ++
             JS.join (lit ", ") (map Spec.columnClause columns) ++ lit " ")
            [] 0 [])
    with (splitLoop
            (JS.join (lit ", ") (map Spec.columnClause columns) ++ lit " ")
            [" "%char] 0 []).
  rewrite splitLoop_clauses.
  - cbn [app]. now rewrite (columnsLoop_fields _ _ Hparse).
  - destruct columns; [congruence|discriminate].
  - apply Forall_map. eapply Forall_impl; [|exact Hcolumns].
    intros column. apply plainClause_column.
  - reflexivity.
Qed.

(** The statement of the editors parses to one table, named in lower case,
    with one field for each column. *)
Lemma parseSQL_tableText :
  exists ps t fs,
    parseSQL (Spec.tableText name columns) = Ok ps
    /\ ParsedSchema.tables ps = [t]
    /\ TableSchema.name t = JS.toLowerCase name
    /\ Forall2 Spec.ReadAs columns fs
    /\ Forall2 Spec.sameColumn fs (TableSchema.fields t).
Proof.
  pose proof (cleanSQL_singleSpaced (Spec.tableText name columns)) as Hsingle.
  unfold parseSQL.
  rewrite (cleanSQL_tableText name columns Hname Hne Hcolumns) in *.
  assert (Hbody : forallb Regex.dot (Spec.bodyOf columns) = true).
  { unfold Spec.createTableStatement in Hsingle.
    do 7 apply singleSpaced_app_r in Hsingle.
    apply singleSpaced_app_l in Hsingle.
    now apply singleSpaced_dot in Hsingle. }
  assert (Hend : JS.includes (lit ");") (Spec.bodyOf columns) = false).
  { apply includes_close_noChar. unfold Spec.bodyOf, Spec.noChar.
    rewrite !forallb_app.
    fold (Spec.noChar ";"
            (JS.join (lit ", ") (map Spec.columnClause columns))).
    rewrite (noChar_clauses columns Hcolumns ";" eq_refl eq_refl eq_refl
               (proj2 (tails_noChar columns Hcolumns))).
    reflexivity. }
  pose proof Hname as Hname'. unfold Spec.isIdentifier in Hname'.
  apply andb_true_iff in Hname' as [Hnn Hw].
  assert (Hname2 : name <> [] /\ forallb JS.isWord name = true)
    by (split; [now destruct name|exact Hw]).
  assert (Hcreate : JS.toUpperCase (lit "CREATE") = lit "CREATE")
    by (vm_compute; reflexivity).
  assert (Htable : JS.toUpperCase (lit "TABLE") = lit "TABLE")
    by (vm_compute; reflexivity).
  assert (Hspace : lit " " <> [] /\ forallb JS.isSpace (lit " ") = true)
    by (split; [discriminate|vm_compute; reflexivity]).
  destruct (parseClean_createTable
              (lit "CREATE") (lit " ") (lit "TABLE") (lit " ") name (lit " ")
              (Spec.bodyOf columns) Hcreate Hspace Htable Hspace Hname2
              (proj2 Hspace) Hbody Hend [])
    as (ps & t & ts & cols & Hp & Ht & Hn & Hc & Hsame & Hlen).
  rewrite app_nil_r in Hp.
  destruct parseColumnDefinitions_bodyOf as (fs & Hfs & Hread).
  rewrite Hfs in Hc. injection Hc as <-. cbn [fst] in Hsame.
  destruct ts; [|discriminate Hlen].
  now exists ps, t, fs.
Qed.

End GeneratedTable.

(** ** Inspector: saving an edited table *)

Section InspectorFacts.

Import SchemaParser Inference.

Lemma fieldSQL_column (e : EditField.t) :
  In (EditField.type e) Spec.logicalTypes ->
  exists tail,
    Inspector.fieldSQL e = Ok (Spec.columnLine (EditField.name e, tail))
    /\ Spec.plainTail tail = true
    /\ forall f, Spec.ReadAs (EditField.name e, tail) f -> Spec.EditedAs e f.
Proof.
  destruct e as [n ty pk nl]. cbn [EditField.type EditField.name].
  intros Hty. unfold Inspector.fieldSQL.
  cbn [EditField.name EditField.type EditField.isPrimaryKey
       EditField.nullable].
  simpl in Hty.
  repeat (destruct Hty as [<-|Hty]; [|]); [..|destruct Hty];
    match goal with
    | |- context [getProp Inspector.typeMap ?k] =>
        let v := eval vm_compute in (getProp Inspector.typeMap k) in
        change (getProp Inspector.typeMap k) with v
    end;
    cbn [JS.truthy bind];
    destruct pk, nl; cbn [negb andb];
    (eexists; split;
     [unfold Spec.columnLine; cbn [fst snd]; rewrite <- ?app_assoc;
      reflexivity|];
     split; [vm_compute; reflexivity|];
     intros f (Hname & Htype & Hnull & Hpk & _);
     match type of Htype with
     | ?lhs = _ =>
         let v := eval vm_compute in lhs in
         replace lhs with v in Htype by (vm_compute; reflexivity)
     end;
     injection Htype as Htype;
     unfold Spec.EditedAs;
     cbn [EditField.name EditField.type EditField.isPrimaryKey
          EditField.nullable];
     cbn [fst] in Hname;
     repeat split;
     [exact Hname|now rewrite <- Htype|rewrite Hpk; vm_compute; reflexivity
     |rewrite Hnull; vm_compute; reflexivity]).
Qed.

Lemma newSQL_tableText (fields : list EditField.t) :
  Forall Spec.Editable fields ->
  exists columns,
    mapM Inspector.fieldSQL fields = Ok (map Spec.columnLine columns)
    /\ Forall (fun column => Spec.plainColumn column = true) columns
    /\ Forall2 (fun e column =>
                  forall f, Spec.ReadAs column f -> Spec.EditedAs e f)
               fields columns.
Proof.
  induction 1 as [|e fields (Hn & Hk & Hty) _ (columns & IH1 & IH2 & IH3)].
  - exists []. repeat split; constructor.
  - destruct (fieldSQL_column e Hty) as (tail & Hsql & Hplain & Hread).
    exists ((EditField.name e, tail) :: columns).
    cbn [mapM map]. rewrite Hsql, IH1. cbn [bind].
    repeat split; constructor; try assumption.
    unfold Spec.plainColumn. cbn [fst snd]. now rewrite Hn, Hk, Hplain.
Qed.

Lemma EditedAs_sameColumn (e : EditField.t) (f0 f : TableField.t) :
  Spec.EditedAs e f0 -> Spec.sameColumn f0 f -> Spec.EditedAs e f.
Proof.
  intros (H1 & H2 & H3 & H4) (S1 & S2 & S3 & S4 & _).
  unfold Spec.EditedAs. now rewrite S1, S2, S3, S4.
Qed.

Variable editingTable : EditingTable.t.

Hypothesis Hname : Spec.isIdentifier (EditingTable.name editingTable) = true.
Hypothesis Hne : EditingTable.fields editingTable <> [].
Hypothesis Hfields :
  Forall Spec.Editable (EditingTable.fields editingTable).

Lemma newSQL_parses :
  exists sql ps t,
    Inspector.newSQL editingTable = Ok sql
    /\ parseSQL sql = Ok ps
    /\ ParsedSchema.tables ps = [t]
    /\ TableSchema.name t = JS.toLowerCase (EditingTable.name editingTable)
    /\ Forall2 Spec.EditedAs (EditingTable.fields editingTable)
               (TableSchema.fields t).
Proof.
  destruct (newSQL_tableText _ Hfields) as (columns & Hsql & Hplain & Hedit).
  assert (Hcne : columns <> []).
  { intros ->. apply Forall2_length in Hedit.
    destruct (EditingTable.fields editingTable); [congruence|discriminate]. }
  destruct (parseSQL_tableText (EditingTable.name editingTable) columns
              Hname Hcne Hplain)
    as (ps & t & fs & Hparse & Htables & Htname & Hread & Hsame).
  exists (Spec.tableText (EditingTable.name editingTable) columns), ps, t.
  split; [unfold Inspector.newSQL; now rewrite Hsql|].
  repeat split; try assumption.
  eapply Forall2_compose; [|exact (Forall2_compose _ _ _ _ _
                                     (fun e c f He Hr => He f Hr)
                                     Hedit fs Hread)|exact Hsame].
  intros e f0 f. apply EditedAs_sameColumn.
Qed.

End InspectorFacts.

(** X16.  The statement that the Inspector builds for an edited table is
    read back by [parseSQL].  When the name of the table and the names of
    its fields are identifiers (no field name starting with [CONSTRAINT]),
    the types are logical types and there is at least one field, the
    statement parses to exactly one table, named in lower case, with one
    field for each edited field, in order: the name in lower case, the same
    type, the same primary-key flag, and [nullable] unless the field was
    edited to be mandatory and is not a primary key. *)
Theorem inspector_statement_is_read_back :
  forall editingTable : EditingTable.t,
    Spec.isIdentifier (EditingTable.name editingTable) = true ->
    EditingTable.fields editingTable <> [] ->
    Forall Spec.Editable (EditingTable.fields editingTable) ->
    exists sql ps t,
      Inspector.newSQL editingTable = Ok sql
      /\ Inference.parseSQL sql = Ok ps
      /\ ParsedSchema.tables ps = [t]
      /\ TableSchema.name t = JS.toLowerCase (EditingTable.name editingTable)
      /\ Forall2 Spec.EditedAs (EditingTable.fields editingTable)
                 (TableSchema.fields t).
Proof.
  intros editingTable Hname Hne Hfields. now apply newSQL_parses.
Qed.

Lemma inspector_statement_is_read_back_witness :
  exists sql ps t,
    Inspector.newSQL Samples.editedUsers = Ok sql
    /\ Inference.parseSQL sql = Ok ps
    /\ ParsedSchema.tables ps = [t]
    /\ TableSchema.name t
       = JS.toLowerCase (EditingTable.name Samples.editedUsers)
    /\ Forall2 Spec.EditedAs (EditingTable.fields Samples.editedUsers)
               (TableSchema.fields t).
Proof.
  apply (inspector_statement_is_read_back Samples.editedUsers).
  - vm_compute. reflexivity.
  - discriminate.
  - repeat (apply Forall_cons; [|]); [..|apply Forall_nil];
      (unfold Spec.Editable;
       split; [vm_compute; reflexivity|];
       split; [vm_compute; reflexivity|];
       simpl; repeat (first [left; reflexivity|right])).
Defined.

Lemma Forall2_map_r {X Y Z : Type} (R : X -> Z -> Prop) (g : Y -> Z)
      (l : list X) (l' : list Y) :
  Forall2 (fun x y => R x (g y)) l l' -> Forall2 R l (map g l').
Proof.
  induction 1; simpl; constructor; assumption.
Qed.

(** X17.  Saving an edited table in the Inspector replaces the diagram:
    under the conditions of X16, and whatever tables and relationships the
    diagram held and whichever table was selected, [handleSaveEdit] returns
    a diagram whose only table is the edited one, placed at the first
    position (150, 150), with the edited fields. *)
Theorem inspector_save_leaves_the_edited_table_only :
  forall (d : DiagramData.t) (selectedTable : str)
         (editingTable : EditingTable.t),
    Spec.isIdentifier (EditingTable.name editingTable) = true ->
    EditingTable.fields editingTable <> [] ->
    Forall Spec.Editable (EditingTable.fields editingTable) ->
    exists d' t,
      Inspector.handleSaveEdit d selectedTable editingTable = Ok d'
      /\ DiagramData.tables d' = [t]
      /\ DiagramTable.name t
         = JS.toLowerCase (EditingTable.name editingTable)
      /\ DiagramTable.position t = (150, 150)%Z
      /\ Forall2 Spec.ShownAs (EditingTable.fields editingTable)
                 (DiagramTable.fields t).
Proof.
  intros d selectedTable editingTable Hname Hne Hfields.
  destruct (newSQL_parses editingTable Hname Hne Hfields)
    as (sql & ps & t & Hsql & Hparse & Htables & Htname & Hedited).
  unfold Inspector.handleSaveEdit. rewrite Hsql. cbn [bind].
  rewrite Hparse. cbn [bind]. rewrite Htables.
  cbn [List.length Nat.ltb Nat.leb].
  eexists. eexists. split; [reflexivity|].
  cbn [DiagramService.updateFromSchema DiagramData.tables
       DiagramService.convertTables List.length DiagramTable.name
       DiagramTable.position DiagramTable.fields].
  repeat split; try assumption.
  apply Forall2_map_r. eapply Forall2_impl; [|exact Hedited].
  intros e f (H1 & H2 & H3 & H4). unfold Spec.ShownAs. cbn. tauto.
Qed.

Lemma inspector_save_leaves_the_edited_table_only_witness :
  exists d' t,
    Inspector.handleSaveEdit Samples.endToEndDiagram (lit "users")
                             Samples.editedUsers = Ok d'
    /\ DiagramData.tables d' = [t]
    /\ DiagramTable.name t
       = JS.toLowerCase (EditingTable.name Samples.editedUsers)
    /\ DiagramTable.position t = (150, 150)%Z
    /\ Forall2 Spec.ShownAs (EditingTable.fields Samples.editedUsers)
               (DiagramTable.fields t).
Proof.
  apply (inspector_save_leaves_the_edited_table_only
           Samples.endToEndDiagram (lit "users") Samples.editedUsers).
  - vm_compute. reflexivity.
  - discriminate.
  - repeat (apply Forall_cons; [|]); [..|apply Forall_nil];
      (unfold Spec.Editable;
       split; [vm_compute; reflexivity|];
       split; [vm_compute; reflexivity|];
       simpl; repeat (first [left; reflexivity|right])).
Defined.

(** ** AdvancedBuilder: adding a table *)

Section BuilderFacts.

Import SchemaParser Inference.

Lemma builder_fieldSQL_column (e : BuilderField.t) :
  In (BuilderField.type e) Spec.builderTypes ->
  exists tail,
    AdvancedBuilder.fieldSQL e
    = Ok (Spec.columnLine (BuilderField.name e, tail))
    /\ Spec.plainTail tail = true
    /\ forall f, Spec.ReadAs (BuilderField.name e, tail) f -> Spec.BuiltAs e f.
Proof.
  destruct e as [n ty nl pk]. cbn [BuilderField.type BuilderField.name].
  intros Hty.
  unfold AdvancedBuilder.fieldSQL, AdvancedBuilder.typeMap, Spec.BuiltAs,
    Spec.builtPrimaryKey, Spec.builtNullable.
  cbn [BuilderField.name BuilderField.type BuilderField.primaryKey
       BuilderField.nullable].
  simpl in Hty.
  destruct (JS.includes (lit "_at") n);
    repeat (destruct Hty as [<-|Hty]; [|]); try (now destruct Hty);
    destruct pk, nl;
    match goal with
    | |- context [getProp ?m ?k] =>
        let v := eval vm_compute in (getProp m k) in
        change (getProp m k) with v
    end;
    match goal with
    | |- context [JS.eqb ?a ?b] =>
        let v := eval vm_compute in (JS.eqb a b) in
        change (JS.eqb a b) with v
    end;
    cbn [JS.truthy bind negb andb orb];
    (eexists; split;
     [unfold Spec.columnLine; cbn [fst snd]; rewrite <- ?app_assoc;
      reflexivity|];
     split; [vm_compute; reflexivity|];
     intros f (Hname & Htype & Hnull & Hpk & _);
     match type of Htype with
     | ?lhs = _ =>
         let v := eval vm_compute in lhs in
         replace lhs with v in Htype by (vm_compute; reflexivity)
     end;
     injection Htype as Htype;
     cbn [fst] in Hname;
     repeat split;
     [exact Hname|now rewrite <- Htype|rewrite Hpk; vm_compute; reflexivity
     |rewrite Hnull; vm_compute; reflexivity]).
Qed.

Lemma builder_columns (fields : list BuilderField.t) :
  Forall Spec.Buildable fields ->
  exists columns,
    mapM AdvancedBuilder.fieldSQL fields = Ok (map Spec.columnLine columns)
    /\ Forall (fun column => Spec.plainColumn column = true) columns
    /\ Forall2 (fun e column =>
                  forall f, Spec.ReadAs column f -> Spec.BuiltAs e f)
               fields columns.
Proof.
  induction 1 as [|e fields (Hn & Hk & Hty) _ (columns & IH1 & IH2 & IH3)].
  - exists []. repeat split; constructor.
  - destruct (builder_fieldSQL_column e Hty) as (tail & Hsql & Hplain & Hread).
    exists ((BuilderField.name e, tail) :: columns).
    cbn [mapM map]. rewrite Hsql, IH1. cbn [bind].
    repeat split; constructor; try assumption.
    unfold Spec.plainColumn. cbn [fst snd]. now rewrite Hn, Hk, Hplain.
Qed.

Lemma BuiltAs_sameColumn (e : BuilderField.t) (f0 f : TableField.t) :
  Spec.BuiltAs e f0 -> Spec.sameColumn f0 f -> Spec.BuiltAs e f.
Proof.
  intros (H1 & H2 & H3 & H4) (S1 & S2 & S3 & S4 & _).
  unfold Spec.BuiltAs. now rewrite S1, S2, S3, S4.
Qed.

Variable tableName : str.
Variable fields : list BuilderField.t.

Hypothesis Hname : Spec.isIdentifier tableName = true.
Hypothesis Hne : fields <> [].
Hypothesis Hfields : Forall Spec.Buildable fields.

Lemma guard_passes :
  negb (JS.truthy tableName) || (List.length fields =? 0) = false.
Proof.
  unfold Spec.isIdentifier in Hname. apply andb_true_iff in Hname as [-> _].
  destruct fields; [congruence|reflexivity].
Qed.

Lemma generateSQL_parses :
  exists sql ps t,
    AdvancedBuilder.generateSQL tableName fields = Ok sql
    /\ parseSQL sql = Ok ps
    /\ ParsedSchema.tables ps = [t]
    /\ TableSchema.name t = JS.toLowerCase tableName
    /\ Forall2 Spec.BuiltAs fields (TableSchema.fields t).
Proof.
  destruct (builder_columns _ Hfields) as (columns & Hsql & Hplain & Hbuilt).
  assert (Hcne : columns <> []).
  { intros ->. apply Forall2_length in Hbuilt.
    destruct fields; [congruence|discriminate]. }
  destruct (parseSQL_tableText tableName columns Hname Hcne Hplain)
    as (ps & t & fs & Hparse & Htables & Htname & Hread & Hsame).
  exists (Spec.tableText tableName columns), ps, t.
  split.
  { unfold AdvancedBuilder.generateSQL. now rewrite guard_passes, Hsql. }
  repeat split; try assumption.
  eapply Forall2_compose; [|exact (Forall2_compose _ _ _ _ _
                                     (fun e c f He Hr => He f Hr)
                                     Hbuilt fs Hread)|exact Hsame].
  intros e f0 f. apply BuiltAs_sameColumn.
Qed.

End BuilderFacts.

(** X18.  The statement that the builder generates is read back by
    [parseSQL].  When the table name and the field names are identifiers
    (no field name starting with [CONSTRAINT]), the types are types of the
    builder and there is at least one field, the statement parses to
    exactly one table, named in lower case, with one field for each field
    of the builder, in order: the name in lower case and the same type.
    The primary-key flag comes back for every type but [int8], whose key is
    written [SERIAL] without [PRIMARY KEY]; a field comes back mandatory
    when it is mandatory, not a primary key, and its name does not contain
    [_at]. *)
Theorem builder_statement_is_read_back :
  forall (tableName : str) (fields : list BuilderField.t),
    Spec.isIdentifier tableName = true ->
    fields <> [] ->
    Forall Spec.Buildable fields ->
    exists sql ps t,
      AdvancedBuilder.generateSQL tableName fields = Ok sql
      /\ Inference.parseSQL sql = Ok ps
      /\ ParsedSchema.tables ps = [t]
      /\ TableSchema.name t = JS.toLowerCase tableName
      /\ Forall2 Spec.BuiltAs fields (TableSchema.fields t).
Proof.
  intros tableName fields Hname Hne Hfields. now apply generateSQL_parses.
Qed.

Lemma builder_statement_is_read_back_witness :
  exists sql ps t,
    AdvancedBuilder.generateSQL (lit "Posts") Samples.builderFields = Ok sql
    /\ Inference.parseSQL sql = Ok ps
    /\ ParsedSchema.tables ps = [t]
    /\ TableSchema.name t = JS.toLowerCase (lit "Posts")
    /\ Forall2 Spec.BuiltAs Samples.builderFields (TableSchema.fields t).
Proof.
  apply (builder_statement_is_read_back (lit "Posts") Samples.builderFields).
  - vm_compute. reflexivity.
  - discriminate.
  - repeat (apply Forall_cons; [|]); [..|apply Forall_nil];
      (unfold Spec.Buildable;
       split; [vm_compute; reflexivity|];
       split; [vm_compute; reflexivity|];
       simpl; repeat (first [left; reflexivity|right])).
Defined.

(** X19.  Adding the table of the builder to the diagram: under the
    conditions of X18, [addToSchema] returns a diagram in which the table is
    found under its name in lower case, with the fields of the builder as
    they are read back; a table of another name is found as before and the
    relationships of the diagram are those it had. *)
Theorem builder_adds_its_table_to_the_diagram :
  forall (d : DiagramData.t) (tableName : str) (fields : list BuilderField.t),
    Spec.isIdentifier tableName = true ->
    fields <> [] ->
    Forall Spec.Buildable fields ->
    exists d' t,
      AdvancedBuilder.addToSchema d tableName fields = Ok d'
      /\ DiagramService.getTableData d' (JS.toLowerCase tableName) = Some t
      /\ DiagramTable.name t = JS.toLowerCase tableName
      /\ Forall2 Spec.PlacedAs fields (DiagramTable.fields t)
      /\ (forall other,
             other <> JS.toLowerCase tableName ->
             DiagramService.getTableData d' other
             = DiagramService.getTableData d other)
      /\ DiagramData.relationships d' = DiagramData.relationships d.
Proof.
  intros d tableName fields Hname Hne Hfields.
  destruct (generateSQL_parses tableName fields Hname Hne Hfields)
    as (sql & ps & t & Hsql & Hparse & Htables & Htname & Hbuilt).
  unfold AdvancedBuilder.addToSchema.
  rewrite (guard_passes tableName fields Hname Hne Hfields), Hsql.
  cbn [bind].
  rewrite Hparse. cbn [bind]. rewrite Htables.
  destruct (addTable_spec d t)
    as (d' & table & Hadd & Hget & Hn & Hf & _ & Hother & Hrels).
  rewrite Htname in *.
  exists d', table. split; [exact Hadd|].
  repeat split; try assumption.
  rewrite Hf. apply Forall2_map_r. eapply Forall2_impl; [|exact Hbuilt].
  intros e f (H1 & H2 & H3 & H4). unfold Spec.PlacedAs. cbn. tauto.
Qed.

Lemma builder_adds_its_table_to_the_diagram_witness :
  exists d' t,
    AdvancedBuilder.addToSchema Samples.endToEndDiagram (lit "Posts")
                                Samples.builderFields = Ok d'
    /\ DiagramService.getTableData d' (JS.toLowerCase (lit "Posts")) = Some t
    /\ DiagramTable.name t = JS.toLowerCase (lit "Posts")
    /\ Forall2 Spec.PlacedAs Samples.builderFields (DiagramTable.fields t)
    /\ (forall other,
           other <> JS.toLowerCase (lit "Posts") ->
           DiagramService.getTableData d' other
           = DiagramService.getTableData Samples.endToEndDiagram other)
    /\ DiagramData.relationships d'
       = DiagramData.relationships Samples.endToEndDiagram.
Proof.
  apply (builder_adds_its_table_to_the_diagram
           Samples.endToEndDiagram (lit "Posts") Samples.builderFields).
  - vm_compute. reflexivity.
  - discriminate.
  - repeat (apply Forall_cons; [|]); [..|apply Forall_nil];
      (unfold Spec.Buildable;
       split; [vm_compute; reflexivity|];
       split; [vm_compute; reflexivity|];
       simpl; repeat (first [left; reflexivity|right])).
Defined.

(** ** Loading a schema over a diagram *)

Section Loading.

Import DiagramService.

Lemma convertTables_tables (current : DiagramData.t) (preservePositions : bool)
      (relationships : list SchemaRelationship.t) (total : nat)
      (tables : list TableSchema.t) :
  forall index,
    Forall2 (fun t t' =>
               DiagramTable.name t' = TableSchema.name t
               /\ DiagramTable.fields t'
                  = map convertField (TableSchema.fields t)
               /\ DiagramTable.incoming t'
                  = count_occ (list_eq_dec ascii_dec)
                      (map SchemaRelationship.toTable relationships)
                      (TableSchema.name t)
               /\ DiagramTable.outgoing t'
                  = count_occ (list_eq_dec ascii_dec)
                      (map SchemaRelationship.fromTable relationships)
                      (TableSchema.name t))
            tables
            (convertTables current preservePositions relationships total
                           index tables).
Proof.
  assert (Hcount : forall (g : SchemaRelationship.t -> str) (n : str),
             List.length (filter (fun rel => JS.eqb (g rel) n) relationships)
             = count_occ (list_eq_dec ascii_dec) (map g relationships) n).
  { intros g n. induction relationships as [|r rs IH]; [reflexivity|].
    cbn [filter map count_occ].
    destruct (list_eq_dec ascii_dec (g r) n) as [E|E].
    - apply eqb_eq in E. rewrite E. simpl. now rewrite IH.
    - apply eqb_neq in E. now rewrite E. }
  induction tables as [|t tables IH]; intros index; simpl; constructor.
  - repeat split; apply Hcount.
  - apply IH.
Qed.

Lemma convertTables_kept (current : DiagramData.t)
      (relationships : list SchemaRelationship.t) (total : nat)
      (tables : list TableSchema.t) :
  forall index t' old,
    In t' (convertTables current true relationships total index tables) ->
    getTableData current (DiagramTable.name t') = Some old ->
    DiagramTable.position t' = DiagramTable.position old.
Proof.
  unfold getTableData.
  induction tables as [|t tables IH]; intros index t' old; simpl; [tauto|].
  intros [<-|Hin]; [|now apply IH with (index := S index)].
  cbn [DiagramTable.name DiagramTable.position]. now intros ->.
Qed.

End Loading.

(** X20.  [updateFromSchema] replaces the diagram by the schema: the tables
    of the diagram are those of the schema, in order, each with its name,
    its converted fields and the numbers of relationships that end and
    start at a table of its name; the relationships are those of the
    schema.  With [preservePositions], a table whose name the diagram
    already had stays where the first table of that name was. *)
Theorem update_replaces_the_diagram_and_keeps_positions :
  forall (current : DiagramData.t) (tables : list TableSchema.t)
         (relationships : list SchemaRelationship.t) (preservePositions : bool),
    let d' :=
      DiagramService.updateFromSchema current tables relationships
                                      preservePositions in
    Forall2 (fun t t' =>
               DiagramTable.name t' = TableSchema.name t
               /\ DiagramTable.fields t'
                  = map DiagramService.convertField (TableSchema.fields t)
               /\ DiagramTable.incoming t'
                  = count_occ (list_eq_dec ascii_dec)
                      (map SchemaRelationship.toTable relationships)
                      (TableSchema.name t)
               /\ DiagramTable.outgoing t'
                  = count_occ (list_eq_dec ascii_dec)
                      (map SchemaRelationship.fromTable relationships)
                      (TableSchema.name t))
            tables (DiagramData.tables d')
    /\ DiagramData.relationships d'
       = map DiagramService.convertRelationship relationships
    /\ (preservePositions = true ->
        forall t' old,
          In t' (DiagramData.tables d') ->
          DiagramService.getTableData current (DiagramTable.name t') = Some old ->
          DiagramTable.position t' = DiagramTable.position old).
Proof.
  intros current tables relationships preservePositions d'. subst d'.
  split; [apply convertTables_tables|]. split; [reflexivity|].
  intros ->. apply convertTables_kept.
Qed.

(** ** Comments *)

Section Comments.

Import SchemaParser.

(** [--] at the head of a text takes the rest of the line. *)
Lemma matchAt_comment (s : str) :
  Regex.matchAt commentRegex ("-"%char :: "-"%char :: s)
  = Some ([], JS.dropWhile Regex.dot s).
Proof.
  unfold Regex.matchAt, commentRegex, Regex.text.
  rewrite matchItems_text.
  cbn [lit list_ascii_of_string JS.stripPrefix].
  rewrite !Ascii.eqb_refl.
  cbn [Regex.matchItems Regex.matchItem Regex.star Regex.isGroup].
  rewrite greedy_commit.
  - cbn [app]. destruct (JS.dropWhile Regex.dot s) as [|c r] eqn:E;
      [reflexivity|].
    apply dropWhile_head in E. unfold Regex.dot in E.
    apply negb_false_iff in E. now rewrite E.
  - intros taken c r Hc. unfold Regex.dot in Hc. apply negb_true_iff in Hc.
    now rewrite Hc.
Qed.

Lemma matchAt_no_comment (s : str) :
  JS.startsWith (lit "--") s = false -> Regex.matchAt commentRegex s = None.
Proof.
  unfold Regex.matchAt, commentRegex, Regex.text, JS.startsWith.
  rewrite matchItems_text.
  now destruct (JS.stripPrefix (lit "--") s).
Qed.

(** [replace(/--.*$/gm, '')] removes the comments. *)
Lemma replaceAll_comments (s : str) :
  Regex.replaceAll commentRegex [] 0 s = Spec.stripComments false s
  /\ Regex.replaceAll commentRegex [] 0 (JS.dropWhile Regex.dot s)
     = Spec.stripComments true s.
Proof.
  induction s as [|c s [IH1 IH2]]; [split; reflexivity|].
  assert (H1 : Regex.replaceAll commentRegex [] 0 (c :: s)
               = Spec.stripComments false (c :: s)).
  { cbn [Regex.replaceAll Spec.stripComments].
    destruct (JS.startsWith (lit "--") (c :: s)) eqn:E.
    - unfold JS.startsWith in E.
      destruct (JS.stripPrefix (lit "--") (c :: s)) as [r|] eqn:Er;
        [|discriminate E].
      apply stripPrefix_Some in Er. cbn in Er. injection Er as -> ->.
      rewrite matchAt_comment. cbn [app].
      rewrite replaceAll_skipn, <- IH2.
      f_equal. cbn [List.length JS.dropWhile].
      change (Regex.dot "-") with true. cbv iota.
      pose proof (dropWhile_length Regex.dot r) as Hle.
      replace (S (List.length r) - List.length (JS.dropWhile Regex.dot r))
        with (S (List.length r - List.length (JS.dropWhile Regex.dot r)))
        by lia.
      cbn [skipn]. apply skipn_dropWhile.
    - rewrite (matchAt_no_comment _ E). now rewrite IH1. }
  split; [exact H1|].
  cbn [JS.dropWhile Spec.stripComments].
  destruct (Regex.dot c) eqn:E; unfold Regex.dot in E.
  - apply negb_true_iff in E. now rewrite E.
  - apply negb_false_iff in E. rewrite E, H1.
    cbn [Spec.stripComments].
    replace (JS.startsWith (lit "--") (c :: s)) with false; [reflexivity|].
    unfold JS.startsWith. cbn [lit list_ascii_of_string JS.stripPrefix].
    destruct (Ascii.eqb "-" c) eqn:Ec; [|reflexivity].
    apply Ascii.eqb_eq in Ec. subst c. discriminate E.
Qed.

(** A comment, with the text before it and the line end after it. *)
Lemma stripComments_comment (comment rest : str) (t : ascii) :
  forallb Regex.dot comment = true ->
  JS.isLineTerminator t = true ->
  forall before inComment,
    Spec.noDashAtEnd before = true ->
    Spec.stripComments inComment
      (before ++ lit "--" ++ comment ++ t :: rest)
    = Spec.stripComments inComment (before ++ t :: rest).
Proof.
  intros Hcomment Ht.
  assert (Hin : forall c, forallb Regex.dot c = true ->
                          Spec.stripComments true (c ++ t :: rest)
                          = Spec.stripComments true (t :: rest)).
  { induction c as [|x c IH]; [reflexivity|]. simpl. intros H.
    apply andb_true_iff in H as [Hx Hc]. unfold Regex.dot in Hx.
    apply negb_true_iff in Hx. rewrite Hx. now apply IH. }
  assert (Hstart : JS.startsWith (lit "--") (t :: rest) = false).
  { unfold JS.startsWith. cbn [lit list_ascii_of_string JS.stripPrefix].
    destruct (Ascii.eqb "-" t) eqn:E; [|reflexivity].
    apply Ascii.eqb_eq in E. subst t. discriminate Ht. }
  induction before as [|x before IH]; intros inComment Hend.
  - cbn [app lit list_ascii_of_string].
    destruct inComment.
    + exact (Hin ("-"%char :: "-"%char :: comment) Hcomment).
    + cbn [Spec.stripComments]. rewrite Hstart.
      change (JS.startsWith (lit "--") ("-"%char :: "-"%char :: comment ++ t :: rest))
        with true.
      cbv iota.
      change (JS.isLineTerminator "-") with false. cbv iota.
      rewrite (Hin comment Hcomment).
      cbn [Spec.stripComments]. now rewrite Ht.
  - assert (Hend' : Spec.noDashAtEnd before = true).
    { unfold Spec.noDashAtEnd in *. cbn [rev] in Hend.
      destruct (rev before); [reflexivity|exact Hend]. }
    cbn [app Spec.stripComments].
    rewrite !(IH _ Hend').
    destruct inComment; [reflexivity|].
    replace (JS.startsWith (lit "--")
               (x :: before ++ lit "--" ++ comment ++ t :: rest))
      with (JS.startsWith (lit "--") (x :: before ++ t :: rest));
      [reflexivity|].
    unfold JS.startsWith. cbn [lit list_ascii_of_string JS.stripPrefix].
    destruct (Ascii.eqb "-" x) eqn:Ex; [|reflexivity].
    destruct before as [|y before];
      [|cbn [app]; now destruct (Ascii.eqb "-" y)].
    apply Ascii.eqb_eq in Ex. subst x. discriminate Hend.
Qed.

(** The same for a comment that ends the text. *)
Lemma stripComments_last_comment (comment : str) :
  forallb Regex.dot comment = true ->
  forall before inComment,
    Spec.noDashAtEnd before = true ->
    Spec.stripComments inComment (before ++ lit "--" ++ comment)
    = Spec.stripComments inComment before.
Proof.
  intros Hcomment.
  assert (Hin : forall c, forallb Regex.dot c = true ->
                          Spec.stripComments true c = []).
  { induction c as [|x c IH]; [reflexivity|]. simpl. intros H.
    apply andb_true_iff in H as [Hx Hc]. unfold Regex.dot in Hx.
    apply negb_true_iff in Hx. rewrite Hx. now apply IH. }
  induction before as [|x before IH]; intros inComment Hend.
  - cbn [app lit list_ascii_of_string].
    destruct inComment.
    + exact (Hin ("-"%char :: "-"%char :: comment) Hcomment).
    + cbn [Spec.stripComments].
      change (JS.startsWith (lit "--") ("-"%char :: "-"%char :: comment))
        with true.
      cbv iota. exact (Hin ("-"%char :: comment) Hcomment).
  - assert (Hend' : Spec.noDashAtEnd before = true).
    { unfold Spec.noDashAtEnd in *. cbn [rev] in Hend.
      destruct (rev before); [reflexivity|exact Hend]. }
    cbn [app Spec.stripComments].
    rewrite !(IH _ Hend').
    destruct inComment; [reflexivity|].
    replace (JS.startsWith (lit "--") (x :: before ++ lit "--" ++ comment))
      with (JS.startsWith (lit "--") (x :: before));
      [reflexivity|].
    unfold JS.startsWith. cbn [lit list_ascii_of_string JS.stripPrefix].
    destruct (Ascii.eqb "-" x) eqn:Ex; [|reflexivity].
    destruct before as [|y before];
      [|cbn [app]; now destruct (Ascii.eqb "-" y)].
    apply Ascii.eqb_eq in Ex. subst x. discriminate Hend.
Qed.

End Comments.

(** X21.  A comment is not read.  When a text continues with [--], a
    comment without line terminator and the end of the line, or ends with
    [--] and such a comment, [parseSQL] returns what it returns for the
    text without the comment; the text before the comment is arbitrary (it
    may hold statements and other comments), except that it does not end
    with [-], which would start the comment one character earlier. *)
Theorem comments_are_not_read :
  forall (before comment rest : str) (t : ascii),
    Spec.noDashAtEnd before = true ->
    forallb Regex.dot comment = true ->
    JS.isLineTerminator t = true ->
    Inference.parseSQL (before ++ lit "--" ++ comment ++ t :: rest)
    = Inference.parseSQL (before ++ t :: rest)
    /\ Inference.parseSQL (before ++ lit "--" ++ comment)
       = Inference.parseSQL before.
Proof.
  intros before comment rest t Hend Hcomment Ht.
  unfold Inference.parseSQL, SchemaParser.cleanSQL.
  rewrite !(proj1 (replaceAll_comments _)).
  now rewrite (stripComments_comment comment rest t Hcomment Ht before false
                 Hend),
    (stripComments_last_comment comment Hcomment before false Hend).
Qed.

Lemma comments_are_not_read_witness :
  Inference.parseSQL
    (lit "CREATE TABLE a (x INT, -- the key" ++ lit "--" ++
     lit " y INT); DROP" ++ DiagramService.nl :: lit " z TEXT);")
  = Inference.parseSQL
      (lit "CREATE TABLE a (x INT, -- the key" ++
       DiagramService.nl :: lit " z TEXT);")
  /\ Inference.parseSQL
       (lit "CREATE TABLE a (x INT, -- the key" ++ lit "--" ++
        lit " y INT); DROP")
     = Inference.parseSQL (lit "CREATE TABLE a (x INT, -- the key").
Proof.
  apply (comments_are_not_read
           (lit "CREATE TABLE a (x INT, -- the key") (lit " y INT); DROP")
           (lit " z TEXT);") DiagramService.nl).
  - reflexivity.
  - reflexivity.
  - reflexivity.
Defined.
